(** * gltf-to-wl-bin: the legacy project generator, embedded and verified

    The development follows the CommonJS build of the converter (the file
    that defines [legacyGenerateProject], [parseTemplateProject] and
    [main]).  Every definition below is a translation of the JavaScript
    function of the same name; JavaScript objects that are shared by
    reference ([Node] instances, the joints arrays of the skins) live in
    explicit stores addressed by index or by id. *)

From Stdlib Require Import QArith Qcanon.
From stdpp Require Import base option list sorting strings pretty numbers gmap.

Set Warnings "-clear-no-such-hyp".
Open Scope string_scope.
Open Scope nat_scope.
Open Scope list_scope.

(** ** JavaScript primitives used by the converter *)

Module Js.

(** A value that is either a number or a string.  All numbers that flow
    through the id bookkeeping are non-negative integers. *)
Inductive val :=
  | Num (n : nat)
  | Str (s : string).

#[global] Instance val_eq_dec : EqDecision val.
Proof. solve_decision. Defined.

Fixpoint digits (s : string) (acc : nat) : option nat :=
  match s with
  | "" => Some acc
  | String c s' => d ← Ascii.is_nat c; digits s' (10 * acc + d)
  end.

(** [Number(s)] on the strings that occur as manifest keys: a run of
    decimal digits is its value, the empty string is [0], and a symbolic
    identifier such as ["p0"] is [NaN], here [None].  Keys in another
    numeric notation (a sign, a fraction, an exponent, a radix prefix,
    surrounding blanks) do not occur as ids and are read as symbolic. *)
Definition Number (s : string) : option nat := digits s 0.

(** [n.toString()] for a non-negative integer. *)
Definition toString (n : nat) : string := pretty n.

(** [ToNumber] of a value, as applied by the relational operators. *)
Definition toNumber (v : val) : option nat :=
  match v with
  | Num n => Some n
  | Str s => Number s
  end.

(** [n <= v] where the left operand is a number that is not [NaN]: [v] is
    converted to a number, and any comparison against [NaN] is false. *)
Definition le (n : nat) (v : val) : bool :=
  match toNumber v with
  | Some m => bool_decide (n ≤ m)
  | None => false
  end.

(** The binary [+]: numeric addition on two numbers, string
    concatenation as soon as one operand is a string. *)
Definition add (a b : val) : val :=
  match a, b with
  | Num x, Num y => Num (x + y)
  | Num x, Str t => Str (toString x +:+ t)
  | Str s, Num y => Str (s +:+ toString y)
  | Str s, Str t => Str (s +:+ t)
  end.

(** [!name] for an optional string: [undefined] and [""] are falsy. *)
Definition falsy (name : option string) : bool :=
  match name with
  | None => true
  | Some s => bool_decide (s = "")
  end.

End Js.

(** ** Template projects *)

Record Link := { link_name : string; link_file : string }.

#[global] Instance Link_eq_dec : EqDecision Link.
Proof. solve_decision. Defined.

(** An entry of an id-keyed category of a manifest; [link] may be missing. *)
Record TemplateObj := { t_link : option Link }.

#[global] Instance TemplateObj_eq_dec : EqDecision TemplateObj.
Proof. solve_decision. Defined.

(** A category is given by its [Object.entries], in enumeration order. *)
Definition Entries := list (string * TemplateObj).

(** The parsed template document; a category that is not a key of the
    document is [None]. *)
Record TemplateJson := {
  tj_objects : option Entries;
  tj_meshes : option Entries;
  tj_textures : option Entries;
  tj_images : option Entries;
  tj_materials : option Entries;
  tj_shaders : option Entries;
  tj_animations : option Entries;
  tj_skins : option Entries;
  tj_pipelines : option Entries
}.

Definition getMaxId (newIDStr : string) (maxID : Js.val) : Js.val :=
  match Js.Number newIDStr with
  | None => maxID
  | Some idNum => if Js.le idNum maxID then maxID else Js.Num idNum
  end.

Definition maybeAddDefaultObj (outList : gmap string TemplateObj)
    (idStr : string) (obj : TemplateObj) : gmap string TemplateObj :=
  match t_link obj with
  | Some l => if bool_decide (link_file l = "default")
              then <[idStr := obj]> outList else outList
  | None => outList
  end.

(** The snapshot returned by [parseTemplateProject]: the engine-builtin
    resources by category. *)
Record TemplateProject := {
  tp_meshes : gmap string TemplateObj;
  tp_textures : gmap string TemplateObj;
  tp_images : gmap string TemplateObj;
  tp_materials : gmap string TemplateObj;
  tp_shaders : gmap string TemplateObj;
  tp_pipelines : gmap string TemplateObj
}.

(** The loop [for (const [id, _obj] of Object.entries(cat)) maxID =
    getMaxId(id, maxID)], guarded by ['cat' in json]. *)
Definition scanMax (cat : option Entries) (maxID : Js.val) : Js.val :=
  match cat with
  | Some entries => foldl (λ m e, getMaxId e.1 m) maxID entries
  | None => maxID
  end.

(** The same loop as written for the animations and the skins, where the
    call is [getMaxId(id, id, maxID)]: the second argument, the key itself,
    is what [getMaxId] receives as [maxID]; the third one is dropped. *)
Definition scanMaxKeyed (cat : option Entries) (maxID : Js.val) : Js.val :=
  match cat with
  | Some entries => foldl (λ _ e, getMaxId e.1 (Js.Str e.1)) maxID entries
  | None => maxID
  end.

Definition scanDefaults (cat : option Entries) : gmap string TemplateObj :=
  match cat with
  | Some entries => foldl (λ out e, maybeAddDefaultObj out e.1 e.2) ∅ entries
  | None => ∅
  end.

Definition parseTemplateProject (json : TemplateJson)
    : TemplateProject * Js.val :=
  let maxID := Js.Num 0 in
  let maxID := scanMax (tj_objects json) maxID in
  let maxID := scanMax (tj_meshes json) maxID in
  let maxID := scanMax (tj_textures json) maxID in
  let maxID := scanMax (tj_images json) maxID in
  let maxID := scanMax (tj_materials json) maxID in
  let maxID := scanMax (tj_shaders json) maxID in
  let maxID := scanMaxKeyed (tj_animations json) maxID in
  let maxID := scanMaxKeyed (tj_skins json) maxID in
  let maxID := scanMax (tj_pipelines json) maxID in
  ({| tp_meshes := scanDefaults (tj_meshes json);
      tp_textures := scanDefaults (tj_textures json);
      tp_images := scanDefaults (tj_images json);
      tp_materials := scanDefaults (tj_materials json);
      tp_shaders := scanDefaults (tj_shaders json);
      tp_pipelines := scanDefaults (tj_pipelines json) |}, maxID).

(** The id bookkeeping of [main]: [templateMinID] is the second component
    of [parseTemplateProject] when [--template-project-path] is given and
    [28] with the built-in template; [reservedIDs] is the argument of
    [--reserve-ids], [0] when the option is not passed; then
    [curID = reservedIDs + templateMinID + 1]. *)
Definition templateMinID (template : option TemplateJson) : Js.val :=
  match template with
  | Some json => (parseTemplateProject json).2
  | None => Js.Num 28
  end.

Definition curID (reserveIds : option nat) (template : option TemplateJson)
    : Js.val :=
  let reservedIDs := default 0 reserveIds in
  Js.add (Js.add (Js.Num reservedIDs) (templateMinID template)) (Js.Num 1).

(** ** Errors

    The generator has no error handling of its own: it fails by a JavaScript
    exception.  [TypeError] is a property access on [undefined] or [null],
    [NodeNotPresent] is the [Error('Node not present in parent')] thrown by
    the path getter, and [StackOverflow] stands for a recursion that
    exhausts the call stack (the fuel of the recursive methods). *)

Inductive error := TypeError | NodeNotPresent | StackOverflow.

Inductive result (A : Type) :=
  | Ok (a : A)
  | Throw (e : error).
Arguments Ok {A} a.
Arguments Throw {A} e.

#[global] Instance result_bind : MBind result := λ A B f m,
  match m with
  | Ok a => f a
  | Throw e => Throw e
  end.
#[global] Instance result_ret : MRet result := λ A a, Ok a.

(** A [for ... of] loop whose body may throw. *)
Fixpoint forEach {A S : Type} (body : A → S → result S) (l : list A) (s : S)
    : result S :=
  match l with
  | [] => Ok s
  | x :: l' => s' ← body x s; forEach body l' s'
  end.

(** ** Scene nodes *)

Module Node.

(** A reference to a [Node] object: the virtual root [tree], or the
    element [nodesFlat[i]]. *)
Inductive ref := Root | Idx (i : nat).

#[global] Instance ref_eq_dec : EqDecision ref.
Proof. solve_decision. Defined.

(** The field [meshSkin]: [null] from the constructor, afterwards the
    result of [skinsMap.get], which is [undefined] for an unknown skin. *)
Inductive mskin := MsNull | MsUndefined | MsId (n : nat).

Record t := mk {
  children : list nat;
  parent : option ref;
  name : option string;
  _path : option string;
  id : option nat;
  meshSkin : mskin;
  skin : option nat
}.

(** [new Node(root)] *)
Definition new (root : bool) : t :=
  {| children := []; parent := None; name := None;
     _path := if root then Some "" else None;
     id := None; meshSkin := MsNull; skin := None |}.

Definition set_children (v : list nat) (n : t) : t :=
  mk v (parent n) (name n) (_path n) (id n) (meshSkin n) (skin n).
Definition set_parent (v : option ref) (n : t) : t :=
  mk (children n) v (name n) (_path n) (id n) (meshSkin n) (skin n).
Definition set_name (v : option string) (n : t) : t :=
  mk (children n) (parent n) v (_path n) (id n) (meshSkin n) (skin n).
Definition set_path (v : option string) (n : t) : t :=
  mk (children n) (parent n) (name n) v (id n) (meshSkin n) (skin n).
Definition set_id (v : option nat) (n : t) : t :=
  mk (children n) (parent n) (name n) (_path n) v (meshSkin n) (skin n).
Definition set_meshSkin (v : mskin) (n : t) : t :=
  mk (children n) (parent n) (name n) (_path n) (id n) v (skin n).
Definition set_skin (v : option nat) (n : t) : t :=
  mk (children n) (parent n) (name n) (_path n) (id n) (meshSkin n) v.

(** The heap of [Node] objects of one run: [tree] and [nodesFlat]. *)
Record store := { tree : t; nodesFlat : list t }.

Definition get (s : store) (r : ref) : option t :=
  match r with
  | Root => Some (tree s)
  | Idx i => nodesFlat s !! i
  end.

(** A field write on the object behind [r]. *)
Definition upd (r : ref) (f : t → t) (s : store) : store :=
  match r with
  | Root => {| tree := f (tree s); nodesFlat := nodesFlat s |}
  | Idx i => {| tree := tree s; nodesFlat := alter f i (nodesFlat s) |}
  end.

(** [r.children], empty when [r] is no object of the store. *)
Definition children_of (s : store) (r : ref) : list nat :=
  from_option children [] (get s r).

(** [this.setParent(parent)] for [this = nodesFlat[i]]. *)
Definition setParent (i : nat) (par : ref) (s : store) : store :=
  let s := upd (Idx i) (set_parent (Some par)) s in
  upd par (λ p, set_children (children p ++ [i]) p) s.

(** [array.indexOf(nodesFlat[i])] on an array of nodes: the first
    position that holds the object, [None] for [-1]. *)
Definition indexOf (l : list nat) (i : nat) : option nat :=
  fst <$> list_find (λ c, c = i) l.

(** The local [name] of the getter [path]: the node's own name, or
    [object_<childNumber>] from its position under [this.parent]. *)
Definition nameOf (node parentNode : t) (this : ref) : result string :=
  match name node, this with
  | Some nm, _ => Ok nm
  | None, Idx i =>
    match indexOf (children parentNode) i with
    | None => Throw NodeNotPresent
    | Some childNumber => Ok ("object_" +:+ Js.toString childNumber)
    end
  | None, Root => Throw NodeNotPresent
  end.

(** The getter [path].  The nested call [this.parent.path] takes one unit
    of [fuel], the call depth that is left. *)
Fixpoint path (fuel : nat) (this : ref) (s : store)
    : result (string * store) :=
  match get s this with
  | None => Throw TypeError
  | Some node =>
    match _path node with
    | Some p => Ok (p, s)
    | None =>
      match parent node with
      | None => Throw TypeError
      | Some par =>
        match get s par with
        | None => Throw TypeError
        | Some parentNode =>
          nm ← nameOf node parentNode this;
          '(suffix, s) ← match id parentNode with
                         | None => Ok ("", s)
                         | Some _ =>
                           match fuel with
                           | 0 => Throw StackOverflow
                           | S fuel =>
                             '(pp, s) ← path fuel par s;
                             Ok ("<" +:+ pp, s)
                           end
                         end;
          let p := nm +:+ suffix in
          Ok (p, upd this (set_path (Some p)) s)
        end
      end
    end
  end.

(** One iteration of the loop of [reverse], for the counter [i]. *)
Definition reverse_step (this : ref) (s : store) (i : nat) : store :=
  let cs := children_of s this in
  match cs !! i, cs !! (length cs - i - 1) with
  | Some first, Some second =>
    let s := foldl (λ s firstChild,
                      upd (Idx firstChild) (set_parent (Some (Idx second))) s)
                   s (children_of s (Idx first)) in
    let s := foldl (λ s secondChild,
                      upd (Idx secondChild) (set_parent (Some (Idx first))) s)
                   s (children_of s (Idx second)) in
    let fc := children_of s (Idx first) in
    let sc := children_of s (Idx second) in
    upd (Idx second) (set_children fc) (upd (Idx first) (set_children sc) s)
  | _, _ => s
  end.

(** [this.reverse()].  The loop runs for [i] from [0] below
    [floor(this.children.length / 2)]; the body never assigns the
    receiver's own [children], so the bound is the one on entry. *)
Definition reverse (this : ref) (s : store) : store :=
  foldl (reverse_step this) s (seq 0 (length (children_of s this) / 2)).

(** [this.dfs(callback)] over a state [S] that contains the store;
    [kids] reads [children] of a node out of the state.  The nested call
    [child.dfs(callback)] takes one unit of [fuel], the call depth that is
    left. *)
Fixpoint dfs {S : Type} (kids : S → ref → list nat)
    (callback : nat → S → result S) (fuel : nat) (this : ref) (s : S)
    : result S :=
  forEach (λ child s,
             s ← callback child s;
             match fuel with
             | 0 => Throw StackOverflow
             | S fuel => dfs kids callback fuel (Idx child) s
             end)
          (kids s this) s.

End Node.

(** ** The input document *)

(** An entry of [images], [materials], [meshes] or [animations]. *)
Record Named := { nm_name : option string }.
Record TextureIn := { tex_source : option nat }.
Record SkinIn := { sk_name : option string; sk_joints : list nat }.
Record NodeIn := {
  nd_name : option string;
  nd_children : option (list nat);
  nd_skin : option nat
}.

(** The glTF document; a top-level list that is not a key of the document
    is [None]. *)
Record Gltf := {
  images : option (list Named);
  textures : option (list TextureIn);
  materials : option (list Named);
  meshes : option (list Named);
  skins : option (list SkinIn);
  nodes : option (list NodeIn);
  animations : option (list Named)
}.

(** ** The generated project *)

Record MeshEntry := { m_link : Link; m_simplifyTarget : option Qc }.

(** [joints] is the array that [skinsJoints] also refers to. *)
Record SkinEntry := { s_link : Link; s_joints : list string }.

(** [o_components] lists the [skin] of each [{ mesh: { skin } }] component;
    the property is absent when there is none. *)
Record ObjectEntry := {
  o_link : Link;
  o_parent : option string;
  o_skin : option string;
  o_components : option (list string)
}.

#[global] Instance ObjectEntry_eq_dec : EqDecision ObjectEntry.
Proof. solve_decision. Defined.
#[global] Instance SkinEntry_eq_dec : EqDecision SkinEntry.
Proof. solve_decision. Defined.

(** In the categories that a template can seed, an entry is either carried
    over from the template or generated from the model file. *)
Inductive seeded (A : Type) :=
  | Kept (o : TemplateObj)
  | Gen (a : A).
Arguments Kept {A} o.
Arguments Gen {A} a.

Record Project := mkProject {
  p_objects : gmap string ObjectEntry;
  p_meshes : gmap string (seeded MeshEntry);
  p_textures : gmap string (seeded Link);
  p_images : gmap string (seeded Link);
  p_materials : gmap string (seeded Link);
  p_shaders : gmap string TemplateObj;
  p_animations : gmap string Link;
  p_skins : gmap string SkinEntry;
  p_pipelines : gmap string TemplateObj;
  p_version : list nat;
  p_files : list string
}.

Definition set_objects f (p : Project) : Project :=
  mkProject (f (p_objects p)) (p_meshes p) (p_textures p) (p_images p)
    (p_materials p) (p_shaders p) (p_animations p) (p_skins p)
    (p_pipelines p) (p_version p) (p_files p).
Definition set_meshes f (p : Project) : Project :=
  mkProject (p_objects p) (f (p_meshes p)) (p_textures p) (p_images p)
    (p_materials p) (p_shaders p) (p_animations p) (p_skins p)
    (p_pipelines p) (p_version p) (p_files p).
Definition set_textures f (p : Project) : Project :=
  mkProject (p_objects p) (p_meshes p) (f (p_textures p)) (p_images p)
    (p_materials p) (p_shaders p) (p_animations p) (p_skins p)
    (p_pipelines p) (p_version p) (p_files p).
Definition set_images f (p : Project) : Project :=
  mkProject (p_objects p) (p_meshes p) (p_textures p) (f (p_images p))
    (p_materials p) (p_shaders p) (p_animations p) (p_skins p)
    (p_pipelines p) (p_version p) (p_files p).
Definition set_materials f (p : Project) : Project :=
  mkProject (p_objects p) (p_meshes p) (p_textures p) (p_images p)
    (f (p_materials p)) (p_shaders p) (p_animations p) (p_skins p)
    (p_pipelines p) (p_version p) (p_files p).
Definition set_animations f (p : Project) : Project :=
  mkProject (p_objects p) (p_meshes p) (p_textures p) (p_images p)
    (p_materials p) (p_shaders p) (f (p_animations p)) (p_skins p)
    (p_pipelines p) (p_version p) (p_files p).
Definition set_skins f (p : Project) : Project :=
  mkProject (p_objects p) (p_meshes p) (p_textures p) (p_images p)
    (p_materials p) (p_shaders p) (p_animations p) (f (p_skins p))
    (p_pipelines p) (p_version p) (p_files p).
Definition set_files f (p : Project) : Project :=
  mkProject (p_objects p) (p_meshes p) (p_textures p) (p_images p)
    (p_materials p) (p_shaders p) (p_animations p) (p_skins p)
    (p_pipelines p) (p_version p) (f (p_files p)).

(** [generateBaseProject]: the spread [{ ...templateProject.meshes }]
    copies the builtin entries when [keepOtherResources] is set. *)
Definition generateBaseProject (templateProject : TemplateProject)
    (version : list nat) (keepOtherResources : bool) : Project :=
  let keep {A} (m : gmap string TemplateObj) : gmap string (seeded A) :=
    if keepOtherResources then Kept <$> m else ∅ in
  {| p_objects := ∅;
     p_meshes := keep (tp_meshes templateProject);
     p_textures := keep (tp_textures templateProject);
     p_images := keep (tp_images templateProject);
     p_materials := keep (tp_materials templateProject);
     p_shaders := tp_shaders templateProject;
     p_animations := ∅;
     p_skins := ∅;
     p_pipelines := tp_pipelines templateProject;
     p_version := version;
     p_files := [] |}.

(** [Node.toJson] for [this = nodesFlat[i]]; reading [this.path] may fill
    the memo fields of the store. *)
Definition toJson (fuel : nat) (i : nat) (origFilePath : string)
    (s : Node.store) : result (ObjectEntry * Node.store) :=
  '(p, s) ← Node.path fuel (Node.Idx i) s;
  match Node.get s (Node.Idx i) with
  | None => Throw TypeError
  | Some this =>
    match Node.parent this ≫= Node.get s with
    | None => Throw TypeError
    | Some parentNode =>
      components ← match Node.meshSkin this with
                   | Node.MsNull => Ok None
                   | Node.MsUndefined => Throw TypeError
                   | Node.MsId k => Ok (Some [Js.toString k])
                   end;
      Ok ({| o_link := {| link_name := p; link_file := origFilePath |};
             o_parent := Js.toString <$> Node.id parentNode;
             o_skin := Js.toString <$> Node.skin this;
             o_components := components |}, s)
    end
  end.

(** ** [legacyGenerateProject] *)

(** The default-name idiom: [let name = x.name; if (!name) { name =
    `prefix_${num}`; num++; }]. *)
Definition defaultName (prefix : string) (name : option string) (num : nat)
    : string * nat :=
  match name with
  | Some nm => if Js.falsy name
               then (prefix +:+ "_" +:+ Js.toString num, S num)
               else (nm, num)
  | None => (prefix +:+ "_" +:+ Js.toString num, S num)
  end.

Definition mkLink (name file : string) : Link :=
  {| link_name := name; link_file := file |}.

(** [array.sort()] on an array of numbers: without a comparator, the
    elements are ordered by their string conversions, compared as
    strings. *)
Definition sortCompare (a b : nat) : Prop :=
  String.le (Js.toString a) (Js.toString b).

#[global] Instance sortCompare_dec : RelDecision sortCompare.
Proof. intros a b. unfold sortCompare. apply _. Defined.

Definition sort (l : list nat) : list nat := merge_sort sortCompare l.

Section generate.
Variable symlinkRelPath : string.
Variable ratio : Qc.

(** // generate images list *)
Definition imagesBody (st : Project * nat * nat) (image : Named)
    : Project * nat * nat :=
  let '(project, id, imgDefaultNum) := st in
  let '(name, imgDefaultNum) :=
    defaultName "image" (nm_name image) imgDefaultNum in
  (set_images <[Js.toString id := Gen (mkLink name symlinkRelPath)]> project,
   S id, imgDefaultNum).

Definition genImages (json : Gltf) (st : Project * nat) : Project * nat :=
  match images json with
  | None => st
  | Some l => (foldl imagesBody (st, 0) l).1
  end.

(** // generate textures list *)
Definition texturesBody (st : Project * nat * gset (option nat) * nat)
    (texture : TextureIn) : Project * nat * gset (option nat) * nat :=
  let '(project, id, texSources, texCount) := st in
  if decide (tex_source texture ∈ texSources)
  then (project, id, texSources, S texCount)
  else
    (set_textures
       <[Js.toString id :=
           Gen (mkLink ("texture_" +:+ Js.toString texCount) symlinkRelPath)]>
       project,
     S id, {[tex_source texture]} ∪ texSources, S texCount).

Definition genTextures (json : Gltf) (st : Project * nat) : Project * nat :=
  match textures json with
  | None => st
  | Some l => (foldl texturesBody (st, ∅, 0) l).1.1
  end.

(** // generate materials list *)
Definition materialsBody (st : Project * nat * nat) (material : Named)
    : Project * nat * nat :=
  let '(project, id, matDefaultNum) := st in
  let '(name, matDefaultNum) :=
    defaultName "material" (nm_name material) matDefaultNum in
  (set_materials <[Js.toString id := Gen (mkLink name symlinkRelPath)]>
     project, S id, matDefaultNum).

Definition genMaterials (json : Gltf) (st : Project * nat) : Project * nat :=
  match materials json with
  | None => st
  | Some l => (foldl materialsBody (st, 0) l).1
  end.

(** // generate meshes list *)
Definition meshesBody (st : Project * nat * nat) (mesh : Named)
    : Project * nat * nat :=
  let '(project, id, meshDefaultNum) := st in
  let '(name, meshDefaultNum) :=
    defaultName "mesh" (nm_name mesh) meshDefaultNum in
  let meshObj :=
    {| m_link := mkLink name symlinkRelPath;
       m_simplifyTarget :=
         if decide (ratio = 1%Qc) then None else Some ratio |} in
  (set_meshes <[Js.toString id := Gen meshObj]> project, S id,
   meshDefaultNum).

Definition genMeshes (json : Gltf) (st : Project * nat) : Project * nat :=
  match meshes json with
  | None => st
  | Some l => (foldl meshesBody (st, 0) l).1
  end.

(** The maps filled by the skins loop: [skinsMap] (skin index to id),
    [skinsJoints] (id to joints array, here the key of the entry of
    [project.skins] that holds the array) and [jointIdxs] (node index to
    the id of the skin that listed it last). *)
Record SkinMaps := {
  skinsMap : gmap nat nat;
  skinsJoints : gmap nat string;
  jointIdxs : gmap nat nat
}.

Definition noSkinMaps : SkinMaps :=
  {| skinsMap := ∅; skinsJoints := ∅; jointIdxs := ∅ |}.

(** // generate skins *)
Definition skinsBody (st : Project * nat * nat * SkinMaps * nat)
    (skin : SkinIn) : Project * nat * nat * SkinMaps * nat :=
  let '(project, id, skinDefaultNum, maps, skinID) := st in
  let '(name, skinDefaultNum) :=
    defaultName "skin" (sk_name skin) skinDefaultNum in
  let project :=
    set_skins <[Js.toString id := {| s_link := mkLink name symlinkRelPath;
                                     s_joints := [] |}]> project in
  let jointIdxs :=
    foldl (λ m jointIdx, <[jointIdx := id]> m) (jointIdxs maps)
          (sk_joints skin) in
  (project, S id, skinDefaultNum,
   {| skinsMap := <[skinID := id]> (skinsMap maps);
      skinsJoints := <[id := Js.toString id]> (skinsJoints maps);
      jointIdxs := jointIdxs |},
   S skinID).

Definition genSkins (json : Gltf) (st : Project * nat)
    : Project * nat * SkinMaps :=
  match skins json with
  | None => (st, noSkinMaps)
  | Some l =>
    let r := foldl skinsBody (st, 0, noSkinMaps, 0) l in
    (r.1.1.1, r.1.2)
  end.

(** [nodesFlat[childIdx].setParent(node); orphans.delete(childIdx)] for
    [node = nodesFlat[idx]].  [orphans] is the [Set] in insertion
    order. *)
Definition attachChild (idx childIdx : nat) (st : Node.store * list nat)
    : result (Node.store * list nat) :=
  let '(s, orphans) := st in
  match Node.get s (Node.Idx childIdx) with
  | None => Throw TypeError
  | Some _ =>
    Ok (Node.setParent childIdx (Node.Idx idx) s,
        filter (λ o, o ≠ childIdx) orphans)
  end.

(** The body of the loop over [json.nodes], for the node [idx]. *)
Definition buildNode (maps : SkinMaps) (e : nat * NodeIn)
    (st : Node.store * list nat) : result (Node.store * list nat) :=
  let '(idx, nodeObj) := e in
  let '(s, orphans) := st in
  let s := match nd_name nodeObj with
           | Some nm => Node.upd (Node.Idx idx) (Node.set_name (Some nm)) s
           | None => s
           end in
  '(s, orphans) ←
    match nd_children nodeObj with
    | None => Ok (s, orphans)
    | Some cs => forEach (attachChild idx) cs (s, orphans)
    end;
  let s := match nd_skin nodeObj with
           | Some k =>
             Node.upd (Node.Idx idx)
               (Node.set_meshSkin
                  (from_option Node.MsId Node.MsUndefined (skinsMap maps !! k)))
               s
           | None => s
           end in
  let s := match jointIdxs maps !! idx with
           | Some skinID => Node.upd (Node.Idx idx) (Node.set_skin (Some skinID)) s
           | None => s
           end in
  Ok (s, orphans).

(** The state of the traversal: the nodes, the project under
    construction and the running [id]. *)
Record TreeState := {
  g_store : Node.store;
  g_project : Project;
  g_id : nat
}.

Definition pushJoint (idStr : string) (e : SkinEntry) : SkinEntry :=
  {| s_link := s_link e; s_joints := s_joints e ++ [idStr] |}.

(** The callback passed to [tree.dfs]. *)
Definition visit (maps : SkinMaps) (fuel : nat) (node : nat) (g : TreeState)
    : result TreeState :=
  let id := g_id g in
  let s := Node.upd (Node.Idx node) (Node.set_id (Some id)) (g_store g) in
  match Node.get s (Node.Idx node) with
  | None => Throw TypeError
  | Some this =>
    project ← match Node.skin this with
              | None => Ok (g_project g)
              | Some sk =>
                match skinsJoints maps !! sk with
                | None => Throw TypeError
                | Some key =>
                  Ok (set_skins (alter (pushJoint (Js.toString id)) key)
                                (g_project g))
                end
              end;
    '(obj, s) ← toJson fuel node symlinkRelPath s;
    Ok {| g_store := s;
          g_project := set_objects <[Js.toString id := obj]> project;
          g_id := S id |}
  end.

(** [nodesFlat[orphanIdx].setParent(tree)] *)
Definition attachOrphan (orphanIdx : nat) (s : Node.store)
    : result Node.store :=
  match Node.get s (Node.Idx orphanIdx) with
  | None => Throw TypeError
  | Some _ => Ok (Node.setParent orphanIdx Node.Root s)
  end.

(** The block that fills [nodesFlat] and attaches the orphans to
    [tree]. *)
Definition buildTree (maps : SkinMaps) (ns : list NodeIn)
    : result Node.store :=
  let nodeCount := length ns in
  let idxs := seq 0 nodeCount in
  let s0 := {| Node.tree := Node.new true;
               Node.nodesFlat := (λ _, Node.new false) <$> idxs |} in
  '(s, orphans) ← forEach (buildNode maps) (imap pair ns) (s0, idxs);
  let orphansOrdered := sort orphans in
  forEach attachOrphan orphansOrdered s.

(** // generate scene objects tree *)
Definition genTree (fuel : nat) (maps : SkinMaps) (json : Gltf)
    (st : Project * nat) : result TreeState :=
  let s0 := {| Node.tree := Node.new true; Node.nodesFlat := [] |} in
  match nodes json with
  | None => Ok {| g_store := s0; g_project := st.1; g_id := st.2 |}
  | Some ns =>
    s ← buildTree maps ns;
    let s := Node.reverse Node.Root s in
    Node.dfs (λ g, Node.children_of (g_store g)) (visit maps fuel) fuel
             Node.Root {| g_store := s; g_project := st.1; g_id := st.2 |}
  end.

(** // generate animations list *)
Definition animationsBody (st : Project * nat * nat) (animation : Named)
    : Project * nat * nat :=
  let '(project, id, animDefaultNum) := st in
  let '(name, animDefaultNum) :=
    defaultName "animation" (nm_name animation) animDefaultNum in
  (set_animations <[Js.toString id := mkLink name symlinkRelPath]> project,
   S id, animDefaultNum).

Definition genAnimations (json : Gltf) (st : Project * nat)
    : Project * nat :=
  match animations json with
  | None => st
  | Some l => (foldl animationsBody (st, 0) l).1
  end.

(** [legacyGenerateProject] up to and including the scene objects
    block: the state before the animations loop.  [fuel] is the call
    depth available to the recursive methods [dfs] and [path]. *)
Definition legacyGenerateTree (fuel : nat) (curID : nat)
    (templateProject : TemplateProject) (version : list nat)
    (keepOtherResources : bool) (json : Gltf) : result TreeState :=
  let project :=
    generateBaseProject templateProject version keepOtherResources in
  let project := set_files (λ files, files ++ [symlinkRelPath]) project in
  let st := (project, curID) in
  let st := genImages json st in
  let st := genTextures json st in
  let st := genMaterials json st in
  let st := genMeshes json st in
  let '(st, maps) := genSkins json st in
  genTree fuel maps json st.

(** [legacyGenerateProject] returns the project it writes to disk and
    the next free id. *)
Definition legacyGenerateProject (fuel : nat) (curID : nat)
    (templateProject : TemplateProject) (version : list nat)
    (keepOtherResources : bool) (json : Gltf) : result (Project * nat) :=
  g ← legacyGenerateTree fuel curID templateProject version
        keepOtherResources json;
  Ok (genAnimations json (g_project g, g_id g)).
End generate.

(** ** Concrete inputs used in the examples *)

Definition noTemplate : TemplateProject :=
  {| tp_meshes := ∅; tp_textures := ∅; tp_images := ∅; tp_materials := ∅;
     tp_shaders := ∅; tp_pipelines := ∅ |}.

Definition emptyGltf : Gltf :=
  {| images := None; textures := None; materials := None; meshes := None;
     skins := None; nodes := None; animations := None |}.

Definition tobj (name file : string) : TemplateObj :=
  {| t_link := Some (mkLink name file) |}.

(** The maximum numeric key of a list of keys, the way the specification
    words it: non-numeric keys are left out. *)
Definition maxNumericKey (keys : list string) : nat :=
  foldr max 0 (omap Js.Number keys).

Definition keysOf (cat : option Entries) : list string :=
  from_option (fmap fst) [] cat.

(** A template whose keys ["5"], ["12"] and ["foo"] sit in one category. *)
Definition keys512foo : Entries :=
  [("5", tobj "a" "x.glb"); ("12", tobj "b" "x.glb"); ("foo", tobj "c" "default")].

Definition templateObjects512 : TemplateJson :=
  {| tj_objects := Some keys512foo; tj_meshes := None; tj_textures := None;
     tj_images := None; tj_materials := None; tj_shaders := None;
     tj_animations := None; tj_skins := None; tj_pipelines := None |}.

Definition templateAnimations512 : TemplateJson :=
  {| tj_objects := None; tj_meshes := None; tj_textures := None;
     tj_images := None; tj_materials := None; tj_shaders := None;
     tj_animations := Some keys512foo; tj_skins := None; tj_pipelines := None |}.

Definition templateSkins512 : TemplateJson :=
  {| tj_objects := None; tj_meshes := None; tj_textures := None;
     tj_images := None; tj_materials := None; tj_shaders := None;
     tj_animations := None; tj_skins := Some keys512foo; tj_pipelines := None |}.

(** Objects up to ["50"], one animation ["3"]. *)
Definition templateObjects50Animation3 : TemplateJson :=
  {| tj_objects := Some [("50", tobj "o" "x.glb")]; tj_meshes := None;
     tj_textures := None; tj_images := None; tj_materials := None;
     tj_shaders := None; tj_animations := Some [("3", tobj "a" "x.glb")];
     tj_skins := None; tj_pipelines := None |}.

(** A template whose largest key is the shader ["28"]. *)
Definition templateShader28 : TemplateJson :=
  {| tj_objects := None; tj_meshes := None; tj_textures := None;
     tj_images := None; tj_materials := None;
     tj_shaders := Some [("1", tobj "Depth.frag" "default");
                         ("28", tobj "Sky.frag" "default")];
     tj_animations := None; tj_skins := None; tj_pipelines := None |}.

(** *** Texture deduplication, in the words of the specification *)

(** The number of distinct source images among the entries [l]. *)
Definition distinctSources (l : list TextureIn) : nat :=
  size (list_to_set (tex_source <$> l) : gset (option nat)).

(** The position of the first entry of [l] whose source image is [src]. *)
Definition firstWithSource (l : list TextureIn) (src : option nat)
    : option nat :=
  fst <$> list_find (λ t, tex_source t = src) l.

Definition textures001 : list TextureIn :=
  [ {| tex_source := Some 0 |}; {| tex_source := Some 0 |};
    {| tex_source := Some 1 |} ].

Definition gltfTextures001 : Gltf :=
  {| images := None; textures := Some textures001; materials := None;
     meshes := None; skins := None; nodes := None; animations := None |}.

(** *** Id ranges *)

(** [added P lo n m m']: the mapping [m'] is [m] with an entry that
    satisfies [P] under each of the [n] ids from [lo] on, and nothing else
    changed. *)
Definition added {V} (P : V → Prop) (lo n : nat) (m m' : gmap string V)
    : Prop :=
  (∀ k, lo ≤ k < lo + n → ∃ v, m' !! Js.toString k = Some v ∧ P v)
  ∧ (∀ key, (∀ k, lo ≤ k < lo + n → key ≠ Js.toString k) →
       m' !! key = m !! key).

(** The entry was generated from the model file. *)
Definition isGen {A} (v : seeded A) : Prop := ∃ a, v = Gen a.

(** *** Views of the node store *)

(** A node without the fields that the traversal writes ([id] and the
    memo [_path]). *)
Definition skeleton (n : Node.t) : Node.t :=
  Node.set_id None (Node.set_path None n).

(** Two stores hold the same nodes up to [id] and [_path]. *)
Definition sameSkeleton (s s' : Node.store) : Prop :=
  ∀ r, skeleton <$> Node.get s r = skeleton <$> Node.get s' r.

(** The pre-order sequence of the nodes below [this]: each child is
    followed by the sequence of its own subtree.  [kids] gives the
    children of a node; the nesting is bounded by [fuel] as in
    [Node.dfs]. *)
Definition orderList (sub : nat → option (list nat)) (cs : list nat)
    : option (list nat) :=
  foldr (λ c acc, l ← sub c; r ← acc; Some (c :: l ++ r)) (Some []) cs.

Fixpoint order (kids : Node.ref → list nat) (fuel : nat) (this : Node.ref)
    : option (list nat) :=
  orderList (λ c, match fuel with
                  | 0 => None
                  | S fuel => order kids fuel (Node.Idx c)
                  end)
            (kids this).

(** The skin of which [nodesFlat[c]] is a joint, if any. *)
Definition nodeSkin (s : Node.store) (c : nat) : option nat :=
  Node.get s (Node.Idx c) ≫= Node.skin.

(** The joint registration of the traversal callback: when the node [c]
    receives [id], the id is pushed on the joints array of its skin. *)
Definition jointPush (maps : SkinMaps) (s : Node.store)
    (skins : gmap string SkinEntry) (e : nat * nat) : gmap string SkinEntry :=
  match nodeSkin s e.1 ≫= (skinsJoints maps !!.) with
  | Some key => alter (pushJoint (Js.toString e.2)) key skins
  | None => skins
  end.

(** A project differs from another one in its objects and skins only. *)
Definition sameResources (p p' : Project) : Prop :=
  p' = set_objects (λ _, p_objects p') (set_skins (λ _, p_skins p') p).

(** *** The input node list *)

(** The child indices that the input node [i] declares. *)
Definition kidsIn (ns : list NodeIn) (i : nat) : list nat :=
  default [] (ns !! i ≫= nd_children).

(** All declared child indices, node after node. *)
Definition listed (ns : list NodeIn) : list nat :=
  ns ≫= λ n, default [] (nd_children n).

(** The orphans: the indices that no node lists as a child, ascending. *)
Definition orphansOf (ns : list NodeIn) : list nat :=
  filter (λ o, o ∉ listed ns) (seq 0 (length ns)).

(** The [meshSkin] a node receives from its [skin] property. *)
Definition meshSkinOf (maps : SkinMaps) (n : NodeIn) : Node.mskin :=
  match nd_skin n with
  | Some k => from_option Node.MsId Node.MsUndefined (skinsMap maps !! k)
  | None => Node.MsNull
  end.

(** [describes N F rk s]: the store [s] holds the [N] nodes [F 0], ...,
    [F (N - 1)] and a root whose children are [rk]. *)
Definition describes (N : nat) (F : nat → Node.t) (rk : list nat)
    (s : Node.store) : Prop :=
  Node.tree s = Node.set_children rk (Node.new true)
  ∧ length (Node.nodesFlat s) = N
  ∧ ∀ i, i < N → Node.nodesFlat s !! i = Some (F i).

(** A node without its tree links. *)
Definition unlinked (n : Node.t) : Node.t :=
  Node.set_children [] (Node.set_parent None n).

(** The fields that the loop over [json.nodes] writes on [nodesFlat[idx]]
    besides the tree links. *)
Definition decorate (maps : SkinMaps) (idx : nat) (nodeObj : NodeIn)
    (n : Node.t) : Node.t :=
  Node.mk (Node.children n) (Node.parent n)
    (match nd_name nodeObj with Some nm => Some nm | None => Node.name n end)
    (Node._path n) (Node.id n)
    (match nd_skin nodeObj with
     | Some _ => meshSkinOf maps nodeObj
     | None => Node.meshSkin n
     end)
    (match jointIdxs maps !! idx with
     | Some skinID => Some skinID
     | None => Node.skin n
     end).

(** The store before the loop over [json.nodes]. *)
Definition emptyStore (N : nat) : Node.store :=
  {| Node.tree := Node.new true;
     Node.nodesFlat := (λ _, Node.new false) <$> seq 0 N |}.

(** The node [x] after one iteration of [reverse] on the pair [first],
    [second], when it was [F x] before: the children of the one are
    re-parented to the other, and the two child arrays change places. *)
Definition swapped (F : nat → Node.t) (first second x : nat) : Node.t :=
  let n :=
    if decide (x ∈ Node.children (F second))
    then Node.set_parent (Some (Node.Idx first)) (F x)
    else if decide (x ∈ Node.children (F first))
         then Node.set_parent (Some (Node.Idx second)) (F x)
         else F x in
  if decide (x = second) then Node.set_children (Node.children (F first)) n
  else if decide (x = first) then Node.set_children (Node.children (F second)) n
       else n.

(** The links of a node tree, for [N] nodes [F] and root children [rk]:
    every node is exactly once a child, of the root or of a node, and a
    child's [parent] is the node that holds it. *)
Definition linked (N : nat) (F : nat → Node.t) (rk : list nat) : Prop :=
  rk ++ (seq 0 N ≫= λ p, Node.children (F p)) ≡ₚ seq 0 N
  ∧ (∀ c, c ∈ rk → Node.parent (F c) = Some Node.Root)
  ∧ (∀ p c, p < N → c ∈ Node.children (F p) →
            Node.parent (F c) = Some (Node.Idx p)).

(** A depth [d] on a node tree: the root children are at depth [0] and a
    child is one level below its parent. *)
Definition leveled (N : nat) (F : nat → Node.t) (rk : list nat)
    (d : nat → nat) : Prop :=
  (∀ c, c ∈ rk → d c = 0)
  ∧ (∀ p c, p < N → c ∈ Node.children (F p) → d c = S (d p)).

(** The invariant of the node tree. *)
Definition treeInv (N : nat) (F : nat → Node.t) (rk : list nat)
    (d : nat → nat) : Prop :=
  linked N F rk ∧ leveled N F rk d.

(** The transposition of [a] and [b]. *)
Definition transpose (a b x : nat) : nat :=
  if decide (x = b) then a else if decide (x = a) then b else x.

(** *** What the traversal emits *)

(** The node behind a reference, for [N] nodes [F] and root children
    [rk]. *)
Definition nodeAt (F : nat → Node.t) (rk : list nat) (r : Node.ref) : Node.t :=
  match r with
  | Node.Root => Node.set_children rk (Node.new true)
  | Node.Idx p => F p
  end.

(** The object that [toJson] builds for a node with the given path and
    parent id. *)
Definition objectEntry (file pth : string) (parentId : option nat)
    (node : Node.t) : ObjectEntry :=
  {| o_link := mkLink pth file;
     o_parent := Js.toString <$> parentId;
     o_skin := Js.toString <$> Node.skin node;
     o_components := match Node.meshSkin node with
                     | Node.MsId k => Some [Js.toString k]
                     | _ => None
                     end |}.

(** [visitedAt file F G rk id0 objects i x]: the node [x], the [i]-th of
    the traversal of the tree [F], has received the id [id0 + i]; its
    memoized path is its local name, followed by ["<"] and the path of its
    parent unless the parent is the root; and [objects] holds its entry
    under its id.  [G] gives the nodes after the traversal. *)
Definition visitedAt (file : string) (F G : nat → Node.t) (rk : list nat)
    (id0 : nat) (objects : gmap string ObjectEntry) (i x : nat) : Prop :=
  Node.id (G x) = Some (id0 + i)
  ∧ ∃ r lname suffix,
      Node.parent (F x) = Some r
      ∧ Node.nameOf (F x) (nodeAt F rk r) (Node.Idx x) = Ok lname
      ∧ match r with
        | Node.Root => suffix = ""
        | Node.Idx p => ∃ pp, Node._path (G p) = Some pp ∧ suffix = "<" +:+ pp
        end
      ∧ Node._path (G x) = Some (lname +:+ suffix)
      ∧ objects !! Js.toString (id0 + i)
        = Some (objectEntry file (lname +:+ suffix)
                  (Node.id (nodeAt G rk r)) (F x)).

(** *** Well-formed node lists *)

(** The first node that lists [c] as a child. *)
Definition parentIn (ns : list NodeIn) (c : nat) : option nat :=
  fst <$> list_find (λ n, c ∈ default [] (nd_children n)) ns.

(** The number of ancestors of [c], when following the listing nodes
    upwards reaches a node that nobody lists within [fuel] steps. *)
Fixpoint depthIn (ns : list NodeIn) (fuel : nat) (c : nat) : option nat :=
  match fuel with
  | 0 => None
  | S fuel =>
    match parentIn ns c with
    | None => Some 0
    | Some p => S <$> depthIn ns fuel p
    end
  end.

(** No cycles: from every node, the chain of parents ends. *)
Definition acyclic (ns : list NodeIn) : Prop :=
  Forall (λ c, is_Some (depthIn ns (length ns) c)) (seq 0 (length ns)).

(** The child indices are in range, no index is listed twice, and there
    is no cycle. *)
Definition wellFormed (ns : list NodeIn) : Prop :=
  Forall (λ c, c < length ns) (listed ns) ∧ NoDup (listed ns) ∧ acyclic ns.

#[global] Instance wellFormed_dec ns : Decision (wellFormed ns).
Proof. unfold wellFormed, acyclic. apply _. Defined.

(** Every [skin] property of a node is the index of a skin. *)
Definition skinsInRange (nskins : nat) (ns : list NodeIn) : Prop :=
  Forall (λ n, from_option (λ k, k < nskins) True (nd_skin n)) ns.

#[global] Instance skinsInRange_dec nskins ns : Decision (skinsInRange nskins ns).
Proof.
  unfold skinsInRange. apply Forall_dec. intros n.
  destruct (nd_skin n); simpl; apply _.
Defined.

Definition depthOf (ns : list NodeIn) (c : nat) : nat :=
  default 0 (depthIn ns (length ns) c).

(** *** Example node lists *)

Definition bareNode : NodeIn :=
  {| nd_name := None; nd_children := None; nd_skin := None |}.

Definition namedNode (nm : string) (cs : list nat) : NodeIn :=
  {| nd_name := Some nm; nd_children := Some cs; nd_skin := None |}.

(** Eleven nodes without children: eleven orphans. *)
Definition nodes11 : list NodeIn := replicate 11 bareNode.

(** [A] with the children [a1], [a2]; [B]; [C]; [D] with the child [d1]. *)
Definition nodesABCD : list NodeIn :=
  [ namedNode "A" [4; 5]; namedNode "B" []; namedNode "C" [];
    namedNode "D" [6]; namedNode "a1" []; namedNode "a2" [];
    namedNode "d1" [] ].

(** *** The phases of [legacyGenerateProject] *)

(** The number of entries of a top-level list; an absent list has none. *)
Definition count {A} (l : option (list A)) : nat := length (default [] l).

(** [legacyGenerateProject] up to and including the skins loop: the
    project, the running id and the three skin maps before the scene
    objects block. *)
Definition genResources (file : string) (ratio : Qc) (curID : nat)
    (templateProject : TemplateProject) (version : list nat)
    (keepOtherResources : bool) (json : Gltf) : Project * nat * SkinMaps :=
  let project :=
    generateBaseProject templateProject version keepOtherResources in
  let project := set_files (λ files, files ++ [file]) project in
  genSkins file json
    (genMeshes file ratio json
       (genMaterials file json
          (genTextures file json (genImages file json (project, curID))))).

(** The node store that the traversal starts from: [nodesFlat] under
    [tree], after [tree.reverse()]. *)
Definition treeStore (maps : SkinMaps) (json : Gltf) : option Node.store :=
  match nodes json with
  | None => Some {| Node.tree := Node.new true; Node.nodesFlat := [] |}
  | Some ns =>
    match buildTree maps ns with
    | Ok s => Some (Node.reverse Node.Root s)
    | Throw _ => None
    end
  end.

(** The nodes in the order in which [tree.dfs] visits them. *)
Definition traversalOrder (fuel : nat) (maps : SkinMaps) (json : Gltf)
    : option (list nat) :=
  s ← treeStore maps json; order (Node.children_of s) fuel Node.Root.

(** The local name of the node [x] in the store [s], in the words of the
    specification: the explicit name if set, else [object_<k>] for the
    position [k] of [x] in the child list of its parent. *)
Definition localName (s : Node.store) (x : nat) : option string :=
  node ← Node.get s (Node.Idx x);
  match Node.name node with
  | Some nm => Some nm
  | None =>
    par ← Node.parent node;
    k ← Node.indexOf (Node.children_of s par) x;
    Some ("object_" +:+ Js.toString k)
  end.

(** Two documents have the same entries in every top-level list, an
    absent list counting as an empty one. *)
Definition sameLists (json json' : Gltf) : Prop :=
  default [] (images json) = default [] (images json')
  ∧ default [] (textures json) = default [] (textures json')
  ∧ default [] (materials json) = default [] (materials json')
  ∧ default [] (meshes json) = default [] (meshes json')
  ∧ default [] (skins json) = default [] (skins json')
  ∧ default [] (nodes json) = default [] (nodes json')
  ∧ default [] (animations json) = default [] (animations json').

(** The first id of each category, when the images start at [curID]:
    each category starts where the one before it ends. *)
Definition texturesFrom (curID : nat) (json : Gltf) : nat :=
  curID + count (images json).

Definition materialsFrom (curID : nat) (json : Gltf) : nat :=
  texturesFrom curID json + distinctSources (default [] (textures json)).

Definition meshesFrom (curID : nat) (json : Gltf) : nat :=
  materialsFrom curID json + count (materials json).

Definition skinsFrom (curID : nat) (json : Gltf) : nat :=
  meshesFrom curID json + count (meshes json).

Definition objectsFrom (curID : nat) (json : Gltf) : nat :=
  skinsFrom curID json + count (skins json).

(** *** Node lists at the edge of the preconditions *)

(** A document that has a [nodes] list and no other list. *)
Definition gltfNodes (ns : list NodeIn) : Gltf :=
  {| images := None; textures := None; materials := None; meshes := None;
     skins := None; nodes := Some ns; animations := None |}.

(** Node [0] lists node [1] twice. *)
Definition nodesTwice : list NodeIn :=
  [ {| nd_name := None; nd_children := Some [1; 1]; nd_skin := None |};
    bareNode ].

(** A node whose [skin] property is not the index of a skin. *)
Definition nodesDanglingSkin : list NodeIn :=
  [ {| nd_name := None; nd_children := None; nd_skin := Some 0 |} ].

(** The nodes that list [c] as a child. *)
Definition parentsOf (ns : list NodeIn) (c : nat) : list nat :=
  filter (λ p, c ∈ kidsIn ns p) (seq 0 (length ns)).

(** Each node is listed as a child of at most one parent. *)
Definition oneParent (ns : list NodeIn) : Prop :=
  Forall (λ c, length (parentsOf ns c) ≤ 1) (seq 0 (length ns)).

(** [A] with the child [B]; [B]; [C]. *)
Definition nodesABC : list NodeIn :=
  [ namedNode "A" [1];
    {| nd_name := Some "B"; nd_children := None; nd_skin := None |};
    {| nd_name := Some "C"; nd_children := None; nd_skin := None |} ].

(** The memoized path of the node behind [r]. *)
Definition pathOf (s : Node.store) (r : Node.ref) : option string :=
  Node.get s r ≫= Node._path.

(** Every node that has a parent is in the child list of that parent, and
    the root has no parent. *)
Definition childOfParent (s : Node.store) : Prop :=
  Node.parent (Node.tree s) = None
  ∧ ∀ i node par parentNode,
      Node.get s (Node.Idx i) = Some node →
      Node.parent node = Some par →
      Node.get s par = Some parentNode →
      i ∈ Node.children parentNode.

(** One skin that declares the joints [X = 1] and [Y = 0], in that
    order, over two nodes without children: the traversal visits [Y]
    before [X]. *)
Definition gltfJointsXY : Gltf :=
  {| images := None; textures := None; materials := None; meshes := None;
     skins := Some [ {| sk_name := None; sk_joints := [1; 0] |} ];
     nodes := Some [ bareNode; bareNode ];
     animations := None |}.

(** A document with one entry in every top-level list. *)
Definition gltfOneOfEach : Gltf :=
  {| images := Some [ {| nm_name := None |} ];
     textures := Some [ {| tex_source := Some 0 |} ];
     materials := Some [ {| nm_name := None |} ];
     meshes := Some [ {| nm_name := None |} ];
     skins := Some [ {| sk_name := None; sk_joints := [0] |} ];
     nodes := Some [ bareNode ];
     animations := Some [ {| nm_name := None |} ] |}.

(** A template whose [meshes] hold one engine-builtin entry. *)
Definition templateMesh7 : TemplateJson :=
  {| tj_objects := None;
     tj_meshes := Some [("7", tobj "PrimitiveCube" "default")];
     tj_textures := None; tj_images := None; tj_materials := None;
     tj_shaders := None; tj_animations := None; tj_skins := None;
     tj_pipelines := None |}.

(** *** Template keys and builtin entries *)

(** The keys of the categories that [parseTemplateProject] scans with
    [getMaxId(id, maxID)]. *)
Definition templateKeys (json : TemplateJson) : list string :=
  keysOf (tj_objects json) ++ keysOf (tj_meshes json)
  ++ keysOf (tj_textures json) ++ keysOf (tj_images json)
  ++ keysOf (tj_materials json) ++ keysOf (tj_shaders json)
  ++ keysOf (tj_pipelines json).


(** *** Default names *)

(** The number of entries before position [i] that have no usable name
    ([undefined] or [""]). *)
Definition unnamedBefore (names : list (option string)) (i : nat) : nat :=
  length (filter (λ n, Js.falsy n) (take i names)).

(** The name under which the [i]-th entry of a list is emitted: its own
    name, or [<prefix>_<k>] when it has none, [k] counting the unnamed
    entries before it. *)
Definition nameAt (prefix : string) (names : list (option string)) (i : nat)
    : string :=
  match names !! i with
  | Some (Some nm) =>
    if bool_decide (nm = "")
    then prefix +:+ "_" +:+ Js.toString (unnamedBefore names i)
    else nm
  | _ => prefix +:+ "_" +:+ Js.toString (unnamedBefore names i)
  end.

(** The positions of the skins that list the node [j] as a joint, in
    ascending order. *)
Definition listingSkins (l : list SkinIn) (j : nat) : list nat :=
  filter (λ k, j ∈ default [] (sk_joints <$> l !! k)) (seq 0 (length l)).

(** *** More node lists *)

(** A node that lists a child index beyond the end of the list. *)
Definition nodesDanglingChild : list NodeIn :=
  [ {| nd_name := None; nd_children := Some [5]; nd_skin := None |} ].

(** Two nodes that list each other as children. *)
Definition nodesCycle : list NodeIn :=
  [ {| nd_name := None; nd_children := Some [1]; nd_skin := None |};
    {| nd_name := None; nd_children := Some [0]; nd_skin := None |} ].

(** Two skins that both list node [0] as a joint; the second one also
    lists node [1]. *)
Definition gltfSharedJoint : Gltf :=
  {| images := None; textures := None; materials := None; meshes := None;
     skins := Some [ {| sk_name := Some "arm"; sk_joints := [0] |};
                     {| sk_name := None; sk_joints := [0; 1] |} ];
     nodes := Some [ bareNode;
                     {| nd_name := None; nd_children := None;
                        nd_skin := Some 1 |} ];
     animations := None |}.

(** Entries with and without names. *)
Definition gltfNames : Gltf :=
  {| images := Some [ {| nm_name := None |}; {| nm_name := Some "wood" |};
                      {| nm_name := Some "" |} ];
     textures := None;
     materials := Some [ {| nm_name := Some "paint" |} ];
     meshes := Some [ {| nm_name := None |} ];
     skins := None; nodes := None;
     animations := Some [ {| nm_name := None |}; {| nm_name := None |} ] |}.

(** ** The command line: input models and the import mode *)

(** [UserError] and its subclass [UsageError]. *)
Inductive cliError := UserError | UsageError.

(** An element of [models]. *)
Record Model := {
  modelPath : string;
  modelFileName : string;
  mo_ratio : option Qc;
  outputName : string;
  legacyImport : bool
}.

(** [s.endsWith(suffix)] *)
Definition endsWith (s suffix : string) : bool :=
  bool_decide
    (String.length suffix ≤ String.length s
     ∧ String.substring (String.length s - String.length suffix)
         (String.length suffix) s = suffix).

(** The part of [addInputModel] that strips the extension and the
    [.legacy] mark from the file name: the [legacyImport] flag and the
    [baseFileName]. *)
Definition legacyStem (fileName modelExt : string) : bool * string :=
  let baseFileName :=
    String.substring 0 (String.length fileName - String.length modelExt)
      fileName in
  if endsWith baseFileName ".legacy"
  then (true, String.substring 0 (String.length baseFileName - 7) baseFileName)
  else (false, baseFileName).

(** [addInputModel(models, modelPath, ratio)].  [basename] and [extname]
    are [path.basename] and [path.extname] of the Node.js library; the
    function pushes onto [models] or throws. *)
Definition addInputModel (basename extname : string → string)
    (models : list Model) (path : string) (ratio : option Qc)
    : cliError + list Model :=
  let fileName := basename path in
  let modelExt := extname fileName in
  let extLen := String.length modelExt in
  if bool_decide (extLen = 0)
     || (bool_decide (modelExt ≠ ".gltf") && bool_decide (modelExt ≠ ".glb"))
  then inl UserError
  else
    let '(legacy, baseFileName) := legacyStem fileName modelExt in
    let name := baseFileName +:+ ".bin" in
    if bool_decide (name ∈ outputName <$> models)
    then inl UsageError
    else inr (models ++ [ {| modelPath := path; modelFileName := fileName;
                             mo_ratio := ratio; outputName := name;
                             legacyImport := legacy |} ]).

(** The test of [main] on a detected version: older than 0.9.4. *)
Definition olderThan094 (version : nat * nat * nat) : bool :=
  let '(major, minor, patch) := version in
  bool_decide (major = 0)
  && (bool_decide (minor < 9)
      || (bool_decide (minor = 9) && bool_decide (patch < 4))).

(** [wantLegacyImport] when [main] reaches the loop over the models:
    [cliLegacy] is [--legacy-import]; [cliVersion] is the argument of
    [--version], and [detected] what [detectVersion] returns, which is
    asked for only when [--version] is not given. *)
Definition wantLegacyImport (cliLegacy : bool)
    (cliVersion : option (nat * nat * nat)) (detected : nat * nat * nat)
    (reservedIDs : nat) : bool :=
  let want := cliLegacy in
  let want := match cliVersion with
              | None => if olderThan094 detected then true else want
              | Some _ => want
              end in
  if bool_decide (reservedIDs ≠ 0) && negb want then true else want.

(** [legacyImport] for one model in the loop of [main]. *)
Definition usesLegacyImport (want : bool) (defaultSimplificationRatio : Qc)
    (model : Model) : bool :=
  let legacy := legacyImport model || want in
  let actualRatio := default defaultSimplificationRatio (mo_ratio model) in
  if bool_decide (actualRatio ≠ 1%Qc) && negb legacy then true else legacy.

(** A stand-in for [path.extname] on file names without directory: the
    part from the last dot on, if that dot is not the first character. *)
Fixpoint lastDot (s : string) (i : nat) (found : option nat) : option nat :=
  match s with
  | "" => found
  | String c s' =>
    lastDot s' (S i)
      (if bool_decide (String c "" = ".") then Some i else found)
  end.

Definition extnameOf (s : string) : string :=
  match lastDot s 0 None with
  | Some (S i) => String.substring (S i) (String.length s - S i) s
  | _ => ""
  end.

(** The lexicographic order on versions. *)
Definition versionLt (v w : nat * nat * nat) : Prop :=
  v.1.1 < w.1.1
  ∨ (v.1.1 = w.1.1 ∧ (v.1.2 < w.1.2 ∨ (v.1.2 = w.1.2 ∧ v.2 < w.2))).


(** ** The first version of the generator

    [generateProject] of the file [gltf-to-wl-bin.js]: the project is
    built around hard-coded shaders and pipelines, the ids start at [28],
    and the loops come in another order.  The class [Node] is the one
    above. *)

(** The mapping that holds the values [vs] under consecutive ids from
    [lo] on. *)
Definition entriesAt {V} (lo : nat) (vs : list V) : gmap string V :=
  list_to_map (zip (Js.toString <$> seq lo (length vs)) vs).

Module Old.

(** A link whose [name] is whatever the glTF entry has, [undefined]
    included. *)
Record NamedLink := { nl_name : option string; nl_file : string }.

Record MeshEntry := { me_link : NamedLink; me_simplifyTarget : option Qc }.

(** The joints are the numeric ids, as pushed by the callback. *)
Record SkinEntry := { se_link : NamedLink; se_joints : list nat }.

(** The project literal.  [op_version] is [settings.project.version];
    the other settings are constants that no loop reads or writes. *)
Record Project := mkProject {
  op_objects : gmap string ObjectEntry;
  op_meshes : gmap string MeshEntry;
  op_textures : gmap string Link;
  op_images : gmap string NamedLink;
  op_materials : gmap string NamedLink;
  op_shaders : gmap string TemplateObj;
  op_animations : gmap string NamedLink;
  op_skins : gmap string SkinEntry;
  op_pipelines : gmap string TemplateObj;
  op_version : list nat;
  op_files : list string
}.

Definition set_objects f (p : Project) : Project :=
  mkProject (f (op_objects p)) (op_meshes p) (op_textures p) (op_images p)
    (op_materials p) (op_shaders p) (op_animations p) (op_skins p)
    (op_pipelines p) (op_version p) (op_files p).
Definition set_meshes f (p : Project) : Project :=
  mkProject (op_objects p) (f (op_meshes p)) (op_textures p) (op_images p)
    (op_materials p) (op_shaders p) (op_animations p) (op_skins p)
    (op_pipelines p) (op_version p) (op_files p).
Definition set_textures f (p : Project) : Project :=
  mkProject (op_objects p) (op_meshes p) (f (op_textures p)) (op_images p)
    (op_materials p) (op_shaders p) (op_animations p) (op_skins p)
    (op_pipelines p) (op_version p) (op_files p).
Definition set_images f (p : Project) : Project :=
  mkProject (op_objects p) (op_meshes p) (op_textures p) (f (op_images p))
    (op_materials p) (op_shaders p) (op_animations p) (op_skins p)
    (op_pipelines p) (op_version p) (op_files p).
Definition set_materials f (p : Project) : Project :=
  mkProject (op_objects p) (op_meshes p) (op_textures p) (op_images p)
    (f (op_materials p)) (op_shaders p) (op_animations p) (op_skins p)
    (op_pipelines p) (op_version p) (op_files p).
Definition set_animations f (p : Project) : Project :=
  mkProject (op_objects p) (op_meshes p) (op_textures p) (op_images p)
    (op_materials p) (op_shaders p) (f (op_animations p)) (op_skins p)
    (op_pipelines p) (op_version p) (op_files p).
Definition set_skins f (p : Project) : Project :=
  mkProject (op_objects p) (op_meshes p) (op_textures p) (op_images p)
    (op_materials p) (op_shaders p) (op_animations p) (f (op_skins p))
    (op_pipelines p) (op_version p) (op_files p).

(** The entries [{ link: { name, file: "default" } }] of a literal. *)
Definition builtin (l : list (string * string)) : gmap string TemplateObj :=
  list_to_map ((λ e, (e.1, tobj e.2 "default")) <$> l).

Definition shaders : gmap string TemplateObj :=
  builtin
    [ ("1", "Depth.frag"); ("3", "DistanceFieldVector.frag");
      ("5", "Dynamic.vert"); ("6", "Flat.frag");
      ("9", "MeshVisualizer.frag"); ("11", "Phong.frag");
      ("14", "Physical.frag"); ("17", "Skinning.vert"); ("18", "Sky.frag");
      ("19", "Sky.vert"); ("20", "Text.frag"); ("22", "Text.vert");
      ("23", "TileFeedback.frag"); ("24", "Particle.frag") ].

Definition pipelines : gmap string TemplateObj :=
  builtin
    [ ("2", "Depth"); ("4", "DistanceFieldVector"); ("7", "Flat Opaque");
      ("8", "Flat Opaque Textured"); ("10", "MeshVisualizer");
      ("12", "Phong Opaque"); ("13", "Phong Opaque Textured");
      ("15", "Physical Opaque"); ("16", "Physical Opaque Textured");
      ("21", "Text"); ("25", "Foliage"); ("26", "Particle"); ("27", "Sky") ].

Record TreeState := {
  g_store : Node.store;
  g_project : Project;
  g_id : nat
}.

Section generate.
Variable origFilePath : string.
Variable ratio : Qc.

Definition namedLink (name : option string) : NamedLink :=
  {| nl_name := name; nl_file := origFilePath |}.

(** The entry of a skin, with its [jointsArray] still empty. *)
Definition skinObj (skin : SkinIn) : SkinEntry :=
  {| se_link := namedLink (sk_name skin); se_joints := [] |}.

(** // generate skins *)
Definition skinsBody (st : Project * nat * SkinMaps * nat) (skin : SkinIn)
    : Project * nat * SkinMaps * nat :=
  let '(project, id, maps, skinID) := st in
  let project := set_skins <[Js.toString id := skinObj skin]> project in
  let jointIdxs :=
    foldl (λ m jointIdx, <[jointIdx := id]> m) (jointIdxs maps)
          (sk_joints skin) in
  (project, S id,
   {| skinsMap := <[skinID := id]> (skinsMap maps);
      skinsJoints := <[id := Js.toString id]> (skinsJoints maps);
      jointIdxs := jointIdxs |},
   S skinID).

Definition genSkins (json : Gltf) (st : Project * nat)
    : Project * nat * SkinMaps :=
  match skins json with
  | None => (st, noSkinMaps)
  | Some l =>
    let r := foldl skinsBody (st, noSkinMaps, 0) l in
    (r.1.1, r.1.2)
  end.

Definition pushJoint (id : nat) (e : SkinEntry) : SkinEntry :=
  {| se_link := se_link e; se_joints := se_joints e ++ [id] |}.

(** The callback passed to [tree.dfs]. *)
Definition visit (maps : SkinMaps) (fuel : nat) (node : nat) (g : TreeState)
    : result TreeState :=
  let id := g_id g in
  let s := Node.upd (Node.Idx node) (Node.set_id (Some id)) (g_store g) in
  match Node.get s (Node.Idx node) with
  | None => Throw TypeError
  | Some this =>
    project ← match Node.skin this with
              | None => Ok (g_project g)
              | Some sk =>
                match skinsJoints maps !! sk with
                | None => Throw TypeError
                | Some key =>
                  Ok (set_skins (alter (pushJoint id) key) (g_project g))
                end
              end;
    '(obj, s) ← toJson fuel node origFilePath s;
    Ok {| g_store := s;
          g_project := set_objects <[Js.toString id := obj]> project;
          g_id := S id |}
  end.

(** // generate scene objects tree *)
Definition genTree (fuel : nat) (maps : SkinMaps) (json : Gltf)
    (st : Project * nat) : result TreeState :=
  let s0 := {| Node.tree := Node.new true; Node.nodesFlat := [] |} in
  match nodes json with
  | None => Ok {| g_store := s0; g_project := st.1; g_id := st.2 |}
  | Some ns =>
    s ← buildTree maps ns;
    let s := Node.reverse Node.Root s in
    Node.dfs (λ g, Node.children_of (g_store g)) (visit maps fuel) fuel
             Node.Root {| g_store := s; g_project := st.1; g_id := st.2 |}
  end.

(** [meshObj], with [simplifyTarget] set when [ratio !== 1]. *)
Definition meshObj (mesh : Named) : MeshEntry :=
  {| me_link := namedLink (nm_name mesh);
     me_simplifyTarget := if decide (ratio = 1%Qc) then None else Some ratio |}.

(** // generate meshes list *)
Definition meshesBody (st : Project * nat) (mesh : Named) : Project * nat :=
  let '(project, id) := st in
  (set_meshes <[Js.toString id := meshObj mesh]> project, S id).

(** // generate materials list *)
Definition materialsBody (st : Project * nat) (material : Named)
    : Project * nat :=
  let '(project, id) := st in
  (set_materials <[Js.toString id := namedLink (nm_name material)]> project,
   S id).

(** // generate animations list *)
Definition animationsBody (st : Project * nat) (animation : Named)
    : Project * nat :=
  let '(project, id) := st in
  (set_animations <[Js.toString id := namedLink (nm_name animation)]> project,
   S id).

(** // generate images list *)
Definition imagesBody (st : Project * nat) (image : Named) : Project * nat :=
  let '(project, id) := st in
  (set_images <[Js.toString id := namedLink (nm_name image)]> project, S id).

(** The template literal [`texture_${texture.source}`]. *)
Definition textureName (texture : TextureIn) : string :=
  "texture_" +:+ match tex_source texture with
                 | Some n => Js.toString n
                 | None => "undefined"
                 end.

Definition textureLink (texture : TextureIn) : Link :=
  mkLink (textureName texture) origFilePath.

(** // generate textures list *)
Definition texturesBody (st : Project * nat) (texture : TextureIn)
    : Project * nat :=
  let '(project, id) := st in
  (set_textures <[Js.toString id := textureLink texture]> project, S id).

(** [if ('cat' in json) for (const x of json.cat) ...] *)
Definition loop {X : Type} (body : Project * nat → X → Project * nat)
    (cat : option (list X)) (st : Project * nat) : Project * nat :=
  match cat with
  | None => st
  | Some l => foldl body st l
  end.

(** [generateProject(origFilePath, ratio, json)]: the project that is
    written to disk.  [fuel] is the call depth available to [dfs] and
    [path]. *)
Definition generateProject (fuel : nat) (json : Gltf) : result Project :=
  let id := 28 in
  let project :=
    {| op_objects := ∅; op_meshes := ∅; op_textures := ∅; op_images := ∅;
       op_materials := ∅; op_shaders := shaders; op_animations := ∅;
       op_skins := ∅; op_pipelines := pipelines; op_version := [0; 8; 10];
       op_files := [origFilePath] |} in
  let '(st, maps) := genSkins json (project, id) in
  g ← genTree fuel maps json st;
  let st := (g_project g, g_id g) in
  let st := loop meshesBody (meshes json) st in
  let st := loop materialsBody (materials json) st in
  let st := loop animationsBody (animations json) st in
  let st := loop imagesBody (images json) st in
  let st := loop texturesBody (textures json) st in
  Ok st.1.
End generate.

(** Every id in a joints array is smaller than [id] and is the id of an
    object whose [skin] is the skin that holds the array. *)
Definition jointsOk (p : Project) (id : nat) : Prop :=
  ∀ key e j, op_skins p !! key = Some e → j ∈ se_joints e →
    j < id
    ∧ ∃ obj, op_objects p !! Js.toString j = Some obj ∧ o_skin obj = Some key.

(** Every key of the project, category after category. *)
Definition keys {V} (m : gmap string V) : list string := (map_to_list m).*1.

Definition allKeys (p : Project) : list string :=
  keys (op_objects p) ++ keys (op_meshes p) ++ keys (op_textures p)
  ++ keys (op_images p) ++ keys (op_materials p) ++ keys (op_shaders p)
  ++ keys (op_animations p) ++ keys (op_skins p)
  ++ keys (op_pipelines p).

End Old.

(** ** Paths, ancestors and plain keys *)

(** The [n+1]-th ancestor of the node [x], for the parent pointers [P]:
    [ancestor P 0 x] is the parent of [x]. *)
Fixpoint ancestor (P : nat → option Node.ref) (n : nat) (x : nat)
    : option Node.ref :=
  match n with
  | 0 => P x
  | S n => match P x with
           | Some (Node.Idx p) => ancestor P n p
           | _ => None
           end
  end.

(** [r] is the root ([e = 0]) or a node that hangs [e] levels below
    it. *)
Definition rooted (P : nat → option Node.ref) (r : Node.ref) (e : nat)
    : Prop :=
  match r with
  | Node.Root => e = 0
  | Node.Idx c => ∃ d, e = S d ∧ ancestor P d c = Some Node.Root
  end.

(** The equation of the path of node [x], on the state [g] after the
    traversal: the node has a parent, a local name and a memoized path;
    the path is the local name when the parent is the root, and the local
    name, ["<"] and the path of the parent otherwise; the object emitted
    under the id of the node carries the path as the name of its link. *)
Definition pathEquation (file : string) (g : TreeState) (x : nat) : Prop :=
  ∃ node r lname pth k,
    Node.get (g_store g) (Node.Idx x) = Some node
    ∧ Node.parent node = Some r
    ∧ localName (g_store g) x = Some lname
    ∧ Node._path node = Some pth
    ∧ match r with
      | Node.Root => pth = lname
      | Node.Idx p =>
        ∃ pp, pathOf (g_store g) (Node.Idx p) = Some pp
              ∧ pth = lname +:+ "<" +:+ pp
      end
    ∧ Node.id node = Some k
    ∧ o_link <$> p_objects (g_project g) !! Js.toString k
      = Some (mkLink pth file).

(** Node [3] is listed as a child by node [0] and by node [1]. *)
Definition nodesSharedChild : list NodeIn :=
  [ {| nd_name := None; nd_children := Some [3]; nd_skin := None |};
    {| nd_name := None; nd_children := Some [3]; nd_skin := None |};
    bareNode; bareNode ].

(** *** Keys on which [Js.Number] is exact *)

Definition isLetter (c : Ascii.ascii) : bool :=
  let n := Ascii.nat_of_ascii c in
  bool_decide (65 ≤ n ≤ 90) || bool_decide (97 ≤ n ≤ 122).

(** The keys on which [Js.Number] is the [Number] of JavaScript: a run
    of at most 15 decimal digits, which is read as its value (the empty
    string as [0]), and a string that begins with a letter other than
    [I], which is no numeric literal and is read as [NaN].  A key with a
    sign, a fraction, an exponent, a radix prefix or surrounding blanks,
    and the key [Infinity], are not among them. *)
Definition plainKey (key : string) : Prop :=
  (is_Some (Js.Number key) ∧ String.length key ≤ 15)
  ∨ match key with
    | String c _ => isLetter c = true ∧ Ascii.nat_of_ascii c ≠ 73
    | EmptyString => False
    end.

#[global] Instance plainKey_dec key : Decision (plainKey key).
Proof. unfold plainKey. destruct key; apply _. Defined.

(** * Properties *)

(** ** Template max-id *)

Section template_max.

Lemma getMaxId_numeric key m k :
  Js.Number key = Some k → getMaxId key (Js.Num m) = Js.Num (m `max` k).
Proof.
  intros Hk. unfold getMaxId, Js.le. rewrite Hk. simpl.
  case_bool_decide; f_equal; lia.
Qed.

Lemma getMaxId_symbolic key v : Js.Number key = None → getMaxId key v = v.
Proof. intros Hk. unfold getMaxId. by rewrite Hk. Qed.

Lemma scanMax_entries (entries : Entries) m :
  foldl (λ v e, getMaxId e.1 v) (Js.Num m) entries
  = Js.Num (m `max` maxNumericKey entries.*1).
Proof.
  revert m. induction entries as [|[key o] entries IH]; intros m; simpl.
  - f_equal. unfold maxNumericKey. simpl. lia.
  - unfold maxNumericKey. simpl. destruct (Js.Number key) as [k|] eqn:Hk.
    + rewrite (getMaxId_numeric _ _ k) by done. rewrite IH. simpl.
      f_equal. rewrite <- Nat.max_assoc. reflexivity.
    + rewrite getMaxId_symbolic by done. apply IH.
Qed.

(** On a category scanned with [getMaxId(id, maxID)], the running
    maximum becomes the larger of itself and the category's largest
    numeric key. *)
Lemma scanMax_max cat m :
  scanMax cat (Js.Num m) = Js.Num (m `max` maxNumericKey (keysOf cat)).
Proof.
  destruct cat as [entries|]; simpl.
  - apply scanMax_entries.
  - f_equal. unfold maxNumericKey. simpl. lia.
Qed.

(** Without animations and skins, [parseTemplateProject] computes the
    maximum numeric key over the remaining categories. *)
Lemma parseTemplateProject_max_other_categories json :
  tj_animations json = None → tj_skins json = None →
  (parseTemplateProject json).2
  = Js.Num (maxNumericKey
              (keysOf (tj_objects json) ++ keysOf (tj_meshes json)
               ++ keysOf (tj_textures json) ++ keysOf (tj_images json)
               ++ keysOf (tj_materials json) ++ keysOf (tj_shaders json)
               ++ keysOf (tj_pipelines json))).
Proof.
  intros Ha Hs. unfold parseTemplateProject. simpl. rewrite Ha, Hs. simpl.
  rewrite !scanMax_max. f_equal.
  unfold maxNumericKey. rewrite !omap_app, !foldr_app.
  assert (Hf : ∀ (l : list nat) a, foldr max a l = a `max` foldr max 0 l).
  { induction l as [|x l IH]; intros a; simpl; [lia|]. rewrite (IH a). lia. }
  repeat (rewrite (Hf _ (foldr _ _ _))). lia.
Qed.

End template_max.

(** C3 (the code departs from the claim).  The claim asks for the maximum
    numeric key over all id-keyed categories, also when the animations or
    the skins hold it.  With the keys ["5"], ["12"], ["foo"] under
    [objects] the result is the number [12]; with the same keys under
    [animations] or under [skins] the call [getMaxId(id, id, maxID)]
    returns the key itself, and the result is the string ["foo"]; with
    objects up to ["50"] and an animation ["3"] the result is the string
    ["3"]. *)
Theorem parseTemplateProject_animations_skins_keys :
  maxNumericKey keys512foo.*1 = 12
  ∧ (parseTemplateProject templateObjects512).2 = Js.Num 12
  ∧ (parseTemplateProject templateAnimations512).2 = Js.Str "foo"
  ∧ (parseTemplateProject templateSkins512).2 = Js.Str "foo"
  ∧ (parseTemplateProject templateObjects50Animation3).2 = Js.Str "3".
Proof. repeat split; vm_compute; reflexivity. Qed.

(** ** Starting id *)

(** C4, as stated, fails: with [--reserve-ids 5] and a template whose
    maximum id is [28], the first id is [34], not [max 5 28 + 1 = 29]. *)
Lemma curID_is_not_max :
  ¬ (∀ (reservedIds : nat) (template : TemplateJson) (maxId : nat),
       (parseTemplateProject template).2 = Js.Num maxId →
       curID (Some reservedIds) (Some template)
       = Js.Num (reservedIds `max` maxId + 1)).
Proof.
  intros H. specialize (H 5 templateShader28 28 eq_refl).
  vm_compute in H. discriminate H.
Qed.

(** C4 (amended).  For a build seeded by a template whose computed maximum
    id is the number [maxId], the starting id is
    [reservedIds + maxId + 1], where [reservedIds] is [0] when
    [--reserve-ids] is not given: the reserved count is added to the
    template's maximum, as the help text of [--reserve-ids] says. *)
Theorem curID_is_sum (reserveIds : option nat) (template : TemplateJson)
    (maxId : nat) :
  (parseTemplateProject template).2 = Js.Num maxId →
  curID reserveIds (Some template)
  = Js.Num (default 0 reserveIds + maxId + 1).
Proof.
  intros Hmax. unfold curID, templateMinID. rewrite Hmax. reflexivity.
Qed.

Lemma curID_is_sum_witness :
  (parseTemplateProject templateShader28).2 = Js.Num 28
  ∧ curID (Some 5) (Some templateShader28) = Js.Num (5 + 28 + 1).
Proof.
  split; [reflexivity|].
  apply (curID_is_sum (Some 5) templateShader28 28). reflexivity.
Defined.

(** ** Texture deduplication *)

Section textures.
Variable file : string.

Lemma distinctSources_snoc l t :
  distinctSources (l ++ [t])
  = if decide (tex_source t ∈ tex_source <$> l)
    then distinctSources l else S (distinctSources l).
Proof.
  unfold distinctSources. rewrite fmap_app, list_to_set_app_L. simpl.
  case_decide as Hin.
  - f_equal. set_solver.
  - rewrite size_union by set_solver.
    rewrite size_union, size_singleton, size_empty by set_solver. lia.
Qed.

Lemma distinctSources_take_le l i : distinctSources (take i l) ≤ distinctSources l.
Proof.
  unfold distinctSources. apply subseteq_size.
  intros x. rewrite !elem_of_list_to_set, !list_elem_of_fmap.
  intros (t & -> & Ht). exists t. split; [done|].
  by eapply subseteq_take.
Qed.

(** A first occurrence at position [i] adds a source that the entries
    before it do not have. *)
Lemma distinctSources_first_lt l i t :
  l !! i = Some t → tex_source t ∉ tex_source <$> take i l →
  distinctSources (take i l) < distinctSources l.
Proof.
  intros Hi Hnew.
  assert (Hle := distinctSources_take_le l (S i)).
  rewrite (take_S_r _ _ _ Hi), distinctSources_snoc in Hle.
  rewrite decide_False in Hle by done. lia.
Qed.

(** The state of the textures loop after the entries [l]. *)
Lemma texturesBody_loop project id l :
  ∃ project',
    foldl (texturesBody file) (project, id, ∅, 0) l
    = (project', id + distinctSources l, list_to_set (tex_source <$> l),
       length l)
    ∧ project' = set_textures (λ _, p_textures project') project
    ∧ (∀ i t, l !! i = Some t → tex_source t ∉ tex_source <$> take i l →
         p_textures project' !! Js.toString (id + distinctSources (take i l))
         = Some (Gen (mkLink ("texture_" +:+ Js.toString i) file)))
    ∧ (∀ key, (∀ k, id ≤ k < id + distinctSources l → key ≠ Js.toString k) →
         p_textures project' !! key = p_textures project !! key).
Proof.
  induction l as [|t l IH] using rev_ind.
  - exists project. simpl. split_and!.
    + assert (distinctSources [] = 0) as ->
        by reflexivity.
      by rewrite Nat.add_0_r.
    + by destruct project.
    + intros i t Hi. by rewrite lookup_nil in Hi.
    + done.
  - destruct IH as (p1 & Hfold & Hframe & Hfirst & Hother).
    rewrite foldl_app, Hfold. simpl. rewrite distinctSources_snoc.
    rewrite fmap_app, list_to_set_app_L, length_app. simpl.
    destruct (decide (tex_source t ∈
                (list_to_set (tex_source <$> l) : gset (option nat))))
      as [Hin|Hin].
    + rewrite decide_True by set_solver.
      exists p1. split_and!.
      * replace (length l + 1) with (S (length l)) by lia.
        do 2 f_equal. set_solver.
      * done.
      * intros i t' Hi Hnew.
        destruct (decide (i = length l)) as [->|Hne].
        { rewrite list_lookup_middle in Hi by done. simplify_eq.
          rewrite take_app_length in Hnew. set_solver. }
        assert (i < length l).
        { apply lookup_lt_Some in Hi. rewrite length_app in Hi. simpl in Hi. lia. }
        rewrite lookup_app_l in Hi by done.
        rewrite take_app_le in Hnew |- * by lia. by apply (Hfirst _ t').
      * done.
    + rewrite decide_False by set_solver.
      exists (set_textures
                <[Js.toString (id + distinctSources l) :=
                    Gen (mkLink ("texture_" +:+ Js.toString (length l)) file)]>
                p1).
      split_and!.
      * replace (length l + 1) with (S (length l)) by lia.
        replace (id + S (distinctSources l))
          with (S (id + distinctSources l)) by lia.
        do 2 f_equal. set_solver.
      * rewrite Hframe at 1. reflexivity.
      * intros i t' Hi Hnew. simpl.
        destruct (decide (i = length l)) as [->|Hne].
        { rewrite list_lookup_middle in Hi by done. simplify_eq.
          rewrite take_app_length. apply lookup_insert_eq. }
        assert (i < length l).
        { apply lookup_lt_Some in Hi. rewrite length_app in Hi. simpl in Hi. lia. }
        rewrite lookup_app_l in Hi by done.
        rewrite take_app_le in Hnew |- * by lia.
        rewrite lookup_insert_ne; [by apply (Hfirst _ t')|].
        intros Heq. apply (inj Js.toString) in Heq.
        pose proof (distinctSources_first_lt l i t' Hi Hnew). lia.
      * intros key Hkey. simpl. rewrite lookup_insert_ne.
        { apply Hother. intros k Hk. apply Hkey. lia. }
        intros <-. eapply Hkey; [|done]. lia.
Qed.
End textures.

(** C5.  Textures are deduplicated by source image while the name counter
    counts every entry: the loop hands out one id per distinct source,
    and the entry emitted for the source of the [i]-th texture is the one
    of the first texture [f ≤ i] with that source, keyed by the id that
    follows those of the distinct sources before [f] and named
    [texture_f].  No other key of the textures mapping changes. *)
Theorem genTextures_dedup (file : string) (json : Gltf) (l : list TextureIn)
    (project : Project) (id : nat) :
  textures json = Some l →
  ∃ project',
    genTextures file json (project, id) = (project', id + distinctSources l)
    ∧ (∀ i t, l !! i = Some t →
         ∃ f, firstWithSource l (tex_source t) = Some f ∧ f ≤ i
              ∧ p_textures project'
                  !! Js.toString (id + distinctSources (take f l))
                = Some (Gen (mkLink ("texture_" +:+ Js.toString f) file)))
    ∧ (∀ key, (∀ k, id ≤ k < id + distinctSources l → key ≠ Js.toString k) →
         p_textures project' !! key = p_textures project !! key).
Proof.
  intros Hl. unfold genTextures. rewrite Hl.
  destruct (texturesBody_loop file project id l)
    as (project' & Hfold & _ & Hfirst & Hother).
  exists project'. rewrite Hfold. split_and!; [done| |done].
  intros i t Hi.
  destruct (list_find (λ t', tex_source t' = tex_source t) l)
    as [[f y]|] eqn:Hfind.
  - apply list_find_Some in Hfind as (Hf & Hy & Hmin).
    exists f. split_and!.
    + unfold firstWithSource.
      assert (list_find (λ t', tex_source t' = tex_source t) l = Some (f, y))
        as -> by (apply list_find_Some; eauto).
      done.
    + destruct (decide (f ≤ i)) as [|Hlt]; [done|].
      exfalso. apply (Hmin i t); [done|lia|done].
    + apply (Hfirst f y Hf). rewrite Hy.
      intros (t' & Heq & Hin)%list_elem_of_fmap.
      apply elem_of_take in Hin as (j & Hj & Hlt).
      by apply (Hmin j t').
  - apply list_find_None in Hfind.
    rewrite Forall_forall in Hfind. exfalso.
    apply (Hfind t); [|done]. by eapply list_elem_of_lookup_2.
Qed.

Lemma genTextures_dedup_witness :
  textures gltfTextures001 = Some textures001
  ∧ ∃ project',
      genTextures "m.glb" gltfTextures001
        (generateBaseProject noTemplate [1; 0; 0] false, 29)
      = (project', 29 + distinctSources textures001)
      ∧ (∀ i t, textures001 !! i = Some t →
           ∃ f, firstWithSource textures001 (tex_source t) = Some f ∧ f ≤ i
                ∧ p_textures project'
                    !! Js.toString (29 + distinctSources (take f textures001))
                  = Some (Gen (mkLink ("texture_" +:+ Js.toString f) "m.glb")))
      ∧ (∀ key,
           (∀ k, 29 ≤ k < 29 + distinctSources textures001 →
                 key ≠ Js.toString k) →
           p_textures project' !! key
           = p_textures (generateBaseProject noTemplate [1; 0; 0] false) !! key).
Proof.
  split; [reflexivity|].
  apply (genTextures_dedup "m.glb" gltfTextures001 textures001). reflexivity.
Defined.

(** The example of the specification: [{source:0},{source:0},{source:1}]
    takes exactly two ids; the shared entry is [texture_0] and the entry of
    the third texture is [texture_2]. *)
Example genTextures_001 :
  let r := genTextures "m.glb" gltfTextures001
             (generateBaseProject noTemplate [1; 0; 0] false, 29) in
  r.2 = 31
  ∧ p_textures r.1
    = {[ "29" := Gen (mkLink "texture_0" "m.glb");
         "30" := Gen (mkLink "texture_2" "m.glb") ]}
  ∧ firstWithSource textures001 (Some 0) = Some 0
  ∧ firstWithSource textures001 (Some 1) = Some 2.
Proof.
  split_and!; vm_compute; reflexivity.
Qed.

(** ** The resource loops *)

Lemma added_zero {V} (P : V → Prop) lo (m : gmap string V) : added P lo 0 m m.
Proof. split; [intros k ?; lia | done]. Qed.

Lemma added_insert {V} (P : V → Prop) lo n (m m' : gmap string V) v :
  P v → added P lo n m m' →
  added P lo (n + 1) m (<[Js.toString (lo + n) := v]> m').
Proof.
  intros Hv [Hnew Hold]. split.
  - intros k Hk. destruct (decide (k = lo + n)) as [->|Hne].
    + rewrite lookup_insert_eq. eauto.
    + rewrite lookup_insert_ne by (intros ?%(inj Js.toString); lia).
      apply Hnew. lia.
  - intros key Hkey. rewrite lookup_insert_ne.
    + apply Hold. intros k Hk. apply Hkey. lia.
    + intros <-. eapply Hkey; [|done]. lia.
Qed.

Section loops.
Variable file : string.
Variable ratio : Qc.

Lemma imagesBody_loop project id num l :
  ∃ project' num',
    foldl (imagesBody file) (project, id, num) l
    = (project', id + length l, num')
    ∧ project' = set_images (λ _, p_images project') project
    ∧ added isGen id (length l) (p_images project) (p_images project').
Proof.
  induction l as [|x l IH] using rev_ind.
  - exists project, num. simpl. rewrite Nat.add_0_r.
    split_and!; [done|by destruct project|apply added_zero].
  - destruct IH as (p1 & n1 & Hfold & Hframe & Hfresh).
    rewrite foldl_app, Hfold, length_app. simpl.
    destruct (defaultName "image" (nm_name x) n1) as [name n2].
    eexists _, n2. split_and!.
    + rewrite Nat.add_assoc, Nat.add_1_r. reflexivity.
    + rewrite Hframe at 1. reflexivity.
    + simpl. apply added_insert; [by eexists|done].
Qed.

Lemma materialsBody_loop project id num l :
  ∃ project' num',
    foldl (materialsBody file) (project, id, num) l
    = (project', id + length l, num')
    ∧ project' = set_materials (λ _, p_materials project') project
    ∧ added isGen id (length l) (p_materials project) (p_materials project').
Proof.
  induction l as [|x l IH] using rev_ind.
  - exists project, num. simpl. rewrite Nat.add_0_r.
    split_and!; [done|by destruct project|apply added_zero].
  - destruct IH as (p1 & n1 & Hfold & Hframe & Hfresh).
    rewrite foldl_app, Hfold, length_app. simpl.
    destruct (defaultName "material" (nm_name x) n1) as [name n2].
    eexists _, n2. split_and!.
    + rewrite Nat.add_assoc, Nat.add_1_r. reflexivity.
    + rewrite Hframe at 1. reflexivity.
    + simpl. apply added_insert; [by eexists|done].
Qed.

Lemma meshesBody_loop project id num l :
  ∃ project' num',
    foldl (meshesBody file ratio) (project, id, num) l
    = (project', id + length l, num')
    ∧ project' = set_meshes (λ _, p_meshes project') project
    ∧ added isGen id (length l) (p_meshes project) (p_meshes project').
Proof.
  induction l as [|x l IH] using rev_ind.
  - exists project, num. simpl. rewrite Nat.add_0_r.
    split_and!; [done|by destruct project|apply added_zero].
  - destruct IH as (p1 & n1 & Hfold & Hframe & Hfresh).
    rewrite foldl_app, Hfold, length_app. simpl.
    destruct (defaultName "mesh" (nm_name x) n1) as [name n2].
    eexists _, n2. split_and!.
    + rewrite Nat.add_assoc, Nat.add_1_r. reflexivity.
    + rewrite Hframe at 1. reflexivity.
    + simpl. apply added_insert; [by eexists|done].
Qed.

Lemma animationsBody_loop project id num l :
  ∃ project' num',
    foldl (animationsBody file) (project, id, num) l
    = (project', id + length l, num')
    ∧ project' = set_animations (λ _, p_animations project') project
    ∧ added (λ _, True) id (length l)
            (p_animations project) (p_animations project').
Proof.
  induction l as [|x l IH] using rev_ind.
  - exists project, num. simpl. rewrite Nat.add_0_r.
    split_and!; [done|by destruct project|apply added_zero].
  - destruct IH as (p1 & n1 & Hfold & Hframe & Hfresh).
    rewrite foldl_app, Hfold, length_app. simpl.
    destruct (defaultName "animation" (nm_name x) n1) as [name n2].
    eexists _, n2. split_and!.
    + rewrite Nat.add_assoc, Nat.add_1_r. reflexivity.
    + rewrite Hframe at 1. reflexivity.
    + simpl. by apply added_insert.
Qed.

Lemma jointIdxs_fold (m : gmap nat nat) (joints : list nat) id j :
  foldl (λ m jointIdx, <[jointIdx := id]> m) m joints !! j
  = if decide (j ∈ joints) then Some id else m !! j.
Proof.
  revert m. induction joints as [|x joints IH]; intros m; cbn [foldl].
  - rewrite decide_False; [done|]. apply not_elem_of_nil.
  - rewrite IH. destruct (decide (j ∈ joints)) as [Hin|Hin].
    + rewrite decide_True; [done|]. by right.
    + destruct (decide (j = x)) as [->|Hne].
      * rewrite lookup_insert_eq, decide_True; [done|]. by left.
      * rewrite lookup_insert_ne by done.
        rewrite decide_False; [done|]. by intros [?|?]%elem_of_cons.
Qed.

(** The skins loop: one entry with an empty joints array per skin, the
    skin with index [k] under the id [id + k]; [skinsJoints] knows the
    array of each of these ids, and [jointIdxs] only holds these ids. *)
Lemma skinsBody_loop project id l :
  ∃ project' num' maps,
    foldl (skinsBody file) (project, id, 0, noSkinMaps, 0) l
    = (project', id + length l, num', maps, length l)
    ∧ project' = set_skins (λ _, p_skins project') project
    ∧ added (λ e, s_joints e = []) id (length l)
            (p_skins project) (p_skins project')
    ∧ (∀ k, skinsMap maps !! k
            = if decide (k < length l) then Some (id + k) else None)
    ∧ (∀ sid, skinsJoints maps !! sid
              = if decide (id ≤ sid < id + length l)
                then Some (Js.toString sid) else None)
    ∧ (∀ j sid, jointIdxs maps !! j = Some sid → id ≤ sid < id + length l).
Proof.
  induction l as [|x l IH] using rev_ind.
  - exists project, 0, noSkinMaps. cbn [foldl length]. rewrite Nat.add_0_r.
    split_and!; [done|by destruct project|apply added_zero|..].
    + intros k. rewrite decide_False by lia. apply lookup_empty.
    + intros sid. rewrite decide_False by lia. apply lookup_empty.
    + intros j sid. cbn [jointIdxs noSkinMaps]. by rewrite lookup_empty.
  - destruct IH as (p1 & n1 & maps & Hfold & Hframe & Hadd & Hmap & Hjoints & Hidx).
    rewrite foldl_app, Hfold, length_app. simpl.
    destruct (defaultName "skin" (sk_name x) n1) as [name n2].
    eexists _, n2, _. split_and!.
    + rewrite Nat.add_assoc, !Nat.add_1_r. reflexivity.
    + rewrite Hframe at 1. reflexivity.
    + simpl. by apply added_insert.
    + intros k. simpl. destruct (decide (k = length l)) as [->|Hne].
      * rewrite lookup_insert_eq, decide_True by lia. done.
      * rewrite lookup_insert_ne, Hmap by done.
        repeat case_decide; done || lia.
    + intros sid. simpl. destruct (decide (sid = id + length l)) as [->|Hne].
      * rewrite lookup_insert_eq, decide_True by lia. done.
      * rewrite lookup_insert_ne, Hjoints by done.
        repeat case_decide; done || lia.
    + intros j sid. simpl. rewrite jointIdxs_fold.
      case_decide; [intros [= <-]; lia|].
      intros ?%Hidx. lia.
Qed.
End loops.

(** ** The node store *)

Section store.
Implicit Types (s : Node.store) (r : Node.ref) (f : Node.t → Node.t).

Lemma get_upd s r r' f :
  Node.get (Node.upd r f s) r'
  = if decide (r = r') then f <$> Node.get s r' else Node.get s r'.
Proof.
  destruct r as [|i], r' as [|j]; simpl; try done.
  rewrite list_lookup_alter.
  repeat case_decide; simplify_eq; done.
Qed.

Lemma length_upd s r f :
  length (Node.nodesFlat (Node.upd r f s)) = length (Node.nodesFlat s).
Proof. destruct r; simpl; [done|apply length_alter]. Qed.

Lemma get_Idx_is_Some s i :
  is_Some (Node.get s (Node.Idx i)) ↔ i < length (Node.nodesFlat s).
Proof. apply lookup_lt_is_Some. Qed.

Lemma sameSkeleton_refl s : sameSkeleton s s.
Proof. done. Qed.

Lemma sameSkeleton_trans s1 s2 s3 :
  sameSkeleton s1 s2 → sameSkeleton s2 s3 → sameSkeleton s1 s3.
Proof. intros H1 H2 r. by rewrite H1. Qed.

Lemma sameSkeleton_upd s r f :
  (∀ n, skeleton (f n) = skeleton n) → sameSkeleton s (Node.upd r f s).
Proof.
  intros Hf r'. rewrite get_upd. case_decide; [|done].
  destruct (Node.get s r'); simpl; [|done]. by rewrite Hf.
Qed.

Lemma sameSkeleton_children s s' r :
  sameSkeleton s s' → Node.children_of s' r = Node.children_of s r.
Proof.
  intros H. specialize (H r). unfold Node.children_of.
  destruct (Node.get s r) as [[]|], (Node.get s' r) as [[]|];
    cbv in H; simpl; congruence.
Qed.

Lemma sameSkeleton_get s s' r n :
  sameSkeleton s s' → Node.get s r = Some n →
  ∃ n', Node.get s' r = Some n' ∧ skeleton n' = skeleton n.
Proof.
  intros H Hn. specialize (H r). rewrite Hn in H.
  destruct (Node.get s' r) as [n'|]; simpl in H; [|done].
  exists n'. split; [done|]. congruence.
Qed.

Lemma sameSkeleton_length s s' :
  sameSkeleton s s' →
  length (Node.nodesFlat s') = length (Node.nodesFlat s).
Proof.
  intros H. apply Nat.le_antisymm; apply Nat.nlt_ge; intros Hlt.
  - apply get_Idx_is_Some in Hlt as [n Hn].
    specialize (H (Node.Idx (length (Node.nodesFlat s)))).
    rewrite Hn in H. simpl in H.
    rewrite (lookup_ge_None_2 (Node.nodesFlat s)) in H by done. done.
  - apply get_Idx_is_Some in Hlt as [n Hn].
    specialize (H (Node.Idx (length (Node.nodesFlat s')))).
    rewrite Hn in H. simpl in H.
    rewrite (lookup_ge_None_2 (Node.nodesFlat s')) in H by done. done.
Qed.

Lemma skeleton_set_path p n : skeleton (Node.set_path p n) = skeleton n.
Proof. by destruct n. Qed.

Lemma skeleton_set_id k n : skeleton (Node.set_id k n) = skeleton n.
Proof. by destruct n. Qed.

Lemma path_unfold fuel this s :
  Node.path fuel this s
  = match Node.get s this with
    | None => Throw TypeError
    | Some node =>
      match Node._path node with
      | Some p => Ok (p, s)
      | None =>
        match Node.parent node with
        | None => Throw TypeError
        | Some par =>
          match Node.get s par with
          | None => Throw TypeError
          | Some parentNode =>
            nm ← Node.nameOf node parentNode this;
            '(suffix, s) ← match Node.id parentNode with
                           | None => Ok ("", s)
                           | Some _ =>
                             match fuel with
                             | 0 => Throw StackOverflow
                             | S fuel =>
                               '(pp, s) ← Node.path fuel par s;
                               Ok ("<" +:+ pp, s)
                             end
                           end;
            Ok (nm +:+ suffix,
                Node.upd this (Node.set_path (Some (nm +:+ suffix))) s)
          end
        end
      end
    end.
Proof. destruct fuel; reflexivity. Qed.

(** The getter only writes memo fields. *)
Lemma path_sameSkeleton fuel r s p s' :
  Node.path fuel r s = Ok (p, s') → sameSkeleton s s'.
Proof.
  revert r s p s'. induction fuel as [|fuel IH]; intros r s p s' H;
    rewrite path_unfold in H;
    destruct (Node.get s r) as [node|]; try done;
    destruct (Node._path node); simplify_eq; try done;
    destruct (Node.parent node) as [par|]; try done;
    destruct (Node.get s par) as [parentNode|]; try done;
    destruct (Node.nameOf node parentNode r) as [nm|]; try done; simpl in H;
    destruct (Node.id parentNode); simpl in H; simplify_eq;
    try (by apply sameSkeleton_upd, skeleton_set_path).
  destruct (Node.path fuel par s) as [[pp s1]|] eqn:Hrec; simpl in H; [|done].
  simplify_eq. eapply sameSkeleton_trans; [by eapply IH|].
  apply sameSkeleton_upd, skeleton_set_path.
Qed.
End store.

(** ** The traversal callback *)

Section visit.
Variable file : string.
Variable maps : SkinMaps.
Variable fuel : nat.

Lemma nodeSkin_sameSkeleton s s' c :
  sameSkeleton s s' → nodeSkin s' c = nodeSkin s c.
Proof.
  intros H. specialize (H (Node.Idx c)). unfold nodeSkin.
  destruct (Node.get s _) as [[]|], (Node.get s' _) as [[]|];
    cbv in H; simpl; congruence.
Qed.

Lemma sameResources_refl p : sameResources p p.
Proof. by destruct p. Qed.

Lemma sameResources_trans p1 p2 p3 :
  sameResources p1 p2 → sameResources p2 p3 → sameResources p1 p3.
Proof.
  unfold sameResources. intros H1 H2. rewrite H2 at 1. rewrite H1 at 1.
  reflexivity.
Qed.

Lemma toJson_sameSkeleton i s obj s' :
  toJson fuel i file s = Ok (obj, s') → sameSkeleton s s'.
Proof.
  unfold toJson. intros H.
  destruct (Node.path fuel (Node.Idx i) s) as [[p s1]|] eqn:Hp;
    simpl in H; [|done].
  apply path_sameSkeleton in Hp.
  repeat (case_match; simplify_eq/=; try done).
Qed.

(** What one call of the callback does, when it returns. *)
Lemma visit_inv c g g' :
  visit file maps fuel c g = Ok g' →
  g_id g' = S (g_id g)
  ∧ sameSkeleton (g_store g) (g_store g')
  ∧ sameResources (g_project g) (g_project g')
  ∧ (∃ obj, p_objects (g_project g')
            = <[Js.toString (g_id g) := obj]> (p_objects (g_project g)))
  ∧ p_skins (g_project g')
    = jointPush maps (g_store g) (p_skins (g_project g)) (c, g_id g).
Proof.
  unfold visit. intros H.
  rewrite get_upd, decide_True in H by done.
  destruct (Node.get (g_store g) (Node.Idx c)) as [this|] eqn:Hthis;
    simpl in H; [|done].
  assert (Hsk : nodeSkin (g_store g) c = Node.skin this).
  { unfold nodeSkin. by rewrite Hthis. }
  assert (Hpush :
    ∀ project : Project,
      match Node.skin (Node.set_id (Some (g_id g)) this) with
      | Some sk =>
        match skinsJoints maps !! sk with
        | Some key =>
          Ok (set_skins (alter (pushJoint (Js.toString (g_id g))) key)
                        (g_project g))
        | None => Throw TypeError
        end
      | None => Ok (g_project g)
      end = Ok project →
      sameResources (g_project g) project
      ∧ p_objects project = p_objects (g_project g)
      ∧ p_skins project
        = jointPush maps (g_store g) (p_skins (g_project g)) (c, g_id g)).
  { intros project. unfold jointPush. simpl. rewrite Hsk.
    destruct this as [? ? ? ? ? ? [sk|]]; simpl.
    - destruct (skinsJoints maps !! sk) as [key|]; [|done].
      intros [= <-]. by destruct (g_project g).
    - intros [= <-]. by destruct (g_project g). }
  match type of H with
  | mbind _ ?m = _ => destruct m as [project|] eqn:Hproject
  end; simpl in H; [|done].
  apply Hpush in Hproject as (Hres & Hobjs & Hskins).
  destruct (toJson _ _ _ _) as [[obj s1]|] eqn:Hjson; simpl in H; [|done].
  apply toJson_sameSkeleton in Hjson.
  simplify_eq. simpl. split_and!.
  - done.
  - eapply sameSkeleton_trans; [|done].
    apply (sameSkeleton_upd (g_store g) (Node.Idx c)), skeleton_set_id.
  - eapply sameResources_trans; [done|]. by destruct project.
  - exists obj. by rewrite Hobjs.
  - by rewrite <- Hskins; destruct project.
Qed.

Lemma foldl_ext {A B} (f g : A → B → A) a l :
  (∀ a b, f a b = g a b) → foldl f a l = foldl g a l.
Proof.
  intros Hfg. revert a. induction l as [|b l IH]; intros a; simpl; [done|].
  by rewrite Hfg, IH.
Qed.

Lemma forEach_app {A S} (body : A → S → result S) l1 l2 s :
  forEach body (l1 ++ l2) s = s' ← forEach body l1 s; forEach body l2 s'.
Proof.
  revert s. induction l1 as [|x l1 IH]; intros s; simpl; [done|].
  destruct (body x s); simpl; [apply IH|done].
Qed.

Lemma added_cons {V} (P : V → Prop) lo n (m m' : gmap string V) v :
  P v → added P (S lo) n (<[Js.toString lo := v]> m) m' →
  added P lo (S n) m m'.
Proof.
  intros Hv [Hnew Hold]. split.
  - intros k Hk. destruct (decide (k = lo)) as [->|Hne].
    + exists v. split; [|done]. rewrite Hold, lookup_insert_eq; [done|].
      intros k' Hk' ?%(inj Js.toString). lia.
    + apply Hnew. lia.
  - intros key Hkey. rewrite Hold, lookup_insert_ne; [done|..].
    + intros <-. eapply Hkey; [|done]. lia.
    + intros k Hk. apply Hkey. lia.
Qed.

Lemma jointPush_sameSkeleton s s' skins e :
  sameSkeleton s s' → jointPush maps s' skins e = jointPush maps s skins e.
Proof.
  intros H. unfold jointPush. by rewrite (nodeSkin_sameSkeleton s s').
Qed.

(** What the callback does over a sequence of nodes, when it returns:
    one id and one object per node, in sequence, and the joints pushed
    in that order. *)
Lemma forEach_visit_inv l g g' :
  forEach (visit file maps fuel) l g = Ok g' →
  g_id g' = g_id g + length l
  ∧ sameSkeleton (g_store g) (g_store g')
  ∧ sameResources (g_project g) (g_project g')
  ∧ added (λ _, True) (g_id g) (length l)
          (p_objects (g_project g)) (p_objects (g_project g'))
  ∧ p_skins (g_project g')
    = foldl (jointPush maps (g_store g)) (p_skins (g_project g))
            (zip l (seq (g_id g) (length l))).
Proof.
  revert g. induction l as [|c l IH]; intros g H; simpl in H.
  - simplify_eq. simpl. rewrite Nat.add_0_r.
    split_and!; [done|done|apply sameResources_refl|apply added_zero|done].
  - destruct (visit file maps fuel c g) as [g1|] eqn:Hvisit; simpl in H;
      [|done].
    apply visit_inv in Hvisit as (Hid & Hskel & Hres & [obj Hobj] & Hskins).
    apply IH in H as (Hid' & Hskel' & Hres' & Hobj' & Hskins').
    split_and!.
    + simpl. lia.
    + by eapply sameSkeleton_trans.
    + by eapply sameResources_trans.
    + simpl. apply (added_cons _ _ _ _ _ obj); [done|].
      by rewrite <- Hobj, <- Hid.
    + simpl. rewrite Hskins', Hskins, Hid.
      apply foldl_ext. intros skins e.
      by apply jointPush_sameSkeleton.
Qed.
End visit.

(** ** The traversal and its pre-order sequence *)

Section dfs_order.
Context {St : Type}.
Variable kids : St → Node.ref → list nat.
Variable callback : nat → St → result St.
Hypothesis callback_kids :
  ∀ c s s', callback c s = Ok s' → ∀ r, kids s' r = kids s r.

Lemma order_unfold K fuel this :
  order K fuel this
  = orderList (λ c, match fuel with
                    | 0 => None
                    | S fuel => order K fuel (Node.Idx c)
                    end) (K this).
Proof. by destruct fuel. Qed.

Lemma dfs_unfold fuel this s :
  Node.dfs kids callback fuel this s
  = forEach (λ child s,
               s ← callback child s;
               match fuel with
               | 0 => Throw StackOverflow
               | S fuel => Node.dfs kids callback fuel (Node.Idx child) s
               end) (kids s this) s.
Proof. by destruct fuel. Qed.

Lemma forEach_kids l s s' :
  forEach callback l s = Ok s' → ∀ r, kids s' r = kids s r.
Proof.
  revert s. induction l as [|c l IH]; intros s H r; simpl in H.
  - by simplify_eq.
  - destruct (callback c s) as [s1|] eqn:Hc; simpl in H; [|done].
    rewrite (IH _ H). by eapply callback_kids.
Qed.

Lemma orderList_cons sub c cs l :
  orderList sub (c :: cs) = Some l ↔
  ∃ l1 l2, sub c = Some l1 ∧ orderList sub cs = Some l2
           ∧ l = c :: l1 ++ l2.
Proof.
  simpl. destruct (sub c) as [l1|]; simpl.
  - destruct (orderList sub cs) as [l2|]; simpl.
    + split; [intros [= <-]; eauto|]. intros (? & ? & ? & ? & ->).
      by simplify_eq.
    + split; [done|]. by intros (? & ? & ? & ? & ->).
  - split; [done|]. by intros (? & ? & ? & ? & ->).
Qed.

Section inner.
Variable K : Node.ref → list nat.
Variable sub : nat → option (list nat).
Variable rec : nat → St → result St.
Hypothesis rec_sub :
  ∀ c l s, (∀ r, kids s r = K r) → sub c = Some l →
           rec c s = forEach callback l s.

Lemma forEach_orderList cs l s :
  (∀ r, kids s r = K r) → orderList sub cs = Some l →
  forEach (λ child s, s ← callback child s; rec child s) cs s
  = forEach callback l s.
Proof.
  revert l s. induction cs as [|c cs IH]; intros l s Hk Hl.
  - simpl in Hl. by simplify_eq.
  - apply orderList_cons in Hl as (l1 & l2 & H1 & H2 & ->).
    cbn [forEach]. destruct (callback c s) as [s1|] eqn:Hc; simpl; [|done].
    assert (Hk1 : ∀ r, kids s1 r = K r).
    { intros r. rewrite <- Hk. by eapply callback_kids. }
    rewrite (rec_sub c l1 s1 Hk1 H1), forEach_app.
    destruct (forEach callback l1 s1) as [s2|] eqn:Hs2; simpl; [|done].
    apply IH; [|done].
    intros r. rewrite <- Hk1. by eapply forEach_kids.
Qed.

Hypothesis rec_some :
  ∀ c s s', (∀ r, kids s r = K r) → rec c s = Ok s' → is_Some (sub c).

Lemma forEach_orderList_some cs s s' :
  (∀ r, kids s r = K r) →
  forEach (λ child s, s ← callback child s; rec child s) cs s = Ok s' →
  is_Some (orderList sub cs).
Proof.
  revert s. induction cs as [|c cs IH]; intros s Hk H.
  - by eexists.
  - cbn [forEach] in H.
    destruct (callback c s) as [s1|] eqn:Hc; simpl in H; [|done].
    assert (Hk1 : ∀ r, kids s1 r = K r).
    { intros r. rewrite <- Hk. by eapply callback_kids. }
    destruct (rec c s1) as [s2|] eqn:Hr; simpl in H; [|done].
    destruct (rec_some c s1 s2 Hk1 Hr) as [l1 Hl1].
    rewrite (rec_sub c l1 s1 Hk1 Hl1) in Hr.
    destruct (IH s2) as [l2 Hl2]; [|done|].
    { intros r. rewrite <- Hk1. by eapply forEach_kids. }
    exists (c :: l1 ++ l2). apply orderList_cons. eauto.
Qed.
End inner.

(** When the pre-order sequence exists within [fuel], the traversal is
    the callback run over that sequence. *)
Lemma dfs_forEach K fuel this l s :
  (∀ r, kids s r = K r) → order K fuel this = Some l →
  Node.dfs kids callback fuel this s = forEach callback l s.
Proof.
  revert this l s. induction fuel as [|fuel IH]; intros this l s Hk Hl;
    rewrite order_unfold in Hl; rewrite dfs_unfold, Hk.
  - eapply (forEach_orderList K); [|done|done]. done.
  - eapply (forEach_orderList K); [|done|done].
    intros c l1 s1 Hk1 Hl1. by apply IH.
Qed.

(** A traversal that returns has stayed within [fuel]. *)
Lemma dfs_order K fuel this s s' :
  (∀ r, kids s r = K r) → Node.dfs kids callback fuel this s = Ok s' →
  is_Some (order K fuel this).
Proof.
  revert this s s'. induction fuel as [|fuel IH]; intros this s s' Hk H;
    rewrite order_unfold; rewrite dfs_unfold, Hk in H.
  - eapply (forEach_orderList_some K _ (λ _ _, Throw StackOverflow));
      [| |done|done]; done.
  - eapply (forEach_orderList_some K _
              (λ c s, Node.dfs kids callback fuel (Node.Idx c) s));
      [| |done|done].
    + intros c l1 s1 Hk1 Hl1. by apply (dfs_forEach K).
    + intros c s1 s2 Hk1 Hr. by eapply IH.
Qed.
End dfs_order.

(** ** Building the tree *)

Section describes.
Implicit Types (s : Node.store) (F : nat → Node.t).

Lemma describes_get N F rk s i :
  describes N F rk s →
  Node.get s (Node.Idx i) = if decide (i < N) then Some (F i) else None.
Proof.
  intros (_ & Hlen & HF). simpl. case_decide.
  - by apply HF.
  - apply lookup_ge_None_2. lia.
Qed.

Lemma describes_root N F rk s :
  describes N F rk s → Node.children_of s Node.Root = rk.
Proof. intros (Ht & _). unfold Node.children_of. simpl. by rewrite Ht. Qed.

Lemma describes_children N F rk s i :
  describes N F rk s → i < N →
  Node.children_of s (Node.Idx i) = Node.children (F i).
Proof.
  intros H Hi. unfold Node.children_of.
  by rewrite (describes_get _ _ _ _ _ H), decide_True.
Qed.

Lemma describes_upd N F rk s j f :
  describes N F rk s →
  describes N (λ i, if decide (i = j) then f (F i) else F i) rk
            (Node.upd (Node.Idx j) f s).
Proof.
  intros (Ht & Hlen & HF). split_and!; [done|by rewrite length_upd|].
  intros i Hi. simpl. rewrite list_lookup_alter.
  destruct (decide (j = i)) as [->|Hne].
  - by rewrite (HF i Hi), decide_True.
  - by rewrite (HF i Hi), decide_False.
Qed.

Lemma describes_setParent N F rk s c j :
  describes N F rk s →
  describes N
    (λ i, let n := if decide (i = c)
                   then Node.set_parent (Some (Node.Idx j)) (F i) else F i in
          if decide (i = j)
          then Node.set_children (Node.children n ++ [c]) n else n)
    rk (Node.setParent c (Node.Idx j) s).
Proof.
  intros H. unfold Node.setParent.
  apply (describes_upd _ _ _ _ c (Node.set_parent (Some (Node.Idx j)))) in H.
  apply (describes_upd _ _ _ _ j
           (λ p, Node.set_children (Node.children p ++ [c]) p)) in H.
  destruct H as (Ht & Hlen & HF). split_and!; [done|done|].
  intros i Hi. rewrite (HF i Hi). f_equal.
Qed.

Lemma describes_setParent_root N F rk s c :
  describes N F rk s →
  describes N
    (λ i, if decide (i = c)
          then Node.set_parent (Some Node.Root) (F i) else F i)
    (rk ++ [c]) (Node.setParent c Node.Root s).
Proof.
  intros H. unfold Node.setParent.
  apply (describes_upd _ _ _ _ c (Node.set_parent (Some Node.Root))) in H.
  destruct H as (Ht & Hlen & HF). split_and!; [|done|done].
  simpl in *. by rewrite Ht.
Qed.

Lemma filter_notin_cons (c : nat) cs (l : list nat) :
  filter (λ o, o ∉ cs) (filter (λ o, o ≠ c) l) = filter (λ o, o ∉ c :: cs) l.
Proof.
  induction l as [|x l IH]; [done|].
  rewrite (filter_cons (λ o, o ≠ c)), (filter_cons (λ o, o ∉ c :: cs)).
  destruct (decide (x ≠ c)) as [Hne|Heq].
  - rewrite filter_cons.
    destruct (decide (x ∉ cs)) as [Hn|Hin].
    + rewrite decide_True by (rewrite not_elem_of_cons; done). by f_equal.
    + rewrite decide_False by (rewrite not_elem_of_cons; tauto). done.
  - rewrite decide_False; [done|].
    rewrite not_elem_of_cons. tauto.
Qed.

Lemma filter_notin_nil (l : list nat) : filter (λ o, o ∉ []) l = l.
Proof.
  induction l as [|x l IH]; [done|].
  rewrite filter_cons, decide_True by apply not_elem_of_nil. by f_equal.
Qed.

Variable file : string.
Variable ratio : Qc.
Variable maps : SkinMaps.

Lemma bind_Ok {A B} (a : A) (k : A → result B) : (Ok a ≫= k) = k a.
Proof. done. Qed.

Lemma forEach_cons {A St} (body : A → St → result St) x l (st : St) :
  forEach body (x :: l) st = body x st ≫= forEach body l.
Proof. done. Qed.

Lemma attachChild_Ok N j c F rk s orphans :
  describes N F rk s → c < N →
  attachChild j c (s, orphans)
  = Ok (Node.setParent c (Node.Idx j) s, filter (λ o, o ≠ c) orphans).
Proof.
  intros HF Hc. unfold attachChild.
  by rewrite (describes_get _ _ _ _ _ HF), decide_True.
Qed.

(** The loop over the children of the node [j]. *)
Lemma attachChild_loop N j cs F rk s orphans :
  describes N F rk s → Forall (λ c, c < N) cs →
  ∃ s' F',
    forEach (attachChild j) cs (s, orphans)
    = Ok (s', filter (λ o, o ∉ cs) orphans)
    ∧ describes N F' rk s'
    ∧ ∀ i, unlinked (F' i) = unlinked (F i)
           ∧ Node.children (F' i)
             = Node.children (F i) ++ (if decide (i = j) then cs else [])
           ∧ Node.parent (F' i)
             = if decide (i ∈ cs) then Some (Node.Idx j)
               else Node.parent (F i).
Proof.
  revert F s orphans. induction cs as [|c cs IH]; intros F s orphans HF Hcs.
  - exists s, F. simpl. rewrite filter_notin_nil. split_and!; [done|done|].
    intros i. split_and!; [done| |].
    + case_decide; by rewrite app_nil_r.
    + done.
  - apply Forall_cons in Hcs as [Hc Hcs].
    rewrite forEach_cons, (attachChild_Ok _ _ _ _ _ _ _ HF Hc), bind_Ok.
    apply (describes_setParent _ _ _ _ c j) in HF.
    destruct (IH _ _ (filter (λ o, o ≠ c) orphans) HF Hcs)
      as (s' & F' & Hloop & HF' & Hprops).
    exists s', F'. rewrite Hloop, filter_notin_cons.
    split_and!; [done|done|].
    intros i. destruct (Hprops i) as (Hu & Hch & Hpar).
    rewrite Hu, Hch, Hpar. clear Hprops Hu Hch Hpar. simpl.
    split_and!.
    + destruct (F i); repeat case_decide; done.
    + destruct (F i); repeat case_decide; simpl;
        rewrite <- ?app_assoc, ?app_nil_r; done.
    + destruct (decide (i = c)) as [Heq|Hne].
      * rewrite (decide_True (P := i ∈ c :: cs)) by (rewrite Heq; left).
        destruct (F i); repeat case_decide; done.
      * destruct (decide (i ∈ cs)) as [Hin|Hin].
        { rewrite decide_True by (by right). done. }
        rewrite (decide_False (P := i ∈ c :: cs))
          by (intros [?|?]%elem_of_cons; done).
        destruct (F i); repeat case_decide; done.
Qed.

Lemma attachChild_loop_throw N j cs F rk s orphans :
  describes N F rk s → ¬ Forall (λ c, c < N) cs →
  forEach (attachChild j) cs (s, orphans) = Throw TypeError.
Proof.
  revert F s orphans. induction cs as [|c cs IH]; intros F s orphans HF Hcs.
  - by destruct Hcs.
  - cbn [forEach attachChild]. rewrite (describes_get _ _ _ _ _ HF).
    case_decide as Hc; simpl; [|done].
    eapply IH; [by apply describes_setParent|].
    intros Hall. apply Hcs. by constructor.
Qed.

Lemma describes_upd_opt {A} N F rk s j (o : option A) (f : A → Node.t → Node.t) :
  describes N F rk s →
  describes N
    (λ i, if decide (i = j)
          then match o with Some v => f v (F i) | None => F i end
          else F i)
    rk (match o with Some v => Node.upd (Node.Idx j) (f v) s | None => s end).
Proof.
  intros HF. destruct o as [v|].
  - by apply describes_upd.
  - destruct HF as (Ht & Hlen & HF). split_and!; [done|done|].
    intros i Hi. rewrite (HF i Hi). by case_decide.
Qed.

(** One iteration of the loop over [json.nodes]. *)
Lemma buildNode_spec N j nodeObj F rk s orphans :
  describes N F rk s →
  Forall (λ c, c < N) (default [] (nd_children nodeObj)) →
  ∃ s' F',
    buildNode maps (j, nodeObj) (s, orphans)
    = Ok (s', filter (λ o, o ∉ default [] (nd_children nodeObj)) orphans)
    ∧ describes N F' rk s'
    ∧ ∀ i, unlinked (F' i)
           = unlinked (if decide (i = j)
                       then decorate maps j nodeObj (F i) else F i)
           ∧ Node.children (F' i)
             = Node.children (F i)
               ++ (if decide (i = j)
                   then default [] (nd_children nodeObj) else [])
           ∧ Node.parent (F' i)
             = if decide (i ∈ default [] (nd_children nodeObj))
               then Some (Node.Idx j) else Node.parent (F i).
Proof.
  intros HF Hcs. unfold buildNode.
  apply (describes_upd_opt _ _ _ _ j (nd_name nodeObj)
           (λ nm, Node.set_name (Some nm))) in HF.
  match goal with
  | HF : describes _ ?F1 _ ?s1 |- _ =>
    assert (∃ s2 F2,
      match nd_children nodeObj with
      | Some cs => forEach (attachChild j) cs (s1, orphans)
      | None => Ok (s1, orphans)
      end = Ok (s2, filter (λ o, o ∉ default [] (nd_children nodeObj)) orphans)
      ∧ describes N F2 rk s2
      ∧ ∀ i, unlinked (F2 i) = unlinked (F1 i)
             ∧ Node.children (F2 i)
               = Node.children (F1 i)
                 ++ (if decide (i = j)
                     then default [] (nd_children nodeObj) else [])
             ∧ Node.parent (F2 i)
               = if decide (i ∈ default [] (nd_children nodeObj))
                 then Some (Node.Idx j) else Node.parent (F1 i))
      as (s2 & F2 & -> & HF2 & Hprops)
  end.
  { destruct (nd_children nodeObj) as [cs|]; simpl in *.
    - by apply attachChild_loop.
    - eexists _, _. rewrite filter_notin_nil. split_and!; [done|done|].
      intros i. split_and!; [done| |done].
      case_decide; by rewrite app_nil_r. }
  rewrite bind_Ok.
  apply (describes_upd_opt _ _ _ _ j (nd_skin nodeObj)
           (λ k, Node.set_meshSkin
                   (from_option Node.MsId Node.MsUndefined
                                (skinsMap maps !! k)))) in HF2.
  apply (describes_upd_opt _ _ _ _ j (jointIdxs maps !! j)
           (λ skinID, Node.set_skin (Some skinID))) in HF2.
  eexists _, _. split_and!; [done|done|].
  intros i. destruct (Hprops i) as (Hu & Hch & Hpar). clear Hprops.
  revert Hu Hch Hpar. unfold decorate, meshSkinOf.
  generalize (F2 i) (F i). intros n2 n Hu Hch Hpar.
  destruct n2, n, (nd_name nodeObj), (nd_skin nodeObj), (jointIdxs maps !! j);
    repeat case_decide; cbv in Hu; simpl in *; simplify_eq; done.
Qed.

Lemma buildNode_throw N j nodeObj F rk s orphans :
  describes N F rk s →
  ¬ Forall (λ c, c < N) (default [] (nd_children nodeObj)) →
  buildNode maps (j, nodeObj) (s, orphans) = Throw TypeError.
Proof.
  intros HF Hcs. unfold buildNode.
  apply (describes_upd_opt _ _ _ _ j (nd_name nodeObj)
           (λ nm, Node.set_name (Some nm))) in HF.
  destruct (nd_children nodeObj) as [cs|]; simpl in Hcs.
  - by rewrite (attachChild_loop_throw _ _ _ _ _ _ _ HF Hcs).
  - by destruct Hcs.
Qed.

Lemma filter_notin_app (l1 l2 l : list nat) :
  filter (λ o, o ∉ l2) (filter (λ o, o ∉ l1) l) = filter (λ o, o ∉ l1 ++ l2) l.
Proof.
  induction l as [|x l IH]; [done|].
  rewrite (filter_cons (λ o, o ∉ l1)), (filter_cons (λ o, o ∉ l1 ++ l2)).
  destruct (decide (x ∉ l1)) as [H1|H1].
  - rewrite filter_cons. destruct (decide (x ∉ l2)) as [H2|H2].
    + rewrite decide_True by (rewrite elem_of_app; tauto). by f_equal.
    + rewrite decide_False by (rewrite elem_of_app; tauto). done.
  - rewrite decide_False by (rewrite elem_of_app; tauto). done.
Qed.

Lemma listed_snoc pre x :
  listed (pre ++ [x]) = listed pre ++ default [] (nd_children x).
Proof. unfold listed. rewrite bind_app. simpl. by rewrite app_nil_r. Qed.

Lemma kidsIn_snoc pre x i :
  kidsIn (pre ++ [x]) i
  = kidsIn pre i
    ++ (if decide (i = length pre + 0)
        then default [] (nd_children x) else []).
Proof.
  unfold kidsIn. rewrite Nat.add_0_r.
  destruct (decide (i = length pre)) as [->|Hne].
  - rewrite list_lookup_middle by done.
    by rewrite (lookup_ge_None_2 pre) by done.
  - rewrite app_nil_r. destruct (decide (i < length pre)).
    + by rewrite lookup_app_l.
    + rewrite (lookup_ge_None_2 pre i) by lia.
      rewrite (lookup_ge_None_2 (pre ++ [x]) i)
        by (rewrite length_app; simpl; lia).
      done.
Qed.

Lemma kidsIn_listed ns p i : i ∈ kidsIn ns p → i ∈ listed ns.
Proof.
  unfold kidsIn, listed. destruct (ns !! p) as [n|] eqn:Hp; simpl.
  - intros Hin. apply list_elem_of_bind. exists n.
    split; [done|]. by eapply list_elem_of_lookup_2.
  - by intros ?%elem_of_nil.
Qed.

Lemma listed_kidsIn ns i : i ∈ listed ns → ∃ p, p < length ns ∧ i ∈ kidsIn ns p.
Proof.
  unfold listed. intros (n & Hin & Hn)%list_elem_of_bind.
  apply list_elem_of_lookup in Hn as [p Hp]. exists p.
  split; [by eapply lookup_lt_Some|]. unfold kidsIn. by rewrite Hp.
Qed.

Lemma unlinked_decorate j x n n' :
  unlinked n = unlinked n' →
  unlinked (decorate maps j x n) = unlinked (decorate maps j x n').
Proof. destruct n, n'. cbv. intros; simplify_eq. done. Qed.

Lemma describes_emptyStore N :
  describes N (λ _, Node.new false) [] (emptyStore N).
Proof.
  split_and!; [done|by simpl; rewrite length_fmap, length_seq|].
  intros i Hi. simpl. rewrite list_lookup_fmap, lookup_seq_lt; done.
Qed.

(** The loop over [json.nodes], after the nodes [pre]. *)
Lemma buildNode_loop N pre :
  Forall (λ c, c < N) (listed pre) →
  ∃ s F,
    forEach (buildNode maps) (imap pair pre) (emptyStore N, seq 0 N)
    = Ok (s, filter (λ o, o ∉ listed pre) (seq 0 N))
    ∧ describes N F [] s
    ∧ ∀ i, unlinked (F i)
           = unlinked (match pre !! i with
                       | Some n => decorate maps i n (Node.new false)
                       | None => Node.new false
                       end)
           ∧ Node.children (F i) = kidsIn pre i
           ∧ (∀ r, Node.parent (F i) = Some r →
                   ∃ p, r = Node.Idx p ∧ i ∈ kidsIn pre p)
           ∧ (i ∈ listed pre → is_Some (Node.parent (F i))).
Proof.
  induction pre as [|x pre IH] using rev_ind; intros Hall.
  - exists (emptyStore N), (λ _, Node.new false). simpl.
    rewrite filter_notin_nil.
    split_and!; [done|apply describes_emptyStore|].
    intros i. split_and!; try done.
    by intros ?%elem_of_nil.
  - rewrite listed_snoc, Forall_app in Hall. destruct Hall as [Hpre Hx].
    destruct (IH Hpre) as (s & F & Hloop & HF & Hprops).
    rewrite imap_app, forEach_app, Hloop, bind_Ok. cbn [imap forEach].
    destruct (buildNode_spec N (length pre + 0) x F [] s
                (filter (λ o, o ∉ listed pre) (seq 0 N)) HF Hx)
      as (s' & F' & -> & HF' & Hprops').
    exists s', F'. rewrite bind_Ok, filter_notin_app, listed_snoc.
    split_and!; [done|done|].
    intros i. destruct (Hprops i) as (Hu & Hch & HparA & HparB).
    destruct (Hprops' i) as (Hu' & Hch' & Hpar').
    rewrite Hu', Hch', Hpar', Hch, kidsIn_snoc. clear Hprops Hprops'.
    split_and!.
    + destruct (decide (i = length pre + 0)) as [->|Hne].
      * rewrite Nat.add_0_r in *.
        rewrite list_lookup_middle by done.
        apply unlinked_decorate. rewrite Hu.
        by rewrite (lookup_ge_None_2 pre) by done.
      * rewrite Hu. destruct (decide (i < length pre)).
        { by rewrite lookup_app_l. }
        rewrite (lookup_ge_None_2 pre i) by lia.
        rewrite (lookup_ge_None_2 (pre ++ [x]) i)
          by (rewrite length_app; simpl; lia).
        done.
    + done.
    + intros r. case_decide as Hin.
      * intros [= <-]. exists (length pre + 0). split; [done|].
        rewrite kidsIn_snoc, decide_True by done.
        apply elem_of_app. by right.
      * intros (p & -> & Hp)%HparA. exists p. split; [done|].
        rewrite kidsIn_snoc. apply elem_of_app. by left.
    + intros [Hin|Hin]%elem_of_app.
      * case_decide; [by eexists|by apply HparB].
      * rewrite decide_True by done. by eexists.
Qed.

Lemma buildNode_loop_throw N pre :
  ¬ Forall (λ c, c < N) (listed pre) →
  forEach (buildNode maps) (imap pair pre) (emptyStore N, seq 0 N)
  = Throw TypeError.
Proof.
  induction pre as [|x pre IH] using rev_ind; intros Hall.
  - by destruct Hall.
  - rewrite imap_app, forEach_app.
    destruct (decide (Forall (λ c, c < N) (listed pre))) as [Hpre|Hpre].
    + destruct (buildNode_loop N pre Hpre) as (s & F & -> & HF & _).
      rewrite bind_Ok. cbn [imap forEach].
      rewrite (buildNode_throw N _ _ F [] s); [done|done|].
      intros Hx. apply Hall. rewrite listed_snoc. by apply Forall_app.
    + by rewrite (IH Hpre).
Qed.

Lemma attachOrphan_Ok N c F rk s :
  describes N F rk s → c < N →
  attachOrphan c s = Ok (Node.setParent c Node.Root s).
Proof.
  intros HF Hc. unfold attachOrphan.
  by rewrite (describes_get _ _ _ _ _ HF), decide_True.
Qed.

(** The loop that attaches the orphans to [tree]. *)
Lemma attachOrphan_loop N os F rk s :
  describes N F rk s → Forall (λ c, c < N) os →
  ∃ s' F',
    forEach attachOrphan os s = Ok s'
    ∧ describes N F' (rk ++ os) s'
    ∧ ∀ i, unlinked (F' i) = unlinked (F i)
           ∧ Node.children (F' i) = Node.children (F i)
           ∧ Node.parent (F' i)
             = if decide (i ∈ os) then Some Node.Root
               else Node.parent (F i).
Proof.
  revert F rk s. induction os as [|c os IH]; intros F rk s HF Hos.
  - exists s, F. rewrite app_nil_r. split_and!; [done|done|].
    intros i. split_and!; [done|done|].
    rewrite decide_False; [done|]. apply not_elem_of_nil.
  - apply Forall_cons in Hos as [Hc Hos].
    rewrite forEach_cons, (attachOrphan_Ok _ _ _ _ _ HF Hc), bind_Ok.
    apply (describes_setParent_root _ _ _ _ c) in HF.
    destruct (IH _ _ _ HF Hos) as (s' & F' & Hloop & HF' & Hprops).
    exists s', F'. rewrite <- app_assoc in HF'.
    split_and!; [done|done|].
    intros i. destruct (Hprops i) as (Hu & Hch & Hpar).
    rewrite Hu, Hch, Hpar. clear Hprops Hu Hch Hpar.
    split_and!.
    + destruct (F i); repeat case_decide; done.
    + destruct (F i); repeat case_decide; done.
    + destruct (decide (i = c)) as [Heq|Hne].
      * rewrite (decide_True (P := i ∈ c :: os)) by (rewrite Heq; left).
        destruct (F i); repeat case_decide; done.
      * destruct (decide (i ∈ os)) as [Hin|Hin].
        { rewrite decide_True by (by right). done. }
        rewrite (decide_False (P := i ∈ c :: os))
          by (intros [?|?]%elem_of_cons; done).
        done.
Qed.

Lemma elem_of_sort x l : x ∈ sort l ↔ x ∈ l.
Proof. unfold sort. by rewrite merge_sort_Permutation. Qed.

Lemma elem_of_orphansOf ns i :
  i ∈ orphansOf ns ↔ i < length ns ∧ i ∉ listed ns.
Proof.
  unfold orphansOf. rewrite list_elem_of_filter, elem_of_seq. naive_solver lia.
Qed.

(** The store that [buildTree] returns: the node [i] has the children
    that the input declares for it, the fields of its input record, and
    as parent the root when it is an orphan and a node that lists it
    otherwise; the root has the sorted orphans. *)
Lemma buildTree_spec ns :
  Forall (λ c, c < length ns) (listed ns) →
  ∃ s F,
    buildTree maps ns = Ok s
    ∧ describes (length ns) F (sort (orphansOf ns)) s
    ∧ ∀ i n, ns !! i = Some n →
        unlinked (F i) = unlinked (decorate maps i n (Node.new false))
        ∧ Node.children (F i) = kidsIn ns i
        ∧ (i ∉ listed ns → Node.parent (F i) = Some Node.Root)
        ∧ (i ∈ listed ns →
           ∃ p, Node.parent (F i) = Some (Node.Idx p) ∧ i ∈ kidsIn ns p).
Proof.
  intros Hall. unfold buildTree.
  destruct (buildNode_loop (length ns) ns Hall)
    as (s & F & Hloop & HF & Hprops).
  change {| Node.tree := Node.new true;
            Node.nodesFlat := (λ _, Node.new false) <$> seq 0 (length ns) |}
    with (emptyStore (length ns)).
  rewrite Hloop, bind_Ok. fold (orphansOf ns).
  destruct (attachOrphan_loop (length ns) (sort (orphansOf ns)) F [] s HF)
    as (s' & F' & Hloop' & HF' & Hprops').
  { apply Forall_forall. intros o Ho%elem_of_sort%elem_of_orphansOf. lia. }
  exists s', F'. split_and!; [done|done|].
  intros i n Hi.
  destruct (Hprops i) as (Hu & Hch & HparA & HparB).
  destruct (Hprops' i) as (Hu' & Hch' & Hpar').
  rewrite Hu', Hch', Hpar', Hu, Hch, Hi. clear Hprops Hprops'.
  split_and!; [done|done|..].
  - intros Hnot. rewrite decide_True; [done|].
    apply elem_of_sort, elem_of_orphansOf. split; [|done].
    by eapply lookup_lt_Some.
  - intros Hin. rewrite decide_False.
    + destruct (HparB Hin) as [r Hr].
      destruct (HparA r Hr) as (p & -> & Hp). eauto.
    + intros Ho%elem_of_sort%elem_of_orphansOf. tauto.
Qed.

Lemma buildTree_throw ns :
  ¬ Forall (λ c, c < length ns) (listed ns) →
  buildTree maps ns = Throw TypeError.
Proof.
  intros Hall. unfold buildTree.
  change {| Node.tree := Node.new true;
            Node.nodesFlat := (λ _, Node.new false) <$> seq 0 (length ns) |}
    with (emptyStore (length ns)).
  by rewrite (buildNode_loop_throw _ _ Hall).
Qed.
End describes.

(** ** The transform [reverse] *)

Section reverse.
Implicit Types (s : Node.store) (F : nat → Node.t).

Lemma describes_ext N F F' rk s :
  (∀ i, i < N → F i = F' i) → describes N F rk s → describes N F' rk s.
Proof.
  intros Hext (Ht & Hlen & HF). split_and!; [done|done|].
  intros i Hi. rewrite <- Hext by done. by apply HF.
Qed.

Lemma reparent_loop N v cs F rk s :
  describes N F rk s →
  describes N (λ i, if decide (i ∈ cs) then Node.set_parent v (F i) else F i)
    rk (foldl (λ s c, Node.upd (Node.Idx c) (Node.set_parent v) s) s cs).
Proof.
  revert F s. induction cs as [|c cs IH]; intros F s HF.
  - eapply describes_ext; [|done]. intros i _.
    rewrite decide_False; [done|]. apply not_elem_of_nil.
  - cbn [foldl].
    apply (describes_upd _ _ _ _ c (Node.set_parent v)) in HF.
    apply IH in HF. eapply describes_ext; [|done].
    intros i _. cbn beta.
    destruct (decide (i ∈ cs)) as [Hin|Hin].
    + rewrite (decide_True (P := i ∈ c :: cs)) by (by right).
      case_decide; by destruct (F i).
    + destruct (decide (i = c)) as [Heq|Hne].
      * rewrite (decide_True (P := i ∈ c :: cs)) by (rewrite Heq; left).
        done.
      * rewrite (decide_False (P := i ∈ c :: cs))
          by (intros [?|?]%elem_of_cons; done).
        done.
Qed.

Lemma children_if_set_parent (P : Prop) `{!Decision P} v (n : Node.t) :
  Node.children (if decide P then Node.set_parent v n else n)
  = Node.children n.
Proof. destruct (decide P); by destruct n. Qed.

(** One iteration of the loop of [tree.reverse()]. *)
Lemma reverse_step_spec N F rk s i first second :
  describes N F rk s →
  rk !! i = Some first → rk !! (length rk - i - 1) = Some second →
  first < N → second < N →
  describes N (swapped F first second) rk (Node.reverse_step Node.Root s i).
Proof.
  intros HF Hfirst Hsecond Hf Hs. unfold Node.reverse_step.
  rewrite (describes_root _ _ _ _ HF), Hfirst, Hsecond.
  rewrite (describes_children _ _ _ _ _ HF Hf).
  pose proof (reparent_loop N (Some (Node.Idx second))
                (Node.children (F first)) F rk s HF) as HF1.
  rewrite (describes_children _ _ _ _ _ HF1 Hs).
  match type of HF1 with
  | describes _ ?F1 _ ?s1 =>
    pose proof (reparent_loop N (Some (Node.Idx first))
                  (Node.children (F1 second)) F1 rk s1 HF1) as HF2
  end.
  rewrite !(describes_children _ _ _ _ _ HF2) by done.
  match type of HF2 with
  | describes _ ?F2 _ ?s2 =>
    apply (describes_upd _ _ _ _ first
             (Node.set_children (Node.children (F2 second)))) in HF2;
    apply (describes_upd _ _ _ _ second
             (Node.set_children (Node.children (F2 first)))) in HF2
  end.
  eapply describes_ext; [|done].
  intros x _. unfold swapped. cbn beta.
  rewrite !children_if_set_parent.
  destruct (F x); repeat case_decide; simplify_eq; done.
Qed.

Lemma swapped_unlinked F a b x : unlinked (swapped F a b x) = unlinked (F x).
Proof. unfold swapped. destruct (F x); repeat case_decide; done. Qed.

Lemma swapped_children F a b x :
  Node.children (swapped F a b x) = Node.children (F (transpose a b x)).
Proof.
  unfold swapped, transpose.
  destruct (F x) eqn:Hx; repeat case_decide; simplify_eq; simpl;
    by rewrite ?Hx.
Qed.

Lemma swapped_parent F a b x :
  Node.parent (swapped F a b x)
  = if decide (x ∈ Node.children (F b)) then Some (Node.Idx a)
    else if decide (x ∈ Node.children (F a)) then Some (Node.Idx b)
         else Node.parent (F x).
Proof. unfold swapped. destruct (F x); repeat case_decide; done. Qed.

Lemma transpose_involutive a b x : transpose a b (transpose a b x) = x.
Proof. unfold transpose. repeat case_decide; congruence. Qed.

Lemma transpose_lt a b x N : a < N → b < N → x < N → transpose a b x < N.
Proof. unfold transpose. repeat case_decide; lia. Qed.

Lemma transpose_seq a b N :
  a < N → b < N → transpose a b <$> seq 0 N ≡ₚ seq 0 N.
Proof.
  intros Ha Hb. apply NoDup_Permutation.
  - apply NoDup_fmap_2_strong; [|apply NoDup_seq].
    intros x y _ _ Heq.
    by rewrite <- (transpose_involutive a b x), Heq, transpose_involutive.
  - apply NoDup_seq.
  - intros x. rewrite list_elem_of_fmap. setoid_rewrite elem_of_seq. split.
    + intros (y & -> & Hy). split; [lia|]. apply transpose_lt; lia.
    + intros Hx. exists (transpose a b x).
      split; [by rewrite transpose_involutive|].
      split; [lia|]. apply transpose_lt; lia.
Qed.

Lemma NoDup_bind_disjoint {A B} (g : A → list B) (l : list A) i j p q c :
  NoDup (l ≫= g) → l !! i = Some p → l !! j = Some q → i ≠ j →
  c ∈ g p → c ∈ g q → False.
Proof.
  revert i j. induction l as [|x l IH]; intros i j Hnd Hi Hj Hij Hp Hq.
  - by rewrite lookup_nil in Hi.
  - cbn in Hnd. apply NoDup_app in Hnd as (_ & Hdis & Hnd).
    destruct i as [|i], j as [|j]; simplify_eq/=.
    + apply (Hdis c Hp). apply list_elem_of_bind. exists q.
      split; [done|]. by eapply list_elem_of_lookup_2.
    + apply (Hdis c Hq). apply list_elem_of_bind. exists p.
      split; [done|]. by eapply list_elem_of_lookup_2.
    + eapply (IH i j); eauto.
Qed.

Section linked.
Context (N : nat) (F : nat → Node.t) (rk : list nat).
Hypothesis Hlinked : linked N F rk.

Lemma linked_NoDup :
  NoDup (rk ++ (seq 0 N ≫= λ p, Node.children (F p))).
Proof. destruct Hlinked as (-> & _). apply NoDup_seq. Qed.

Lemma linked_root_NoDup : NoDup rk.
Proof. by pose proof linked_NoDup as (? & _)%NoDup_app. Qed.

Lemma linked_root_lt c : c ∈ rk → c < N.
Proof.
  intros Hc. destruct Hlinked as (Hperm & _).
  assert (c ∈ seq 0 N) as ?%elem_of_seq; [|lia].
  rewrite <- Hperm. apply elem_of_app. by left.
Qed.

Lemma linked_child_lt p c : p < N → c ∈ Node.children (F p) → c < N.
Proof.
  intros Hp Hc. destruct Hlinked as (Hperm & _).
  assert (c ∈ seq 0 N) as ?%elem_of_seq; [|lia].
  rewrite <- Hperm. apply elem_of_app. right.
  apply list_elem_of_bind. exists p. split; [done|].
  apply elem_of_seq. lia.
Qed.

Lemma linked_root_not_child c p :
  c ∈ rk → p < N → c ∉ Node.children (F p).
Proof.
  intros Hc Hp Hin.
  pose proof linked_NoDup as (_ & Hdis & _)%NoDup_app.
  apply (Hdis c Hc). apply list_elem_of_bind. exists p. split; [done|].
  apply elem_of_seq. lia.
Qed.

Lemma linked_one_parent p q c :
  p < N → q < N → c ∈ Node.children (F p) → c ∈ Node.children (F q) →
  p = q.
Proof.
  intros Hp Hq Hcp Hcq. destruct (decide (p = q)) as [|Hne]; [done|].
  exfalso.
  pose proof linked_NoDup as (_ & _ & Hnd)%NoDup_app.
  eapply (NoDup_bind_disjoint _ (seq 0 N) p q p q c Hnd);
    rewrite ?lookup_seq_lt; done.
Qed.

(** One iteration of [reverse] keeps the links consistent. *)
Lemma linked_swapped a b :
  a ∈ rk → b ∈ rk → linked N (swapped F a b) rk.
Proof.
  intros Ha Hb.
  pose proof (linked_root_lt a Ha) as HaN.
  pose proof (linked_root_lt b Hb) as HbN.
  destruct Hlinked as (Hperm & Hroot & Hchild).
  split_and!.
  - rewrite <- Hperm at 2. f_equiv.
    rewrite (list_bind_ext _ ((λ p, Node.children (F p)) ∘ transpose a b)
               _ (seq 0 N)); [|intros x; apply swapped_children|done].
    by rewrite <- list_fmap_bind, transpose_seq.
  - intros c Hc. rewrite swapped_parent.
    rewrite !decide_False by (by apply linked_root_not_child).
    by apply Hroot.
  - intros p c Hp. rewrite swapped_children. intros Hc.
    pose proof (transpose_lt a b p N HaN HbN Hp) as Htp.
    pose proof (Hchild _ c Htp Hc) as Hpar.
    rewrite swapped_parent. unfold transpose in *.
    destruct (decide (p = b)) as [->|Hpb].
    { destruct (decide (c ∈ Node.children (F b))) as [Hcb|Hcb].
      - by rewrite (linked_one_parent a b c HaN HbN Hc Hcb).
      - by rewrite decide_True. }
    destruct (decide (p = a)) as [->|Hpa].
    { by rewrite decide_True. }
    rewrite !decide_False; [done|..].
    * intros Hca. by apply Hpa, (linked_one_parent p a c).
    * intros Hcb. by apply Hpb, (linked_one_parent p b c).
Qed.

(** One iteration of [reverse] keeps the depths. *)
Lemma leveled_swapped d a b :
  leveled N F rk d → a ∈ rk → b ∈ rk → leveled N (swapped F a b) rk d.
Proof.
  intros (Hroot & Hchild) Ha Hb.
  pose proof (linked_root_lt a Ha) as HaN.
  pose proof (linked_root_lt b Hb) as HbN.
  split; [done|].
  intros p c Hp. rewrite swapped_children. intros Hc.
  pose proof (transpose_lt a b p N HaN HbN Hp) as Htp.
  rewrite (Hchild _ c Htp Hc). f_equal. unfold transpose.
  pose proof (Hroot a Ha). pose proof (Hroot b Hb).
  repeat case_decide; congruence.
Qed.
End linked.

(** The loop of [tree.reverse()] after [m] iterations: the first [m]
    root children and the last [m] ones have exchanged their child
    arrays with their mirror images. *)
Lemma reverse_prefix N F rk s m :
  describes N F rk s → NoDup rk → Forall (λ c, c < N) rk →
  m ≤ length rk / 2 →
  ∃ Fm,
    describes N Fm rk (foldl (Node.reverse_step Node.Root) s (seq 0 m))
    ∧ (∀ x, unlinked (Fm x) = unlinked (F x))
    ∧ (∀ p c c', rk !! p = Some c → rk !! (length rk - 1 - p) = Some c' →
         Node.children (Fm c)
         = Node.children
             (F (if decide (p < m ∨ length rk - m ≤ p) then c' else c)))
    ∧ (∀ x, x ∉ rk → Node.children (Fm x) = Node.children (F x))
    ∧ (linked N F rk → linked N Fm rk)
    ∧ (∀ d, treeInv N F rk d → treeInv N Fm rk d).
Proof.
  intros HF Hnd Hlt. induction m as [|m IH]; intros Hm.
  - exists F. split_and!; try done.
    intros p c c' Hp Hp'. rewrite decide_False; [done|].
    apply lookup_lt_Some in Hp. lia.
  - destruct IH as (Fm & HFm & Hu & Hmirror & Hother & Hlink & Hinv); [lia|].
    pose proof (Nat.Div0.mul_div_le (length rk) 2) as Hdiv.
    destruct (lookup_lt_is_Some_2 rk m) as [first Hfirst]; [lia|].
    destruct (lookup_lt_is_Some_2 rk (length rk - m - 1))
      as [second Hsecond]; [lia|].
    assert (first < N ∧ second < N) as [Hf Hs].
    { rewrite Forall_forall in Hlt.
      split; apply Hlt; by eapply list_elem_of_lookup_2. }
    rewrite seq_S, foldl_app. cbn [foldl Nat.add].
    exists (swapped Fm first second). split_and!.
    + by apply reverse_step_spec.
    + intros x. by rewrite swapped_unlinked.
    + intros p c c' Hp Hp'. rewrite swapped_children. unfold transpose.
      destruct (decide (c = second)) as [->|Hcs].
      { assert (p = length rk - m - 1) as ->
          by (by eapply NoDup_lookup).
        replace (length rk - 1 - (length rk - m - 1)) with m in Hp' by lia.
        simplify_eq. rewrite decide_True by lia.
        rewrite (Hmirror m first second);
          [|done|by replace (length rk - 1 - m)
                      with (length rk - m - 1) by lia].
        rewrite decide_False by lia. done. }
      destruct (decide (c = first)) as [->|Hcf].
      { assert (p = m) as -> by (by eapply NoDup_lookup).
        replace (length rk - 1 - m) with (length rk - m - 1) in Hp' by lia.
        simplify_eq. rewrite decide_True by lia.
        rewrite (Hmirror (length rk - m - 1) second first);
          [|done|by replace (length rk - 1 - (length rk - m - 1))
                      with m by lia].
        rewrite decide_False by lia. done. }
      rewrite (Hmirror p c c') by done.
      assert (p ≠ m) by (intros ->; simplify_eq).
      assert (p ≠ length rk - m - 1) by (intros ->; simplify_eq).
      repeat case_decide; done || lia.
    + intros x Hx. rewrite swapped_children. unfold transpose.
      rewrite !decide_False.
      * by apply Hother.
      * intros ->. apply Hx. by eapply list_elem_of_lookup_2.
      * intros ->. apply Hx. by eapply list_elem_of_lookup_2.
    + intros Hl. apply linked_swapped; [by apply Hlink|..];
        by eapply list_elem_of_lookup_2.
    + intros d Hd. destruct (Hinv d Hd) as [Hl Hlev]. split.
      * apply linked_swapped; [done|..]; by eapply list_elem_of_lookup_2.
      * apply leveled_swapped; [done|done|..];
          by eapply list_elem_of_lookup_2.
Qed.

(** [tree.reverse()]: the root keeps its child array, the root child
    at position [p] receives the child array of the one at the mirror
    position, every other node keeps its own, and nothing but tree
    links is written. *)
Lemma reverse_spec N F rk s :
  describes N F rk s → NoDup rk → Forall (λ c, c < N) rk →
  ∃ F',
    describes N F' rk (Node.reverse Node.Root s)
    ∧ (∀ x, unlinked (F' x) = unlinked (F x))
    ∧ (∀ p c c', rk !! p = Some c → rk !! (length rk - 1 - p) = Some c' →
         Node.children (F' c) = Node.children (F c'))
    ∧ (∀ x, x ∉ rk → Node.children (F' x) = Node.children (F x))
    ∧ (linked N F rk → linked N F' rk)
    ∧ (∀ d, treeInv N F rk d → treeInv N F' rk d).
Proof.
  intros HF Hnd Hlt. unfold Node.reverse.
  rewrite (describes_root _ _ _ _ HF).
  destruct (reverse_prefix N F rk s (length rk / 2) HF Hnd Hlt)
    as (F' & HF' & Hu & Hmirror & Hother & Hlink & Hinv); [done|].
  exists F'. split_and!; try done.
  intros p c c' Hp Hp'. rewrite (Hmirror p c c') by done.
  case_decide as Hcond; [done|].
  pose proof (Nat.Div0.mul_div_le (length rk) 2) as Hdiv.
  pose proof (Nat.Div0.div_mod (length rk) 2) as Hmod.
  pose proof (Nat.mod_upper_bound (length rk) 2) as Hub.
  apply lookup_lt_Some in Hp as Hplt.
  assert (length rk - 1 - p = p) as Heq by lia.
  rewrite Heq in Hp'. by simplify_eq.
Qed.
End reverse.

(** ** The pre-order sequence of a tree *)

Section order.
Variable K : Node.ref → list nat.

Lemma orderList_Some (sub : nat → option (list nat)) cs :
  Forall (λ c, is_Some (sub c)) cs → is_Some (orderList sub cs).
Proof.
  induction 1 as [|c cs [l1 Hc] _ [l2 IH]]; [by eexists|].
  exists (c :: l1 ++ l2). apply orderList_cons. eauto.
Qed.

(** The sequence holds the children of the start node and the children
    of every node of the sequence. *)
Lemma orderList_Permutation (sub : nat → option (list nat)) cs l :
  (∀ c l1, sub c = Some l1 →
           l1 ≡ₚ K (Node.Idx c) ++ (l1 ≫= λ x, K (Node.Idx x))) →
  orderList sub cs = Some l →
  l ≡ₚ cs ++ (l ≫= λ x, K (Node.Idx x)).
Proof.
  intros Hsub. revert l. induction cs as [|c cs IH]; intros l Hl.
  - simpl in Hl. by simplify_eq.
  - apply orderList_cons in Hl as (l1 & l2 & H1 & H2 & ->).
    specialize (IH l2 H2). specialize (Hsub c l1 H1).
    cbn [mbind list_bind]. fold (l1 ++ l2 ≫= λ x, K (Node.Idx x)).
    rewrite bind_app. simpl. f_equiv.
    rewrite IH at 1. rewrite Hsub at 1.
    rewrite Permutation_app_swap_app. by rewrite <- !app_assoc.
Qed.

Lemma order_Permutation fuel r l :
  order K fuel r = Some l → l ≡ₚ K r ++ (l ≫= λ x, K (Node.Idx x)).
Proof.
  revert r l. induction fuel as [|fuel IH]; intros r l;
    rewrite order_unfold; apply orderList_Permutation.
  - done.
  - intros c l1. apply IH.
Qed.

(** In the sequence, a node comes after the node that holds it. *)
Lemma orderList_parent_first (sub : nat → option (list nat)) cs l r :
  (∀ c l1, sub c = Some l1 → ∀ i x, l1 !! i = Some x →
     ∃ r', x ∈ K r'
           ∧ (r' = Node.Idx c
              ∨ ∃ j p, j < i ∧ l1 !! j = Some p ∧ r' = Node.Idx p)) →
  (∀ c, c ∈ cs → c ∈ K r) →
  orderList sub cs = Some l →
  ∀ i x, l !! i = Some x →
    ∃ r', x ∈ K r'
          ∧ (r' = r ∨ ∃ j p, j < i ∧ l !! j = Some p ∧ r' = Node.Idx p).
Proof.
  intros Hsub. revert l. induction cs as [|c cs IH]; intros l Hcs Hl i x Hi.
  - simpl in Hl. by simplify_eq.
  - apply orderList_cons in Hl as (l1 & l2 & H1 & H2 & ->).
    destruct i as [|i]; simpl in Hi.
    { simplify_eq. exists r. split; [apply Hcs; left|by left]. }
    apply lookup_app_Some in Hi as [Hi|[Hlen Hi]].
    + destruct (Hsub c l1 H1 i x Hi) as (r' & Hx & Hr').
      exists r'. split; [done|]. right.
      destruct Hr' as [->|(j & p & Hj & Hp & ->)].
      * exists 0, c. split_and!; [lia|done|done].
      * exists (S j), p. split_and!; [lia| |done].
        simpl. by apply lookup_app_l_Some.
    + destruct (IH l2 (λ c' Hc', Hcs c' (list_elem_of_further _ _ _ Hc')) H2
                  _ x Hi) as (r' & Hx & Hr').
      exists r'. split; [done|].
      destruct Hr' as [->|(j & p & Hj & Hp & ->)]; [by left|right].
      exists (S (length l1 + j)), p. split_and!; [lia| |done].
      simpl. rewrite lookup_app_r by lia.
      by replace (length l1 + j - length l1) with j by lia.
Qed.

Lemma order_parent_first fuel r l :
  order K fuel r = Some l →
  ∀ i x, l !! i = Some x →
    ∃ r', x ∈ K r'
          ∧ (r' = r ∨ ∃ j p, j < i ∧ l !! j = Some p ∧ r' = Node.Idx p).
Proof.
  revert r l. induction fuel as [|fuel IH]; intros r l;
    rewrite order_unfold; apply orderList_parent_first; try done.
  intros c l1. apply IH.
Qed.

(** With a depth [d] that grows by one from a node to its children and
    stays below [D], the sequence exists within [D] nested calls. *)
Section depth.
Variables (d : nat → nat) (D : nat).
Hypothesis depth_child :
  ∀ p c, c ∈ K (Node.Idx p) → d c = S (d p) ∧ d c < D.

Lemma order_node_Some fuel p :
  D ≤ fuel + d p + 1 → is_Some (order K fuel (Node.Idx p)).
Proof.
  revert p. induction fuel as [|fuel IH]; intros p Hfuel;
    rewrite order_unfold; apply orderList_Some, Forall_forall;
    intros c [Hc Hlt]%depth_child.
  - lia.
  - apply IH. lia.
Qed.

Lemma order_root_Some fuel :
  (∀ c, c ∈ K Node.Root → d c = 0 ∧ d c < D) → D ≤ fuel →
  is_Some (order K fuel Node.Root).
Proof.
  intros Hroot Hfuel. rewrite order_unfold.
  apply orderList_Some, Forall_forall. intros c [Hc Hlt]%Hroot.
  destruct fuel as [|fuel]; [lia|].
  apply order_node_Some. lia.
Qed.
End depth.
End order.

Section strata.
Variables (g : nat → list nat) (R : list nat) (d : nat → nat).
Hypothesis depth_root : ∀ c, c ∈ R → d c = 0.
Hypothesis depth_child : ∀ p c, c ∈ g p → d c = S (d p).

Lemma filter_all {A} (P : A → Prop) `{!∀ x, Decision (P x)} (l : list A) :
  (∀ x, x ∈ l → P x) → filter P l = l.
Proof.
  induction l as [|x l IH]; intros Hall; [done|].
  rewrite filter_cons, decide_True by (apply Hall; left).
  f_equal. apply IH. intros y Hy. apply Hall. by right.
Qed.

Lemma filter_none {A} (P : A → Prop) `{!∀ x, Decision (P x)} (l : list A) :
  (∀ x, x ∈ l → ¬ P x) → filter P l = [].
Proof.
  induction l as [|x l IH]; intros Hall; [done|].
  rewrite filter_cons, decide_False by (apply Hall; left).
  apply IH. intros y Hy. apply Hall. by right.
Qed.

Lemma filter_level_bind n (l : list nat) :
  filter (λ c, d c = S n) (l ≫= g) = filter (λ x, d x = n) l ≫= g.
Proof.
  induction l as [|x l IH]; [done|].
  cbn [mbind list_bind]. fold (l ≫= g).
  rewrite filter_app, IH, filter_cons.
  destruct (decide (d x = n)) as [Hx|Hx].
  - cbn [mbind list_bind]. f_equal. apply filter_all.
    intros c Hc%depth_child. lia.
  - rewrite filter_none; [done|]. intros c Hc%depth_child. lia.
Qed.

Lemma filter_level0_bind (l : list nat) :
  filter (λ c, d c = 0) (l ≫= g) = [].
Proof.
  apply filter_none. intros c (x & Hc%depth_child & _)%list_elem_of_bind.
  lia.
Qed.

Lemma filter_below_S n (l : list nat) :
  filter (λ x, d x < S n) l
  ≡ₚ filter (λ x, d x < n) l ++ filter (λ x, d x = n) l.
Proof.
  induction l as [|x l IH]; [done|].
  rewrite !filter_cons.
  destruct (decide (d x < n)), (decide (d x = n));
    (rewrite decide_True by lia) || (rewrite decide_False by lia);
    try lia; rewrite IH; [done| |done].
  by rewrite Permutation_middle.
Qed.

Variables (l S : list nat) (D : nat).
Hypothesis l_closed : l ≡ₚ R ++ (l ≫= g).
Hypothesis S_closed : S ≡ₚ R ++ (S ≫= g).
Hypothesis l_bound : ∀ x, x ∈ l → d x < D.
Hypothesis S_bound : ∀ x, x ∈ S → d x < D.

Lemma level_Permutation n :
  filter (λ x, d x = n) l ≡ₚ filter (λ x, d x = n) S.
Proof.
  induction n as [|n IH].
  - rewrite l_closed at 1. rewrite S_closed at 1.
    by rewrite !filter_app, !filter_level0_bind.
  - rewrite l_closed at 1. rewrite S_closed at 1.
    rewrite !filter_app, !filter_level_bind. by rewrite IH.
Qed.

(** Two sequences that hold the same roots and the children of their
    own elements hold the same nodes. *)
Lemma closed_Permutation : l ≡ₚ S.
Proof.
  assert (Hbelow : ∀ n,
    filter (λ x, d x < n) l ≡ₚ filter (λ x, d x < n) S).
  { induction n as [|n IH].
    - rewrite !filter_none; [done|intros; lia..].
    - by rewrite !filter_below_S, IH, level_Permutation. }
  specialize (Hbelow D). by rewrite !filter_all in Hbelow.
Qed.
End strata.

Lemma eq_Permutation_helper {A} (l k : list A) : l = k → l ≡ₚ k.
Proof. by intros ->. Qed.

(** ** The traversal of a well-formed tree *)

Section visit_tree.
Variable file : string.
Variable maps : SkinMaps.
Variable fuel : nat.

Lemma nameOf_set_id k node parentNode this :
  Node.nameOf (Node.set_id k node) parentNode this
  = Node.nameOf node parentNode this.
Proof. by destruct node. Qed.

Lemma describes_nodeAt N G rk s r :
  describes N G rk s → (∀ p, r = Node.Idx p → p < N) →
  Node.get s r = Some (nodeAt G rk r).
Proof.
  intros HG Hr. destruct r as [|p].
  - destruct HG as (Ht & _). simpl. by rewrite Ht.
  - rewrite (describes_get _ _ _ _ _ HG), decide_True; [done|]. by apply Hr.
Qed.

(** One call of the callback on a node whose parent has been visited
    (or is the root) and whose path has not been computed yet. *)
Lemma visit_step N G rk g x r lname suffix :
  describes N G rk (g_store g) → x < N → 1 ≤ fuel →
  Node._path (G x) = None →
  Node.parent (G x) = Some r → r ≠ Node.Idx x →
  (∀ p, r = Node.Idx p → p < N) →
  Node.nameOf (G x) (nodeAt G rk r) (Node.Idx x) = Ok lname →
  match Node.id (nodeAt G rk r) with
  | None => suffix = ""
  | Some _ => ∃ pp, Node._path (nodeAt G rk r) = Some pp
                    ∧ suffix = "<" +:+ pp
  end →
  Node.meshSkin (G x) ≠ Node.MsUndefined →
  (∀ sk, Node.skin (G x) = Some sk → is_Some (skinsJoints maps !! sk)) →
  ∃ g',
    visit file maps fuel x g = Ok g'
    ∧ describes N
        (λ y, if decide (y = x)
              then Node.set_path (Some (lname +:+ suffix))
                     (Node.set_id (Some (g_id g)) (G x))
              else G y)
        rk (g_store g')
    ∧ p_objects (g_project g')
      = <[Js.toString (g_id g) :=
            objectEntry file (lname +:+ suffix)
              (Node.id (nodeAt G rk r)) (G x)]> (p_objects (g_project g))
    ∧ g_id g' = S (g_id g).
Proof.
  intros HG Hx Hfuel Hpath Hpar Hrx Hr Hname Hsuffix Hmesh Hskin.
  unfold visit.
  pose proof (describes_upd _ _ _ _ x (Node.set_id (Some (g_id g))) HG)
    as HG1.
  set (s1 := Node.upd (Node.Idx x) (Node.set_id (Some (g_id g))) (g_store g))
    in *.
  set (node1 := Node.set_id (Some (g_id g)) (G x)).
  assert (Hget1 : Node.get s1 (Node.Idx x) = Some node1).
  { rewrite (describes_get _ _ _ _ _ HG1), decide_True by done.
    by rewrite decide_True. }
  assert (Hgetr : Node.get s1 r = Some (nodeAt G rk r)).
  { unfold s1. rewrite get_upd, decide_False by done.
    by apply (describes_nodeAt N). }
  rewrite Hget1.
  assert (∃ project,
    match Node.skin node1 with
    | Some sk =>
      match skinsJoints maps !! sk with
      | Some key =>
        Ok (set_skins (alter (pushJoint (Js.toString (g_id g))) key)
                      (g_project g))
      | None => Throw TypeError
      end
    | None => Ok (g_project g)
    end = Ok project ∧ p_objects project = p_objects (g_project g))
    as (project & -> & Hobjects).
  { unfold node1. destruct (G x) as [? ? ? ? ? ? [sk|]] eqn:HGx; simpl.
    - destruct (Hskin sk) as [key ->]; [done|]. eexists. split; [done|].
      by destruct (g_project g).
    - by eexists. }
  rewrite bind_Ok.
  assert (Hp : Node.path fuel (Node.Idx x) s1
               = Ok (lname +:+ suffix,
                     Node.upd (Node.Idx x)
                       (Node.set_path (Some (lname +:+ suffix))) s1)).
  { rewrite path_unfold, Hget1.
    replace (Node._path node1) with (@None string)
      by (unfold node1; by destruct (G x)).
    replace (Node.parent node1) with (Some r)
      by (unfold node1; by destruct (G x)).
    rewrite Hgetr. unfold node1. rewrite nameOf_set_id, Hname, bind_Ok.
    destruct (Node.id (nodeAt G rk r)) as [k|].
    - destruct Hsuffix as (pp & Hpp & ->).
      destruct fuel as [|fuel']; [lia|].
      rewrite path_unfold, Hgetr, Hpp. done.
    - by subst suffix. }
  unfold toJson. rewrite Hp, bind_Ok. cbn match.
  rewrite get_upd, decide_True, Hget1 by done. cbn [fmap option_fmap option_map].
  replace (Node.parent (Node.set_path (Some (lname +:+ suffix)) node1))
    with (Some r) by (unfold node1; by destruct (G x)).
  cbn [mbind option_bind].
  rewrite get_upd, decide_False, Hgetr by done.
  assert (∃ components,
    match Node.meshSkin (Node.set_path (Some (lname +:+ suffix)) node1) with
    | Node.MsNull => Ok None
    | Node.MsUndefined => Throw TypeError
    | Node.MsId k => Ok (Some [Js.toString k])
    end = Ok components
    ∧ components = match Node.meshSkin (G x) with
                   | Node.MsId k => Some [Js.toString k]
                   | _ => None
                   end) as (components & -> & ->).
  { unfold node1. destruct (G x) as [? ? ? ? ? [| |k] ?]; simpl in *;
      try done; by eexists. }
  rewrite !bind_Ok. eexists. split_and!; [done|..].
  - cbn [g_store].
    apply (describes_upd _ _ _ _ x
             (Node.set_path (Some (lname +:+ suffix)))) in HG1.
    eapply describes_ext; [|done]. intros y _. cbn beta.
    unfold node1. case_decide; by subst.
  - cbn [g_project]. destruct project. simpl in *. subst.
    unfold objectEntry, node1. do 2 f_equal.
  - done.
Qed.

Lemma nameOf_Ok node parentNode x :
  x ∈ Node.children parentNode →
  ∃ lname, Node.nameOf node parentNode (Node.Idx x) = Ok lname.
Proof.
  intros Hx. unfold Node.nameOf, Node.indexOf.
  destruct (Node.name node); [by eexists|].
  destruct (list_find_elem_of (λ c, c = x) (Node.children parentNode) x)
    as [[k y] ->]; [done|done|]. by eexists.
Qed.

Lemma nameOf_skeleton node node' parentNode parentNode' this :
  skeleton node = skeleton node' → skeleton parentNode = skeleton parentNode' →
  Node.nameOf node parentNode this = Node.nameOf node' parentNode' this.
Proof.
  destruct node, node', parentNode, parentNode'.
  intros H1 H2. cbv in H1, H2. inversion H1. inversion H2. by subst.
Qed.

Lemma skeleton_nodeAt F G rk r :
  (∀ y, skeleton (G y) = skeleton (F y)) →
  skeleton (nodeAt G rk r) = skeleton (nodeAt F rk r).
Proof. intros H. destruct r; [done|apply H]. Qed.

Section loop.
Variables (N : nat) (F : nat → Node.t) (rk : list nat).
Variables (s1 : Node.store) (project : Project) (id0 : nat).
Hypothesis HF : describes N F rk s1.
Hypothesis Hinit : ∀ x, x < N → Node._path (F x) = None.

(** The callback over a sequence without repetition in which every
    node comes after its parent, has a mesh skin that is not [undefined]
    and, as a joint, a skin with a joints array. *)
Lemma visit_loop_on l :
  (l ≠ [] → 1 ≤ fuel) →
  (∀ x, x ∈ l → Node.meshSkin (F x) ≠ Node.MsUndefined) →
  (∀ x sk, x ∈ l → Node.skin (F x) = Some sk →
           is_Some (skinsJoints maps !! sk)) →
  NoDup l → (∀ x, x ∈ l → x < N) →
  (∀ i x, l !! i = Some x →
     ∃ r, Node.parent (F x) = Some r
          ∧ x ∈ Node.children (nodeAt F rk r)
          ∧ r ≠ Node.Idx x
          ∧ ∀ p, r = Node.Idx p → p < N ∧ ∃ j, j < i ∧ l !! j = Some p) →
  ∃ g G,
    forEach (visit file maps fuel) l
      {| g_store := s1; g_project := project; g_id := id0 |} = Ok g
    ∧ describes N G rk (g_store g)
    ∧ g_id g = id0 + length l
    ∧ (∀ y, skeleton (G y) = skeleton (F y))
    ∧ (∀ y, y ∉ l → G y = F y)
    ∧ ∀ i x, l !! i = Some x →
        visitedAt file F G rk id0 (p_objects (g_project g)) i x.
Proof.
  induction l as [|x l IH] using rev_ind;
    intros Hdepth Hmesh Hskin Hnd Hlt Hfirst.
  - exists {| g_store := s1; g_project := project; g_id := id0 |}, F.
    simpl. rewrite Nat.add_0_r. split_and!; try done.
  - apply NoDup_app in Hnd as (Hnd & Hxl & _).
    destruct IH as (g & G & Hloop & HG & Hid & Hskel & Hrest & Hvis).
    { intros _. apply Hdepth. by destruct l. }
    { intros y Hy. apply Hmesh, elem_of_app. by left. }
    { intros y sk Hy. apply Hskin, elem_of_app. by left. }
    { done. }
    { intros y Hy. apply Hlt, elem_of_app. by left. }
    { intros i y Hi. destruct (Hfirst i y) as (r & Hr & Hin & Hne & Hp).
      { by apply lookup_app_l_Some. }
      exists r. split_and!; try done.
      intros p Hrp. destruct (Hp p Hrp) as (HpN & j & Hj & Hjp).
      split; [done|]. exists j. split; [done|].
      apply lookup_lt_Some in Hi.
      rewrite lookup_app_l in Hjp by lia. done. }
    assert (Hx : x ∉ l).
    { intros Hin. apply (Hxl x Hin). left. }
    assert (HxN : x < N) by (apply Hlt, elem_of_app; right; left).
    destruct (Hfirst (length l) x) as (r & Hr & Hin & Hne & Hp).
    { by apply list_lookup_middle. }
    destruct (nameOf_Ok (F x) (nodeAt F rk r) x Hin) as [lname Hname].
    assert (∃ suffix,
      match Node.id (nodeAt G rk r) with
      | None => suffix = ""
      | Some _ => ∃ pp, Node._path (nodeAt G rk r) = Some pp
                        ∧ suffix = "<" +:+ pp
      end
      ∧ match r with
        | Node.Root => suffix = ""
        | Node.Idx p => ∃ pp, Node._path (G p) = Some pp
                              ∧ suffix = "<" +:+ pp
        end) as (suffix & Hsuffix & Hsuffix').
    { destruct r as [|p]; [by exists ""|].
      destruct (Hp p eq_refl) as (HpN & j & Hj & Hjp).
      rewrite lookup_app_l in Hjp by lia.
      destruct (Hvis j p Hjp)
        as (Hidp & rp & lnp & sfp & _ & _ & _ & Hpp & _).
      simpl. rewrite Hidp. eexists. split; eauto. }
    destruct (visit_step N G rk g x r lname suffix)
      as (g' & Hvisit & HG' & Hobjects & Hid'); try done.
    { apply Hdepth. by destruct l. }
    { rewrite Hrest by done. by apply Hinit. }
    { by rewrite Hrest. }
    { intros p Hrp. by apply Hp. }
    { rewrite <- Hname. apply nameOf_skeleton; [apply Hskel|].
      by apply skeleton_nodeAt. }
    { rewrite Hrest by done. apply Hmesh, elem_of_app. right. left. }
    { intros sk. rewrite Hrest by done. apply Hskin, elem_of_app. right. left. }
    eexists g', _. rewrite forEach_app, Hloop, bind_Ok. cbn [forEach].
    rewrite Hvisit, bind_Ok. split_and!; [done|exact HG'|..].
    + rewrite Hid', Hid, length_app. simpl. lia.
    + intros y. cbn beta. case_decide as Hy; [|done].
      subst y. by rewrite skeleton_set_path, skeleton_set_id.
    + intros y Hy. cbn beta. rewrite decide_False.
      * apply Hrest. intros ?. apply Hy, elem_of_app. by left.
      * intros ->. apply Hy, elem_of_app. right. left.
    + assert (Hnode : ∀ r', r' ≠ Node.Idx x →
        nodeAt (λ y, if decide (y = x)
                     then Node.set_path (Some (lname +:+ suffix))
                            (Node.set_id (Some (g_id g)) (G x))
                     else G y) rk r' = nodeAt G rk r').
      { intros [|p] Hp'; [done|]. simpl. rewrite decide_False; [done|].
        congruence. }
      intros i y Hi. apply lookup_snoc_Some in Hi as [[Hi Hy]|[-> <-]].
      * destruct (Hvis i y Hy)
          as (Hidy & ry & ln & sf & Hry & Hln & Hsf & Hpy & Hobj).
        assert (Hyx : y ≠ x).
        { intros ->. apply Hx. by eapply list_elem_of_lookup_2. }
        split; [by rewrite decide_False|].
        exists ry, ln, sf. split_and!; [done|done|..].
        -- destruct ry as [|p]; [done|].
           destruct Hsf as (pp & Hpp & ->). exists pp. split; [|done].
           rewrite decide_False; [done|].
           intros ->. apply Hx.
           destruct (Hfirst i y) as (r' & Hr' & _ & _ & Hp').
           { by apply lookup_app_l_Some. }
           rewrite Hry in Hr'. simplify_eq.
           destruct (Hp' x eq_refl) as (_ & j & Hj & Hjx).
           rewrite lookup_app_l in Hjx by lia.
           by eapply list_elem_of_lookup_2.
        -- by rewrite decide_False.
        -- rewrite Hobjects, lookup_insert_ne.
           ++ rewrite Hobj. do 2 f_equal. rewrite Hnode; [done|].
              intros ->.
              destruct (Hfirst i y) as (r' & Hr' & _ & _ & Hp').
              { by apply lookup_app_l_Some. }
              rewrite Hry in Hr'. simplify_eq.
              destruct (Hp' x eq_refl) as (_ & j & Hj & Hjx).
              rewrite lookup_app_l in Hjx by lia.
              apply Hx. by eapply list_elem_of_lookup_2.
           ++ intros ?%(inj Js.toString). lia.
      * split; [by rewrite decide_True, Hid|].
        exists r, lname, suffix. split_and!; [done|done|..].
        -- destruct r as [|p]; [done|].
           destruct Hsuffix' as (pp & Hpp & ->). exists pp. split; [|done].
           rewrite decide_False; [done|]. congruence.
        -- by rewrite decide_True.
        -- rewrite Hnode, Hobjects, Hid, lookup_insert_eq by done.
           by rewrite (Hrest x Hx).
Qed.

Hypothesis Hfuel : N ≤ fuel.
Hypothesis Hmesh : ∀ x, x < N → Node.meshSkin (F x) ≠ Node.MsUndefined.
Hypothesis Hskin :
  ∀ x sk, x < N → Node.skin (F x) = Some sk →
          is_Some (skinsJoints maps !! sk).

(** The same, when every node qualifies and the call depth covers all
    nodes. *)
Lemma visit_loop l :
  NoDup l → (∀ x, x ∈ l → x < N) →
  (∀ i x, l !! i = Some x →
     ∃ r, Node.parent (F x) = Some r
          ∧ x ∈ Node.children (nodeAt F rk r)
          ∧ r ≠ Node.Idx x
          ∧ ∀ p, r = Node.Idx p → p < N ∧ ∃ j, j < i ∧ l !! j = Some p) →
  ∃ g G,
    forEach (visit file maps fuel) l
      {| g_store := s1; g_project := project; g_id := id0 |} = Ok g
    ∧ describes N G rk (g_store g)
    ∧ g_id g = id0 + length l
    ∧ (∀ y, skeleton (G y) = skeleton (F y))
    ∧ (∀ y, y ∉ l → G y = F y)
    ∧ ∀ i x, l !! i = Some x →
        visitedAt file F G rk id0 (p_objects (g_project g)) i x.
Proof.
  intros Hnd Hlt Hfirst. apply visit_loop_on; try done.
  - destruct l as [|x l']; [done|]. intros _.
    pose proof (Hlt x (list_elem_of_here x l')). lia.
  - intros x Hx. by apply Hmesh, Hlt.
  - intros x sk Hx. by apply Hskin, Hlt.
Qed.
End loop.
End visit_tree.

(** ** Well-formed inputs give a tree *)

Section wellFormed.
Variable ns : list NodeIn.
Hypothesis Hlt : Forall (λ c, c < length ns) (listed ns).
Hypothesis Hnd : NoDup (listed ns).

Lemma depthIn_lt fuel c k : depthIn ns fuel c = Some k → k < fuel.
Proof.
  revert c k. induction fuel as [|fuel IH]; intros c k; simpl; [done|].
  destruct (parentIn ns c) as [p|]; [|intros [= <-]; lia].
  destruct (depthIn ns fuel p) as [k'|] eqn:Hp; simpl; [|done].
  intros [= <-]. apply IH in Hp. lia.
Qed.

Lemma depthIn_mono fuel fuel' c k :
  depthIn ns fuel c = Some k → fuel ≤ fuel' → depthIn ns fuel' c = Some k.
Proof.
  revert fuel' c k. induction fuel as [|fuel IH]; intros fuel' c k; simpl;
    [done|].
  intros H Hle. destruct fuel' as [|fuel']; [lia|]. simpl.
  destruct (parentIn ns c) as [p|]; [|done].
  destruct (depthIn ns fuel p) as [k'|] eqn:Hp; simpl in H; [|done].
  rewrite (IH fuel' p k') by (done || lia). done.
Qed.

Lemma parentIn_None c : c ∉ listed ns → parentIn ns c = None.
Proof.
  intros Hc. unfold parentIn.
  destruct (list_find _ ns) as [[p n]|] eqn:Hfind; [|done].
  apply list_find_Some in Hfind as (Hp & Hin & _).
  destruct Hc. apply list_elem_of_bind. exists n. split; [done|].
  by eapply list_elem_of_lookup_2.
Qed.

Lemma parentIn_Some c p : c ∈ kidsIn ns p → parentIn ns c = Some p.
Proof.
  intros Hc. unfold kidsIn in Hc.
  destruct (ns !! p) as [n|] eqn:Hp; simpl in Hc;
    [|by apply elem_of_nil in Hc].
  unfold parentIn.
  destruct (list_find (λ n, c ∈ default [] (nd_children n)) ns)
    as [[p' n']|] eqn:Hfind.
  - apply list_find_Some in Hfind as (Hp' & Hin' & _). simpl. f_equal.
    destruct (decide (p' = p)) as [|Hne]; [done|]. exfalso.
    by eapply (NoDup_bind_disjoint _ ns p' p n' n c Hnd).
  - apply list_find_None in Hfind. rewrite Forall_forall in Hfind.
    destruct (Hfind n); [by eapply list_elem_of_lookup_2|done].
Qed.

Lemma kidsIn_lt p c : c ∈ kidsIn ns p → c < length ns ∧ p < length ns.
Proof.
  intros Hc. split.
  - rewrite Forall_forall in Hlt. by eapply Hlt, kidsIn_listed.
  - unfold kidsIn in Hc. destruct (ns !! p) eqn:Hp.
    + by eapply lookup_lt_Some.
    + by apply elem_of_nil in Hc.
Qed.

Lemma bind_seq_kidsIn (l : list NodeIn) :
  seq 0 (length l) ≫= kidsIn l = listed l.
Proof.
  induction l as [|x l IH] using rev_ind; [done|].
  rewrite length_app, listed_snoc. simpl.
  rewrite Nat.add_1_r, seq_S, bind_app. simpl. rewrite app_nil_r.
  f_equal.
  - rewrite <- IH. apply Forall_bind_ext, Forall_forall.
    intros p Hp%elem_of_seq. rewrite kidsIn_snoc, decide_False by lia.
    by rewrite app_nil_r.
  - rewrite kidsIn_snoc, decide_True by lia.
    unfold kidsIn. by rewrite (lookup_ge_None_2 l).
Qed.

Lemma orphans_listed_Permutation :
  orphansOf ns ++ listed ns ≡ₚ seq 0 (length ns).
Proof.
  pose proof Hlt as Hlt'. rewrite Forall_forall in Hlt'.
  etrans; [|apply (filter_app_complement (λ o, o ∉ listed ns))].
  unfold orphansOf. f_equiv.
  apply NoDup_Permutation; [done|apply NoDup_filter, NoDup_seq|].
  intros x. rewrite list_elem_of_filter, elem_of_seq. split.
  - intros Hx. split; [by intros []|]. specialize (Hlt' x Hx). lia.
  - intros [Hx _]. by destruct (decide (x ∈ listed ns)).
Qed.

Variable maps : SkinMaps.

Lemma unlinked_fields (a b : Node.t) :
  unlinked a = unlinked b →
  Node.name a = Node.name b ∧ Node._path a = Node._path b
  ∧ Node.id a = Node.id b ∧ Node.meshSkin a = Node.meshSkin b
  ∧ Node.skin a = Node.skin b.
Proof. destruct a, b. intros H. cbv in H. by inversion H. Qed.

(** When no index is listed twice, [buildTree] returns consistent
    links. *)
Lemma buildTree_linked :
  ∃ s F,
    buildTree maps ns = Ok s
    ∧ describes (length ns) F (sort (orphansOf ns)) s
    ∧ linked (length ns) F (sort (orphansOf ns))
    ∧ ∀ i n, ns !! i = Some n →
        unlinked (F i) = unlinked (decorate maps i n (Node.new false))
        ∧ Node.children (F i) = kidsIn ns i.
Proof.
  destruct (buildTree_spec maps ns Hlt) as (s & F & Hbuild & HF & Hprops).
  exists s, F. split_and!; [done|done| |].
  - split_and!.
    + assert (seq 0 (length ns) ≫= (λ p, Node.children (F p))
              = seq 0 (length ns) ≫= kidsIn ns) as ->.
      { apply Forall_bind_ext, Forall_forall. intros p Hp%elem_of_seq.
        destruct (lookup_lt_is_Some_2 ns p) as [n Hn]; [lia|].
        by destruct (Hprops p n Hn) as (_ & -> & _). }
      unfold sort. rewrite merge_sort_Permutation, bind_seq_kidsIn.
      apply orphans_listed_Permutation.
    + intros c [Hc Hnot]%elem_of_sort%elem_of_orphansOf.
      destruct (lookup_lt_is_Some_2 ns c) as [n Hn]; [lia|].
      destruct (Hprops c n Hn) as (_ & _ & Hroot & _).
      by apply Hroot.
    + intros p c Hp Hc.
      destruct (lookup_lt_is_Some_2 ns p) as [n Hn]; [lia|].
      destruct (Hprops p n Hn) as (_ & Hch & _). rewrite Hch in Hc.
      destruct (kidsIn_lt p c Hc) as [HcN _].
      destruct (lookup_lt_is_Some_2 ns c) as [nc Hnc]; [lia|].
      destruct (Hprops c nc Hnc) as (_ & _ & _ & Hlisted).
      destruct Hlisted as (p' & Hpar & Hc'); [by eapply kidsIn_listed|].
      rewrite Hpar. do 2 f_equal.
      apply parentIn_Some in Hc, Hc'. congruence.
  - intros i n Hn. by destruct (Hprops i n Hn) as (-> & -> & _).
Qed.

Hypothesis Hacyc : acyclic ns.

Lemma depthOf_lt c : c < length ns → depthOf ns c < length ns.
Proof.
  intros Hc. pose proof Hacyc as Hacyc'.
  unfold acyclic in Hacyc'. rewrite Forall_forall in Hacyc'.
  destruct (Hacyc' c) as [k Hk]; [apply elem_of_seq; lia|].
  unfold depthOf. rewrite Hk. simpl. by eapply depthIn_lt.
Qed.

Lemma depthOf_orphan c : c < length ns → c ∉ listed ns → depthOf ns c = 0.
Proof.
  intros Hc Hnot. unfold depthOf.
  destruct (length ns) as [|N]; [lia|]. simpl.
  by rewrite parentIn_None.
Qed.

Lemma depthOf_child p c :
  c ∈ kidsIn ns p → depthOf ns c = S (depthOf ns p).
Proof.
  intros Hc. destruct (kidsIn_lt p c Hc) as [HcN HpN].
  pose proof Hacyc as Hacyc'.
  unfold acyclic in Hacyc'. rewrite Forall_forall in Hacyc'.
  destruct (Hacyc' c) as [k Hk]; [apply elem_of_seq; lia|].
  unfold depthOf. rewrite Hk.
  destruct (length ns) as [|N] eqn:HN; [lia|]. simpl in Hk.
  rewrite (parentIn_Some c p Hc) in Hk.
  destruct (depthIn ns N p) as [k'|] eqn:Hp; simpl in Hk; [|done].
  simplify_eq. rewrite (depthIn_mono N (S N) p k') by (done || lia).
  done.
Qed.

(** For a well-formed node list, [buildTree] returns a tree. *)
Lemma buildTree_treeInv :
  ∃ s F,
    buildTree maps ns = Ok s
    ∧ describes (length ns) F (sort (orphansOf ns)) s
    ∧ treeInv (length ns) F (sort (orphansOf ns)) (depthOf ns)
    ∧ ∀ i n, ns !! i = Some n →
        unlinked (F i) = unlinked (decorate maps i n (Node.new false)).
Proof.
  destruct buildTree_linked as (s & F & Hbuild & HF & Hlinked & Hprops).
  exists s, F. split_and!; [done|done| |].
  - split; [done|]. split.
    + intros c [Hc Hnot]%elem_of_sort%elem_of_orphansOf.
      by apply depthOf_orphan.
    + intros p c Hp Hc.
      destruct (lookup_lt_is_Some_2 ns p) as [n Hn]; [lia|].
      destruct (Hprops p n Hn) as (_ & Hch). rewrite Hch in Hc.
      by apply depthOf_child.
  - intros i n Hn. by destruct (Hprops i n Hn) as (-> & _).
Qed.
End wellFormed.

Section tree_wf.
Variables (file : string) (maps : SkinMaps) (fuel : nat).
Variables (ns : list NodeIn) (json : Gltf) (project : Project) (id0 : nat).
Hypothesis Hnodes : nodes json = Some ns.
Hypothesis Hwf : wellFormed ns.
Hypothesis Hfuel : length ns ≤ fuel.
Hypothesis Hmesh :
  ∀ i n, ns !! i = Some n → meshSkinOf maps n ≠ Node.MsUndefined.
Hypothesis Hjoints :
  ∀ j sk, jointIdxs maps !! j = Some sk → is_Some (skinsJoints maps !! sk).

Lemma visit_kids c (g g' : TreeState) :
  visit file maps fuel c g = Ok g' →
  ∀ r, Node.children_of (g_store g') r = Node.children_of (g_store g) r.
Proof.
  intros (_ & Hskel & _)%visit_inv r. by apply sameSkeleton_children.
Qed.

Lemma describes_kids N F rk s p :
  describes N F rk s →
  Node.children_of s (Node.Idx p)
  = if decide (p < N) then Node.children (F p) else [].
Proof.
  intros HF. unfold Node.children_of.
  rewrite (describes_get _ _ _ _ _ HF). by case_decide.
Qed.

(** The traversal of the tree of a well-formed node list: it returns,
    it visits every node exactly once, each after its parent, and it
    leaves the ids, paths and objects that [visitedAt] describes. *)
Lemma genTree_wf :
  ∃ s0 F l g G,
    buildTree maps ns = Ok s0
    ∧ describes (length ns) F (sort (orphansOf ns)) (Node.reverse Node.Root s0)
    ∧ treeInv (length ns) F (sort (orphansOf ns)) (depthOf ns)
    ∧ (∀ i n, ns !! i = Some n →
         unlinked (F i) = unlinked (decorate maps i n (Node.new false)))
    ∧ order (Node.children_of (Node.reverse Node.Root s0)) fuel Node.Root
      = Some l
    ∧ l ≡ₚ seq 0 (length ns)
    ∧ genTree file fuel maps json (project, id0) = Ok g
    ∧ describes (length ns) G (sort (orphansOf ns)) (g_store g)
    ∧ g_id g = id0 + length ns
    ∧ (∀ y, skeleton (G y) = skeleton (F y))
    ∧ ∀ i x, l !! i = Some x →
        visitedAt file F G (sort (orphansOf ns)) id0
                  (p_objects (g_project g)) i x.
Proof.
  set (N := length ns). set (rk := sort (orphansOf ns)).
  destruct Hwf as (Hwf1 & Hwf2 & Hwf3).
  destruct (buildTree_treeInv ns Hwf1 Hwf2 maps Hwf3)
    as (s0 & F0 & Hbuild & HF0 & Hinv0 & Hfields0).
  destruct (reverse_spec N F0 rk s0 HF0)
    as (F & HF & Hu & _ & _ & _ & Hinv).
  { eapply linked_root_NoDup, Hinv0. }
  { apply Forall_forall. intros c Hc. eapply linked_root_lt; [apply Hinv0|done]. }
  specialize (Hinv _ Hinv0).
  set (s1 := Node.reverse Node.Root s0) in *.
  set (K := Node.children_of s1).
  assert (HKroot : K Node.Root = rk) by (by eapply describes_root).
  assert (HKidx : ∀ p, K (Node.Idx p)
                       = if decide (p < N) then Node.children (F p) else [])
    by (intros p; by eapply describes_kids).
  assert (Hfields : ∀ i n, ns !! i = Some n →
            unlinked (F i) = unlinked (decorate maps i n (Node.new false))).
  { intros i n Hn. rewrite Hu. by apply Hfields0. }
  assert (Hdepth : ∀ p c, c ∈ K (Node.Idx p) →
            depthOf ns c = S (depthOf ns p) ∧ depthOf ns c < N).
  { intros p c. rewrite HKidx. case_decide as Hp; [|by intros ?%elem_of_nil].
    intros Hc. pose proof Hinv as (_ & _ & Hchild).
    pose proof (Hchild p c Hp Hc) as Hd. split; [done|].
    apply depthOf_lt; [done..|]. by eapply (linked_child_lt N F rk (proj1 Hinv)). }
  assert (Hroot : ∀ c, c ∈ K Node.Root →
            depthOf ns c = 0 ∧ depthOf ns c < N).
  { intros c. rewrite HKroot. intros Hc. pose proof Hinv as (_ & Hr & _).
    pose proof (Hr c Hc) as Hd. split; [done|].
    apply depthOf_lt; [done..|]. by eapply (linked_root_lt N F rk (proj1 Hinv)). }
  destruct (order_root_Some K (depthOf ns) N Hdepth fuel Hroot Hfuel)
    as [l Hl].
  assert (Hlt : ∀ x, x ∈ l → x < N).
  { intros x Hx. apply list_elem_of_lookup in Hx as [i Hi].
    destruct (order_parent_first K fuel _ l Hl i x Hi) as (r & Hxr & _).
    destruct r as [|p].
    - rewrite HKroot in Hxr. by eapply (linked_root_lt N F rk (proj1 Hinv)).
    - rewrite HKidx in Hxr. case_decide; [|by apply elem_of_nil in Hxr].
      by eapply (linked_child_lt N F rk (proj1 Hinv)). }
  assert (Hperm : l ≡ₚ seq 0 N).
  { apply (closed_Permutation (λ x, K (Node.Idx x)) rk (depthOf ns))
      with (D := N).
    - intros p c Hc. by apply Hdepth.
    - rewrite <- HKroot. by eapply order_Permutation.
    - pose proof Hinv as ((Hp & _) & _). rewrite <- Hp at 1. f_equiv.
      apply eq_Permutation_helper. apply Forall_bind_ext, Forall_forall.
      intros p Hp'%elem_of_seq. rewrite HKidx, decide_True by lia. done.
    - intros x Hx. apply depthOf_lt; [done..|]. by apply Hlt.
    - intros x Hx%elem_of_seq. apply depthOf_lt; [done..|]. lia. }
  exists s0, F, l.
  destruct (visit_loop file maps fuel N F rk s1 project id0 HF)
    with (l := l) as (g & G & Hloop & HG & Hid & Hskel & _ & Hvis).
  { intros x Hx.
    destruct (lookup_lt_is_Some_2 ns x) as [n Hn]; [done|].
    apply Hfields, unlinked_fields in Hn as (_ & -> & _). done. }
  { exact Hfuel. }
  { intros x Hx.
    destruct (lookup_lt_is_Some_2 ns x) as [n Hn]; [done|].
    pose proof (Hmesh x n Hn) as Hm.
    apply Hfields, unlinked_fields in Hn as (_ & _ & _ & -> & _).
    unfold decorate, meshSkinOf in *. simpl.
    by destruct (nd_skin n). }
  { intros x sk Hx.
    destruct (lookup_lt_is_Some_2 ns x) as [n Hn]; [done|].
    apply Hfields, unlinked_fields in Hn as (_ & _ & _ & _ & ->).
    unfold decorate. simpl.
    destruct (jointIdxs maps !! x) as [sk'|] eqn:Hsk; [|done].
    intros [= <-]. by eapply Hjoints. }
  { rewrite Hperm. apply NoDup_seq. }
  { done. }
  { intros i x Hi.
    destruct (order_parent_first K fuel _ l Hl i x Hi) as (r & Hxr & Hr).
    assert (Hpar : Node.parent (F x) = Some r
                   ∧ x ∈ Node.children (nodeAt F rk r)
                   ∧ ∀ p, r = Node.Idx p → p < N).
    { pose proof Hinv as ((_ & Hroot' & Hchild) & _). destruct r as [|p].
      - rewrite HKroot in Hxr. split_and!; [by apply Hroot'|done|done].
      - rewrite HKidx in Hxr.
        case_decide as Hp; [|by apply elem_of_nil in Hxr].
        split_and!; [by apply Hchild|done|by intros ? [= <-]]. }
    destruct Hpar as (Hpar & Hin & HrN).
    exists r. split_and!; [done|done|..].
    - intros ->. apply Hdepth in Hxr as [Hd _]. lia.
    - intros p ->. split; [by apply HrN|].
      destruct Hr as [|(j & p' & Hj & Hp' & [= <-])]; [done|]. eauto. }
  exists g, G. split_and!; try done.
  - unfold genTree. rewrite Hnodes, Hbuild, bind_Ok. cbn [fst snd].
    rewrite (dfs_forEach _ _ visit_kids K fuel Node.Root l); done.
  - rewrite Hid, Hperm. by rewrite length_seq.
Qed.
End tree_wf.

(** ** Orphan order *)

Section orphans.
Variable maps : SkinMaps.

Lemma buildTree_in_range ns s :
  buildTree maps ns = Ok s → Forall (λ c, c < length ns) (listed ns).
Proof.
  intros Hbuild.
  destruct (decide (Forall (λ c, c < length ns) (listed ns))) as [|Hno];
    [done|].
  by rewrite (buildTree_throw maps ns Hno) in Hbuild.
Qed.

(** The root receives the orphans in the order of [sort], which is the
    order of their decimal strings. *)
Lemma buildTree_root_children ns s :
  buildTree maps ns = Ok s →
  Node.children_of s Node.Root = sort (orphansOf ns).
Proof.
  intros Hbuild.
  destruct (buildTree_spec maps ns (buildTree_in_range ns s Hbuild))
    as (s' & F & Hbuild' & HF & _).
  rewrite Hbuild in Hbuild'. simplify_eq. by eapply describes_root.
Qed.

End orphans.

(** C2 (the code departs from the claim).  Eleven nodes without children
    are eleven orphans, [0] to [10]; [orphansOrdered.sort()] orders them
    as strings, so the root receives them as [0, 1, 10, 2, ..., 9] and not
    by ascending index. *)
Theorem buildTree_orphans_string_order :
  orphansOf nodes11 = [0; 1; 2; 3; 4; 5; 6; 7; 8; 9; 10]
  ∧ (s ← buildTree noSkinMaps nodes11; Ok (Node.children_of s Node.Root))
    = Ok [0; 1; 10; 2; 3; 4; 5; 6; 7; 8; 9].
Proof. split; vm_compute; reflexivity. Qed.

(** ** The one-level transform *)

Section transform.
Variable maps : SkinMaps.

Lemma orphans_NoDup ns : NoDup (sort (orphansOf ns)).
Proof.
  unfold sort. rewrite merge_sort_Permutation.
  apply NoDup_filter, NoDup_seq.
Qed.

Lemma orphans_lt ns : Forall (λ c, c < length ns) (sort (orphansOf ns)).
Proof.
  apply Forall_forall. intros c Hc%elem_of_sort%elem_of_orphansOf. lia.
Qed.

(** The stores before and after [tree.reverse()], for any node list
    that [buildTree] accepts. *)
Lemma buildTree_reverse ns s0 :
  buildTree maps ns = Ok s0 →
  ∃ F0 F1,
    describes (length ns) F0 (sort (orphansOf ns)) s0
    ∧ describes (length ns) F1 (sort (orphansOf ns))
        (Node.reverse Node.Root s0)
    ∧ (∀ i n, ns !! i = Some n →
         unlinked (F0 i) = unlinked (decorate maps i n (Node.new false))
         ∧ Node.children (F0 i) = kidsIn ns i)
    ∧ (∀ x, unlinked (F1 x) = unlinked (F0 x))
    ∧ (∀ p c c', sort (orphansOf ns) !! p = Some c →
         sort (orphansOf ns) !! (length (sort (orphansOf ns)) - 1 - p)
           = Some c' →
         Node.children (F1 c) = Node.children (F0 c'))
    ∧ (∀ x, x ∉ sort (orphansOf ns) →
         Node.children (F1 x) = Node.children (F0 x)).
Proof.
  intros Hbuild.
  destruct (buildTree_spec maps ns (buildTree_in_range maps ns s0 Hbuild))
    as (s & F0 & Hbuild' & HF0 & Hprops).
  rewrite Hbuild in Hbuild'. simplify_eq.
  destruct (reverse_spec _ F0 _ s HF0 (orphans_NoDup ns) (orphans_lt ns))
    as (F1 & HF1 & Hu & Hmirror & Hother & _).
  exists F0, F1. split_and!; try done.
  intros i n Hn. by destruct (Hprops i n Hn) as (? & ? & _).
Qed.
End transform.

(** C1 (refuted as stated).  With the root children [A, B, C, D], where
    [A] has the children [a1], [a2] and [D] the child [d1], the root's
    child list is [A, B, C, D] after [reverse] as before, not
    [D, C, B, A]; what changes places is the child arrays: [A] holds
    [d1] and [D] holds [a1], [a2]. *)
Lemma reverse_keeps_root_children :
  (s ← buildTree noSkinMaps nodesABCD; Ok (Node.children_of s Node.Root))
    = Ok [0; 1; 2; 3]
  ∧ (s ← buildTree noSkinMaps nodesABCD;
     Ok (Node.children_of (Node.reverse Node.Root s) Node.Root))
    ≠ Ok [3; 2; 1; 0]
  ∧ (s ← buildTree noSkinMaps nodesABCD;
     Ok (Node.children_of (Node.reverse Node.Root s) <$>
           [Node.Root; Node.Idx 0; Node.Idx 3]))
    = Ok [[0; 1; 2; 3]; [6]; [4; 5]].
Proof. split_and!; vm_compute; [reflexivity|discriminate|reflexivity]. Qed.

(** C1 (amended).  [reverse] leaves the root's own child list as it is.
    It exchanges the child arrays of the root children at mirrored
    positions, each array keeping its order; the nodes that are not root
    children keep their child arrays, so one level only is touched; no
    other field of a node changes; and, when no index is listed twice as a
    child, every node in a child array has as parent the node that holds
    that array. *)
Theorem reverse_exchanges_child_arrays maps ns s :
  buildTree maps ns = Ok s →
  let s' := Node.reverse Node.Root s in
  let rk := Node.children_of s Node.Root in
  Node.children_of s' Node.Root = rk
  ∧ (∀ p c c', rk !! p = Some c → rk !! (length rk - 1 - p) = Some c' →
       Node.children_of s' (Node.Idx c) = Node.children_of s (Node.Idx c'))
  ∧ (∀ x, x ∉ rk →
       Node.children_of s' (Node.Idx x) = Node.children_of s (Node.Idx x))
  ∧ (∀ x, unlinked <$> Node.get s' (Node.Idx x)
          = unlinked <$> Node.get s (Node.Idx x))
  ∧ (NoDup (listed ns) →
     ∀ r c, c ∈ Node.children_of s' r →
       ∃ node, Node.get s' (Node.Idx c) = Some node
               ∧ Node.parent node = Some r).
Proof.
  intros Hbuild s' rk.
  destruct (buildTree_reverse maps ns s Hbuild)
    as (F0 & F1 & HF0 & HF1 & _ & Hu & Hmirror & Hother).
  pose proof (orphans_lt ns) as Hlt. rewrite Forall_forall in Hlt.
  assert (rk = sort (orphansOf ns)) as Hrk by by eapply describes_root.
  subst s'. rewrite Hrk. clear Hrk rk.
  split_and!.
  - by eapply describes_root.
  - intros p c c' Hp Hp'.
    rewrite (describes_children _ _ _ _ c HF1),
      (describes_children _ _ _ _ c' HF0).
    + by eapply Hmirror.
    + by eapply Hlt, list_elem_of_lookup_2.
    + by eapply Hlt, list_elem_of_lookup_2.
  - intros x Hx. unfold Node.children_of.
    rewrite (describes_get _ _ _ _ x HF1), (describes_get _ _ _ _ x HF0).
    case_decide; simpl; [by apply Hother|done].
  - intros x.
    rewrite (describes_get _ _ _ _ x HF1), (describes_get _ _ _ _ x HF0).
    case_decide; simpl; [by rewrite Hu|done].
  - intros Hnd.
    destruct (buildTree_linked ns (buildTree_in_range maps ns s Hbuild) Hnd
                maps) as (s0 & G0 & Hbuild' & HG0 & Hlinked & _).
    rewrite Hbuild in Hbuild'. simplify_eq.
    destruct (reverse_spec _ G0 _ s0 HG0 (orphans_NoDup ns) (orphans_lt ns))
      as (G1 & HG1 & _ & _ & _ & Hlinked' & _).
    specialize (Hlinked' Hlinked).
    pose proof Hlinked' as (_ & Hroot & Hchild).
    intros [|p] c Hc.
    + rewrite (describes_root _ _ _ _ HG1) in Hc. exists (G1 c).
      rewrite (describes_get _ _ _ _ c HG1), decide_True by by apply Hlt.
      split; [done|by apply Hroot].
    + unfold Node.children_of in Hc.
      rewrite (describes_get _ _ _ _ p HG1) in Hc.
      case_decide as Hp; simpl in Hc; [|by apply elem_of_nil in Hc].
      exists (G1 c).
      rewrite (describes_get _ _ _ _ c HG1), decide_True
        by by eapply (linked_child_lt _ G1 _ Hlinked' p).
      split; [done|by apply Hchild].
Qed.

Lemma reverse_exchanges_child_arrays_witness :
  ∃ s, buildTree noSkinMaps nodesABCD = Ok s
       ∧ Node.children_of (Node.reverse Node.Root s) Node.Root
         = Node.children_of s Node.Root.
Proof.
  eexists. split; [vm_compute; reflexivity|].
  refine (proj1 (reverse_exchanges_child_arrays noSkinMaps nodesABCD _ _)).
  vm_compute. reflexivity.
Defined.

(** ** The phases of [legacyGenerateProject] *)

Section phases.
Variable file : string.
Variable ratio : Qc.

Lemma added_nothing {V} (P : V → Prop) lo (m m' : gmap string V) :
  added P lo 0 m m' → m' = m.
Proof.
  intros [_ Hold]. apply map_eq. intros key. apply Hold. intros k ?. lia.
Qed.

Lemma added_weaken {V} (P Q : V → Prop) lo n (m m' : gmap string V) :
  (∀ v, P v → Q v) → added P lo n m m' → added Q lo n m m'.
Proof.
  intros HPQ [Hnew Hold]. split; [|done].
  intros k Hk. destruct (Hnew k Hk) as (v & ? & ?). eauto.
Qed.

(** Every number below [distinctSources l] is the number of distinct
    sources before some first occurrence. *)
Lemma distinctSources_first_at l k :
  k < distinctSources l →
  ∃ i t, l !! i = Some t ∧ (tex_source t ∉ tex_source <$> take i l)
         ∧ distinctSources (take i l) = k.
Proof.
  induction l as [|t l IH] using rev_ind; intros Hk.
  { assert (distinctSources [] = 0) as Hz by (vm_compute; reflexivity).
    rewrite Hz in Hk. lia. }
  rewrite distinctSources_snoc in Hk.
  assert (k < distinctSources l
          ∨ (k = distinctSources l ∧ tex_source t ∉ (tex_source <$> l)))
    as [Hlt|[-> Hnew]].
  { case_decide; [by left|].
    destruct (decide (k = distinctSources l)); [by right|].
    left. lia. }
  - destruct (IH Hlt) as (i & t' & Hi & Hnew & Hd).
    pose proof (lookup_lt_Some _ _ _ Hi) as Hlen.
    exists i, t'. rewrite lookup_app_l by done.
    rewrite take_app_le by lia. done.
  - exists (length l), t.
    rewrite lookup_app_r, Nat.sub_diag by lia.
    rewrite take_app_length. done.
Qed.

Lemma genImages_spec json project id :
  ∃ project',
    genImages file json (project, id) = (project', id + count (images json))
    ∧ project' = set_images (λ _, p_images project') project
    ∧ added isGen id (count (images json))
            (p_images project) (p_images project').
Proof.
  unfold genImages, count. destruct (images json) as [l|]; simpl.
  - destruct (imagesBody_loop file project id 0 l)
      as (project' & num' & -> & ? & ?). by exists project'.
  - exists project. rewrite Nat.add_0_r.
    split_and!; [done|by destruct project|apply added_zero].
Qed.

Lemma genTextures_spec json project id :
  ∃ project',
    genTextures file json (project, id)
    = (project', id + distinctSources (default [] (textures json)))
    ∧ project' = set_textures (λ _, p_textures project') project
    ∧ added isGen id (distinctSources (default [] (textures json)))
            (p_textures project) (p_textures project').
Proof.
  unfold genTextures. destruct (textures json) as [l|]; simpl.
  - destruct (texturesBody_loop file project id l)
      as (project' & -> & ? & Hnew & Hold).
    exists project'. split_and!; [done|done|]. split; [|done].
    intros k Hk.
    destruct (distinctSources_first_at l (k - id)) as (i & t & Hi & Ht & Hd);
      [lia|].
    eexists. split; [|by eexists].
    replace k with (id + distinctSources (take i l)) by lia.
    by eapply Hnew.
  - exists project.
    assert (distinctSources [] = 0) as -> by (vm_compute; reflexivity).
    rewrite Nat.add_0_r.
    split_and!; [done|by destruct project|apply added_zero].
Qed.

Lemma genMaterials_spec json project id :
  ∃ project',
    genMaterials file json (project, id)
    = (project', id + count (materials json))
    ∧ project' = set_materials (λ _, p_materials project') project
    ∧ added isGen id (count (materials json))
            (p_materials project) (p_materials project').
Proof.
  unfold genMaterials, count. destruct (materials json) as [l|]; simpl.
  - destruct (materialsBody_loop file project id 0 l)
      as (project' & num' & -> & ? & ?). by exists project'.
  - exists project. rewrite Nat.add_0_r.
    split_and!; [done|by destruct project|apply added_zero].
Qed.

Lemma genMeshes_spec json project id :
  ∃ project',
    genMeshes file ratio json (project, id)
    = (project', id + count (meshes json))
    ∧ project' = set_meshes (λ _, p_meshes project') project
    ∧ added isGen id (count (meshes json))
            (p_meshes project) (p_meshes project').
Proof.
  unfold genMeshes, count. destruct (meshes json) as [l|]; simpl.
  - destruct (meshesBody_loop file ratio project id 0 l)
      as (project' & num' & -> & ? & ?). by exists project'.
  - exists project. rewrite Nat.add_0_r.
    split_and!; [done|by destruct project|apply added_zero].
Qed.

Lemma genAnimations_spec json project id :
  ∃ project',
    genAnimations file json (project, id)
    = (project', id + count (animations json))
    ∧ project' = set_animations (λ _, p_animations project') project
    ∧ added (λ _, True) id (count (animations json))
            (p_animations project) (p_animations project').
Proof.
  unfold genAnimations, count. destruct (animations json) as [l|]; simpl.
  - destruct (animationsBody_loop file project id 0 l)
      as (project' & num' & -> & ? & ?). by exists project'.
  - exists project. rewrite Nat.add_0_r.
    split_and!; [done|by destruct project|apply added_zero].
Qed.

Lemma genSkins_spec json project id :
  ∃ project' maps,
    genSkins file json (project, id)
    = (project', id + count (skins json), maps)
    ∧ project' = set_skins (λ _, p_skins project') project
    ∧ added (λ e, s_joints e = []) id (count (skins json))
            (p_skins project) (p_skins project')
    ∧ (∀ k, skinsMap maps !! k
            = if decide (k < count (skins json)) then Some (id + k)
              else None)
    ∧ (∀ sid, skinsJoints maps !! sid
              = if decide (id ≤ sid < id + count (skins json))
                then Some (Js.toString sid) else None)
    ∧ (∀ j sid, jointIdxs maps !! j = Some sid →
                id ≤ sid < id + count (skins json)).
Proof.
  unfold genSkins, count. destruct (skins json) as [l|]; simpl.
  - destruct (skinsBody_loop file project id l)
      as (project' & num' & maps & -> & ? & ? & ? & ? & ?).
    by exists project', maps.
  - exists project, noSkinMaps. rewrite Nat.add_0_r.
    split_and!; [done|by destruct project|apply added_zero|..].
    + done.
    + intros sid. by rewrite decide_False by lia.
    + intros j sid Hj. cbn in Hj. by rewrite lookup_empty in Hj.
Qed.
End phases.

Section resources.
Variable file : string.
Variable ratio : Qc.

Lemma legacyGenerateTree_unfold fuel curID tp version keep json :
  legacyGenerateTree file ratio fuel curID tp version keep json
  = genTree file fuel (genResources file ratio curID tp version keep json).2
      json (genResources file ratio curID tp version keep json).1.
Proof.
  unfold legacyGenerateTree, genResources.
  by destruct (genSkins _ _ _) as [st maps].
Qed.

(** The state before the scene objects block. *)
Lemma genResources_spec curID tp version keep json :
  ∃ project maps,
    genResources file ratio curID tp version keep json
    = (project, objectsFrom curID json, maps)
    ∧ added isGen curID (count (images json))
        (p_images (generateBaseProject tp version keep)) (p_images project)
    ∧ added isGen (texturesFrom curID json)
        (distinctSources (default [] (textures json)))
        (p_textures (generateBaseProject tp version keep))
        (p_textures project)
    ∧ added isGen (materialsFrom curID json) (count (materials json))
        (p_materials (generateBaseProject tp version keep))
        (p_materials project)
    ∧ added isGen (meshesFrom curID json) (count (meshes json))
        (p_meshes (generateBaseProject tp version keep)) (p_meshes project)
    ∧ added (λ e, s_joints e = []) (skinsFrom curID json)
        (count (skins json)) ∅ (p_skins project)
    ∧ p_objects project = ∅
    ∧ p_animations project = ∅
    ∧ (p_shaders project = tp_shaders tp
       ∧ p_pipelines project = tp_pipelines tp
       ∧ p_version project = version
       ∧ p_files project = [file])
    ∧ (∀ k, skinsMap maps !! k
            = if decide (k < count (skins json))
              then Some (skinsFrom curID json + k) else None)
    ∧ (∀ sid, skinsJoints maps !! sid
              = if decide (skinsFrom curID json ≤ sid
                           < objectsFrom curID json)
                then Some (Js.toString sid) else None)
    ∧ (∀ j sid, jointIdxs maps !! j = Some sid →
                skinsFrom curID json ≤ sid < objectsFrom curID json).
Proof.
  unfold genResources, objectsFrom, skinsFrom, meshesFrom, materialsFrom,
    texturesFrom.
  set (base := generateBaseProject tp version keep).
  set (p0 := set_files _ base).
  destruct (genImages_spec file json p0 curID) as (p1 & -> & E1 & A1).
  destruct (genTextures_spec file json p1 (curID + count (images json)))
    as (p2 & -> & E2 & A2).
  destruct (genMaterials_spec file json p2
              (curID + count (images json)
               + distinctSources (default [] (textures json))))
    as (p3 & -> & E3 & A3).
  destruct (genMeshes_spec file ratio json p3
              (curID + count (images json)
               + distinctSources (default [] (textures json))
               + count (materials json)))
    as (p4 & -> & E4 & A4).
  destruct (genSkins_spec file json p4
              (curID + count (images json)
               + distinctSources (default [] (textures json))
               + count (materials json) + count (meshes json)))
    as (p5 & maps & -> & E5 & A5 & M1 & M2 & M3).
  exists p5, maps.
  assert (p_images p5 = p_images p1 ∧ p_textures p5 = p_textures p2
          ∧ p_materials p5 = p_materials p3 ∧ p_meshes p5 = p_meshes p4)
    as (-> & -> & -> & ->).
  { rewrite E5, E4, E3, E2. done. }
  assert (p_textures p1 = p_textures base
          ∧ p_materials p2 = p_materials base
          ∧ p_meshes p3 = p_meshes base ∧ p_skins p4 = ∅
          ∧ p_objects p5 = ∅ ∧ p_animations p5 = ∅
          ∧ p_shaders p5 = tp_shaders tp
          ∧ p_pipelines p5 = tp_pipelines tp
          ∧ p_version p5 = version ∧ p_files p5 = [file])
    as (H1 & H2 & H3 & H4 & ? & ? & ? & ? & ? & ?).
  { rewrite E5, E4, E3, E2, E1. done. }
  rewrite H1 in A2. rewrite H2 in A3. rewrite H3 in A4. rewrite H4 in A5.
  split_and!; done.
Qed.
End resources.

(** ** The scene objects block *)

Section traversal.
Variables (file : string) (maps : SkinMaps) (fuel : nat).

(** Whatever the node list, a traversal that returns has visited the
    nodes of [traversalOrder], one id each, and has written nothing but
    [id] and [_path] on the nodes and the objects and joints in the
    project. *)
Lemma genTree_inv json project id0 g :
  genTree file fuel maps json (project, id0) = Ok g →
  ∃ s1 l,
    treeStore maps json = Some s1
    ∧ traversalOrder fuel maps json = Some l
    ∧ g_id g = id0 + length l
    ∧ sameSkeleton s1 (g_store g)
    ∧ sameResources project (g_project g)
    ∧ added (λ _, True) id0 (length l)
            (p_objects project) (p_objects (g_project g))
    ∧ p_skins (g_project g)
      = foldl (jointPush maps s1) (p_skins project)
              (zip l (seq id0 (length l))).
Proof.
  unfold genTree, traversalOrder, treeStore.
  destruct (nodes json) as [ns|]; simpl.
  - destruct (buildTree maps ns) as [s0|e] eqn:Hbuild; simpl; [|done].
    intros Hdfs.
    set (s1 := Node.reverse Node.Root s0) in *.
    set (g0 := {| g_store := s1; g_project := project; g_id := id0 |}) in *.
    destruct (dfs_order (λ g, Node.children_of (g_store g))
                (visit file maps fuel) (visit_kids file maps fuel)
                (Node.children_of s1) fuel Node.Root g0 g) as [l Hl];
      [done|done|].
    rewrite (dfs_forEach (λ g, Node.children_of (g_store g))
               (visit file maps fuel) (visit_kids file maps fuel)
               (Node.children_of s1) fuel Node.Root l g0) in Hdfs
      by done.
    apply forEach_visit_inv in Hdfs as (? & ? & ? & ? & ?).
    by exists s1, l.
  - intros [= <-]. eexists _, []. rewrite order_unfold. simpl.
    split_and!;
      [done|done|simpl; lia|apply sameSkeleton_refl
      |apply sameResources_refl|apply added_zero|done].
Qed.
End traversal.

(** ** Completeness *)

Lemma added_size {V} (P : V → Prop) lo n (m' : gmap string V) :
  added P lo n ∅ m' → size m' = n.
Proof.
  intros [Hnew Hold].
  assert (dom m' = list_to_set (Js.toString <$> seq lo n)) as Hdom.
  { apply set_eq. intros key.
    rewrite elem_of_dom, elem_of_list_to_set, list_elem_of_fmap. split.
    - intros [v Hv].
      destruct (decide (key ∈ Js.toString <$> seq lo n)) as [Hin|Hnot].
      + by apply list_elem_of_fmap in Hin.
      + rewrite Hold in Hv; [by rewrite lookup_empty in Hv|].
        intros k Hk ->. apply Hnot, list_elem_of_fmap.
        exists k. split; [done|]. apply elem_of_seq. lia.
    - intros (k & -> & Hk%elem_of_seq).
      destruct (Hnew k) as (v & -> & _); [lia|]. by eexists. }
  rewrite <- size_dom, Hdom, size_list_to_set.
  - by rewrite length_fmap, length_seq.
  - apply (NoDup_fmap_2 _), NoDup_seq.
Qed.

(** C8, as stated, fails.  The node list in which node [0] lists node
    [1] twice has its child indices in range, node [1] is the child of one
    parent only, and there is no cycle; three objects are emitted for its
    two nodes.  The one-node list whose node has [skin: 0] while the
    document has no skins meets the three conditions as well; the run
    ends in a [TypeError]. *)
Lemma objects_not_complete :
  (Forall (λ c, c < length nodesTwice) (listed nodesTwice)
   ∧ oneParent nodesTwice ∧ acyclic nodesTwice)
  ∧ (r ← legacyGenerateProject "m.glb" 1 2 29 noTemplate [] false
           (gltfNodes nodesTwice);
     Ok (size (p_objects r.1))) = Ok 3
  ∧ length nodesTwice = 2
  ∧ (Forall (λ c, c < length nodesDanglingSkin) (listed nodesDanglingSkin)
     ∧ oneParent nodesDanglingSkin ∧ acyclic nodesDanglingSkin)
  ∧ legacyGenerateProject "m.glb" 1 1 29 noTemplate [] false
      (gltfNodes nodesDanglingSkin) = Throw TypeError.
Proof.
  split_and!; try (vm_compute; reflexivity);
    apply (bool_decide_unpack _); vm_compute; exact I.
Qed.

Section complete.
Variables (file : string) (ratio : Qc) (fuel curID : nat).
Variables (tp : TemplateProject) (version : list nat) (keep : bool).
Variables (json : Gltf) (ns : list NodeIn).
Hypothesis Hnodes : nodes json = Some ns.
Hypothesis Hwf : wellFormed ns.
Hypothesis Hskins : skinsInRange (count (skins json)) ns.
Hypothesis Hfuel : length ns ≤ fuel.

(** The scene objects block on a well-formed node list, run after the
    resource loops. *)
Lemma legacyGenerateTree_wf :
  ∃ project maps s0 F l g G,
    genResources file ratio curID tp version keep json
    = (project, objectsFrom curID json, maps)
    ∧ buildTree maps ns = Ok s0
    ∧ describes (length ns) F (sort (orphansOf ns))
        (Node.reverse Node.Root s0)
    ∧ treeInv (length ns) F (sort (orphansOf ns)) (depthOf ns)
    ∧ traversalOrder fuel maps json = Some l
    ∧ l ≡ₚ seq 0 (length ns)
    ∧ legacyGenerateTree file ratio fuel curID tp version keep json = Ok g
    ∧ describes (length ns) G (sort (orphansOf ns)) (g_store g)
    ∧ g_id g = objectsFrom curID json + length ns
    ∧ (∀ y, skeleton (G y) = skeleton (F y))
    ∧ (∀ i x, l !! i = Some x →
         visitedAt file F G (sort (orphansOf ns)) (objectsFrom curID json)
           (p_objects (g_project g)) i x)
    ∧ added (λ _, True) (objectsFrom curID json) (length ns) ∅
        (p_objects (g_project g)).
Proof.
  destruct (genResources_spec file ratio curID tp version keep json)
    as (project & maps & Hres & _ & _ & _ & _ & _ & Hobj & _ & _
        & M1 & M2 & M3).
  assert (∀ i n, ns !! i = Some n → meshSkinOf maps n ≠ Node.MsUndefined)
    as Hmesh.
  { intros i n Hn. unfold meshSkinOf.
    unfold skinsInRange in Hskins. rewrite Forall_forall in Hskins.
    specialize (Hskins n (list_elem_of_lookup_2 _ _ _ Hn)).
    destruct (nd_skin n) as [k|]; simpl in *; [|done].
    by rewrite M1, decide_True. }
  assert (∀ j sk, jointIdxs maps !! j = Some sk →
                  is_Some (skinsJoints maps !! sk)) as Hjoints.
  { intros j sk Hj. rewrite M2, decide_True by by eapply M3. by eexists. }
  destruct (genTree_wf file maps fuel ns json project
              (objectsFrom curID json) Hnodes Hwf Hfuel Hmesh Hjoints)
    as (s0 & F & l & g & G & Hbuild & HF & Hinv & _ & Horder & Hperm
        & Hgen & HG & Hid & Hskel & Hvis).
  destruct (genTree_inv file maps fuel json project _ g Hgen)
    as (s1 & l' & _ & Hl' & _ & _ & _ & Hadded & _).
  assert (traversalOrder fuel maps json = Some l) as Hl.
  { unfold traversalOrder, treeStore. by rewrite Hnodes, Hbuild. }
  rewrite Hl in Hl'. simplify_eq.
  rewrite Hobj, (Permutation_length Hperm), length_seq in Hadded.
  exists project, maps, s0, F, l', g, G. split_and!; try done.
  by rewrite legacyGenerateTree_unfold, Hres.
Qed.
End complete.

(** C8 (amended).  For every node list whose child indices are in range,
    in which no index is listed twice as a child (so that each node has at
    most one parent and a parent lists it once), which has no cycle, and
    whose [skin] properties are indices of skins of the document, the run
    returns when the call depth suffices; the traversal visits a
    permutation of the node indices; the [i]-th node visited receives the
    id [objectsFrom curID json + i] and the objects mapping has an entry
    under that id; and the mapping has as many entries as there are
    nodes. *)
Theorem objects_complete (file : string) (ratio : Qc) (fuel curID : nat)
    (tp : TemplateProject) (version : list nat) (keep : bool) (json : Gltf)
    (ns : list NodeIn) :
  nodes json = Some ns →
  wellFormed ns →
  skinsInRange (count (skins json)) ns →
  length ns ≤ fuel →
  ∃ project' id' g l,
    legacyGenerateProject file ratio fuel curID tp version keep json
    = Ok (project', id')
    ∧ legacyGenerateTree file ratio fuel curID tp version keep json = Ok g
    ∧ size (p_objects project') = length ns
    ∧ traversalOrder fuel
        (genResources file ratio curID tp version keep json).2 json = Some l
    ∧ l ≡ₚ seq 0 (length ns)
    ∧ ∀ i x, l !! i = Some x →
        Node.get (g_store g) (Node.Idx x) ≫= Node.id
        = Some (objectsFrom curID json + i)
        ∧ is_Some (p_objects project'
                   !! Js.toString (objectsFrom curID json + i)).
Proof.
  intros Hnodes Hwf Hskins Hfuel.
  destruct (legacyGenerateTree_wf file ratio fuel curID tp version keep json
              ns Hnodes Hwf Hskins Hfuel)
    as (project & maps & s0 & F & l & g & G & Hres & _ & _ & Hinv & Hl
        & Hperm & Htree & HG & _ & _ & Hvis & Hadded).
  destruct (genAnimations_spec file json (g_project g) (g_id g))
    as (project' & Hanim & Hframe & _).
  assert (p_objects project' = p_objects (g_project g)) as Hobjs
    by by rewrite Hframe.
  exists project', (g_id g + count (animations json)), g, l.
  split_and!; [|done| |by rewrite Hres|done|].
  - unfold legacyGenerateProject. rewrite Htree. simpl. by rewrite Hanim.
  - rewrite Hobjs. by eapply added_size.
  - intros i x Hx. destruct (Hvis i x Hx) as (Hid & r & lname & suffix & Hrest).
    destruct Hrest as (_ & _ & _ & _ & Hentry).
    assert (x < length ns) as Hlt.
    { assert (x ∈ seq 0 (length ns)) as ?%elem_of_seq; [|lia].
      rewrite <- Hperm. by eapply list_elem_of_lookup_2. }
    rewrite (describes_get _ _ _ _ x HG), decide_True by done.
    split; [done|]. rewrite Hobjs, Hentry. by eexists.
Qed.

Lemma objects_complete_witness :
  ∃ project' id',
    legacyGenerateProject "m.glb" 1 3 29 noTemplate [] false
      (gltfNodes nodesABC) = Ok (project', id')
    ∧ size (p_objects project') = 3.
Proof.
  destruct (objects_complete "m.glb" 1 3 29 noTemplate [] false
              (gltfNodes nodesABC) nodesABC)
    as (project' & id' & _ & _ & Hrun & _ & Hsize & _).
  - reflexivity.
  - apply (bool_decide_unpack _). vm_compute. exact I.
  - apply (bool_decide_unpack _). vm_compute. exact I.
  - simpl. lia.
  - by exists project', id'.
Defined.

(** ** Paths *)

Lemma linked_parent_lt N F rk x p :
  linked N F rk → x < N → Node.parent (F x) = Some (Node.Idx p) →
  p < N ∧ x ∈ Node.children (F p).
Proof.
  intros (Hperm & Hroot & Hchild) Hx Hp.
  assert (x ∈ rk ++ (seq 0 N ≫= λ p, Node.children (F p))) as Hin.
  { rewrite Hperm. apply elem_of_seq. lia. }
  apply elem_of_app in Hin as [Hin|Hin].
  - rewrite (Hroot x Hin) in Hp. discriminate Hp.
  - apply list_elem_of_bind in Hin as (q & Hin & Hq%elem_of_seq).
    rewrite (Hchild q x) in Hp; [|lia|done]. simplify_eq. split; [lia|done].
Qed.

Lemma nameOf_localName N G rk s x r lname :
  describes N G rk s → x < N → Node.parent (G x) = Some r →
  (∀ p, r = Node.Idx p → p < N) →
  Node.nameOf (G x) (nodeAt G rk r) (Node.Idx x) = Ok lname →
  localName s x = Some lname.
Proof.
  intros HG Hx Hpar Hr Hname. unfold localName.
  rewrite (describes_get _ _ _ _ _ HG), decide_True by done. simpl.
  unfold Node.nameOf in Hname. destruct (Node.name (G x)); [by simplify_eq|].
  rewrite Hpar. simpl. unfold Node.children_of.
  rewrite (describes_nodeAt _ _ _ _ _ HG Hr). simpl.
  destruct (Node.indexOf _ _); simpl; by simplify_eq.
Qed.

(** The getter [path] never throws 'Node not present in parent' on a
    store in which every node is in the child list of its parent. *)
Lemma path_present s fuel r :
  childOfParent s → Node.path fuel r s ≠ Throw NodeNotPresent.
Proof.
  intros [Hroot Hinv]. revert r.
  induction fuel as [|fuel IH]; intros r; rewrite path_unfold;
    destruct (Node.get s r) as [node|] eqn:Hget; try done;
    destruct (Node._path node); try done;
    destruct (Node.parent node) as [par|] eqn:Hpar; try done;
    destruct (Node.get s par) as [parentNode|] eqn:Hparent; try done;
    (destruct r as [|i]; [simpl in Hget; simplify_eq; congruence|]);
    destruct (nameOf_Ok node parentNode i (Hinv i node par parentNode
                                             Hget Hpar Hparent))
      as [lname ->]; simpl;
    destruct (Node.id parentNode); try done.
  specialize (IH par).
  destruct (Node.path fuel par s) as [[pp s']|e]; simpl; [done|congruence].
Qed.

Lemma skeleton_fields (a b : Node.t) :
  skeleton a = skeleton b →
  Node.children a = Node.children b ∧ Node.parent a = Node.parent b
  ∧ Node.name a = Node.name b ∧ Node.meshSkin a = Node.meshSkin b
  ∧ Node.skin a = Node.skin b.
Proof. destruct a, b. intros H. cbv in H. by inversion H. Qed.

Lemma append_empty_r (s : string) : s +:+ EmptyString = s.
Proof.
  induction s as [|a s IH]; [done|].
  change (String a (s +:+ EmptyString) = String a s). by rewrite IH.
Qed.

(** A store that holds consistently linked nodes has every node in the
    child list of its parent. *)
Lemma linked_childOfParent N G rk s :
  describes N G rk s → linked N G rk → childOfParent s.
Proof.
  intros HG Hlinked. split.
  { destruct HG as (-> & _). done. }
  intros i node par parentNode Hi Hpar Hparent.
  rewrite (describes_get _ _ _ _ _ HG) in Hi.
  case_decide as Hlt; [|done]. simplify_eq.
  destruct par as [|p].
  - destruct HG as (Ht & _). simpl in Hparent. simplify_eq. rewrite Ht. simpl.
    pose proof Hlinked as (Hperm & _ & Hchild).
    assert (i ∈ rk ++ (seq 0 N ≫= λ p, Node.children (G p))) as Hin.
    { rewrite Hperm. apply elem_of_seq. lia. }
    apply elem_of_app in Hin as [Hin|Hin]; [done|].
    apply list_elem_of_bind in Hin as (q & Hin & Hq%elem_of_seq).
    rewrite (Hchild q i) in Hpar; [done|lia|done].
  - destruct (linked_parent_lt N G rk i p Hlinked Hlt Hpar) as [Hp Hin].
    rewrite (describes_get _ _ _ _ _ HG), decide_True in Hparent by done.
    by simplify_eq.
Qed.

Lemma linked_skeleton N F G rk :
  (∀ y, skeleton (G y) = skeleton (F y)) → linked N F rk → linked N G rk.
Proof.
  intros Hskel (Hperm & Hroot & Hchild).
  assert (∀ y, Node.children (G y) = Node.children (F y)
               ∧ Node.parent (G y) = Node.parent (F y)) as Hsame.
  { intros y. by destruct (skeleton_fields _ _ (Hskel y)) as (? & ? & _). }
  split_and!.
  - assert (seq 0 N ≫= (λ p, Node.children (G p))
            = seq 0 N ≫= (λ p, Node.children (F p))) as ->; [|done].
    apply Forall_bind_ext, Forall_forall. intros y _. apply Hsame.
  - intros c Hc. rewrite (proj2 (Hsame c)). by apply Hroot.
  - intros p c Hp Hc. rewrite (proj2 (Hsame c)). apply Hchild; [done|].
    by rewrite <- (proj1 (Hsame p)).
Qed.

(** ** Paths on a node list without repeated children *)

Section order_NoDup.
Variables (K : Node.ref → list nat) (P : nat → option Node.ref).
Hypothesis HP : ∀ r c, c ∈ K r → P c = Some r.
Hypothesis HK : ∀ r, NoDup (K r).

Lemma ancestor_add n m x :
  ancestor P (n + S m) x
  = match ancestor P n x with
    | Some (Node.Idx p) => ancestor P m p
    | _ => None
    end.
Proof.
  revert x. induction n as [|n IH]; intros x; [done|].
  simpl. destruct (P x) as [[|p]|]; [done| |done]. apply IH.
Qed.

(** A node has one depth below the root. *)
Lemma ancestor_root_unique a b x :
  ancestor P a x = Some Node.Root → ancestor P b x = Some Node.Root → a = b.
Proof.
  assert (∀ a b, a < b → ancestor P a x = Some Node.Root →
                 ancestor P b x ≠ Some Node.Root) as Hlt.
  { clear a b. intros a b Hab Ha.
    replace b with (a + S (b - a - 1)) by lia.
    by rewrite ancestor_add, Ha. }
  intros Ha Hb. destruct (lt_eq_lt_dec a b) as [[Hab|]|Hba]; [|done|].
  - by destruct (Hlt a b Hab Ha).
  - by destruct (Hlt b a Hba Hb).
Qed.

Lemma ancestor_below r e n x :
  rooted P r e → ancestor P n x = Some r → ancestor P (n + e) x = Some Node.Root.
Proof.
  destruct r as [|c]; simpl.
  - intros -> Hx. by rewrite Nat.add_0_r.
  - intros (d & -> & Hd) Hx. by rewrite ancestor_add, Hx.
Qed.

Lemma child_rooted r e c : rooted P r e → c ∈ K r → rooted P (Node.Idx c) (S e).
Proof.
  intros Hr Hc. exists e. split; [done|].
  replace e with (0 + e) by lia. apply (ancestor_below r); [done|].
  simpl. by apply HP.
Qed.

Lemma orderList_NoDup (sub : nat → option (list nat)) r e cs l :
  rooted P r e → NoDup cs → (∀ c, c ∈ cs → c ∈ K r) →
  (∀ c l1, c ∈ cs → sub c = Some l1 →
     NoDup l1 ∧ ∀ x, x ∈ l1 → ∃ n, ancestor P n x = Some (Node.Idx c)) →
  orderList sub cs = Some l →
  NoDup l
  ∧ ∀ x, x ∈ l →
      x ∈ cs ∨ ∃ c n, c ∈ cs ∧ ancestor P n x = Some (Node.Idx c).
Proof.
  intros Hr. revert l. induction cs as [|c cs IH]; intros l Hnd Hcs Hsub Hl.
  { simpl in Hl. simplify_eq. split; [apply NoDup_nil_2|].
    by intros x ?%elem_of_nil. }
  apply orderList_cons in Hl as (l1 & l2 & H1 & H2 & ->).
  apply NoDup_cons in Hnd as [Hc Hnd].
  destruct (Hsub c l1) as [Hnd1 Hin1]; [by left|done|].
  destruct (IH l2) as [Hnd2 Hin2]; [done| | |done|].
  { intros c' Hc'. apply Hcs. by right. }
  { intros c' l' Hc'. apply Hsub. by right. }
  assert (Hlev : ∀ c', c' ∈ c :: cs → ancestor P e c' = Some Node.Root).
  { intros c' Hc'%Hcs. replace e with (0 + e) by lia.
    apply (ancestor_below r); [done|]. simpl. by apply HP. }
  assert (Hdeep : ∀ c' n x, c' ∈ c :: cs →
            ancestor P n x = Some (Node.Idx c') →
            ancestor P (n + S e) x = Some Node.Root).
  { intros c' n x Hc' Hx.
    apply (ancestor_below (Node.Idx c')); [|done].
    eapply child_rooted; [done|]. by apply Hcs. }
  assert (Hnot : ∀ c' c'' n, c' ∈ c :: cs → c'' ∈ c :: cs →
            ancestor P n c'' ≠ Some (Node.Idx c')).
  { intros c' c'' n Hc' Hc'' Hx.
    pose proof (ancestor_root_unique _ _ _ (Hlev c'' Hc'')
                  (Hdeep c' n c'' Hc' Hx)). lia. }
  split.
  - apply NoDup_cons. split.
    + intros [Hx|Hx]%elem_of_app.
      * destruct (Hin1 c Hx) as [n Hn]. by eapply (Hnot c c n); [left|left|].
      * destruct (Hin2 c Hx) as [?|(c' & n & Hc' & Hn)]; [done|].
        by eapply (Hnot c' c n); [right|left|].
    + apply NoDup_app. split_and!; [done| |done].
      intros x Hx1 Hx2. destruct (Hin1 x Hx1) as [n Hn].
      destruct (Hin2 x Hx2) as [Hx|(c' & n' & Hc' & Hn')].
      * by eapply (Hnot c x n); [left|right|].
      * assert (n + S e = n' + S e) as Heq.
        { eapply ancestor_root_unique; eapply Hdeep; try done;
            [by left|by right]. }
        assert (n = n') as <- by lia. simplify_eq. done.
  - intros x [->|[Hx|Hx]%elem_of_app]%elem_of_cons.
    + left. by left.
    + right. destruct (Hin1 x Hx) as [n Hn]. exists c, n. split; [by left|done].
    + destruct (Hin2 x Hx) as [?|(c' & n & Hc' & Hn)].
      * left. by right.
      * right. exists c', n. split; [by right|done].
Qed.

(** When every node has one parent, the pre-order sequence below a
    node that hangs under the root holds no node twice, and holds
    descendants of that node only. *)
Lemma order_NoDup fuel r e l :
  rooted P r e → order K fuel r = Some l →
  NoDup l ∧ ∀ x, x ∈ l → ∃ n, ancestor P n x = Some r.
Proof.
  revert r e l. induction fuel as [|fuel IH]; intros r e l Hr Hl;
    rewrite order_unfold in Hl.
  - destruct (orderList_NoDup (λ _, None) r e (K r) l Hr (HK r))
      as [Hnd Hin]; [done|done|done|].
    split; [done|]. intros x Hx.
    destruct (Hin x Hx) as [Hc|(c & n & Hc & Hn)].
    + exists 0. simpl. by apply HP.
    + exists (n + 1). rewrite ancestor_add, Hn. simpl. by apply HP.
  - destruct (orderList_NoDup (λ c, order K fuel (Node.Idx c)) r e (K r) l
                Hr (HK r)) as [Hnd Hin]; [done| |done|].
    { intros c l1 Hc Hl1. eapply IH; [|done]. by eapply child_rooted. }
    split; [done|]. intros x Hx.
    destruct (Hin x Hx) as [Hc|(c & n & Hc & Hn)].
    + exists 0. simpl. by apply HP.
    + exists (n + 1). rewrite ancestor_add, Hn. simpl. by apply HP.
Qed.
End order_NoDup.

Lemma orderList_ext (sub sub' : nat → option (list nat)) cs :
  (∀ c, sub c = sub' c) → orderList sub cs = orderList sub' cs.
Proof.
  intros H. induction cs as [|c cs IH]; simpl; [done|]. by rewrite H, IH.
Qed.

Lemma order_ext (K K' : Node.ref → list nat) fuel r :
  (∀ r, K r = K' r) → order K fuel r = order K' fuel r.
Proof.
  intros H. revert r. induction fuel as [|fuel IH]; intros r;
    rewrite !order_unfold, H; apply orderList_ext; [done|].
  intros c. apply IH.
Qed.

Lemma order_0 (K : Node.ref → list nat) r l :
  order K 0 r = Some l → l = [].
Proof.
  rewrite order_unfold. destruct (K r) as [|c cs]; simpl; [congruence|done].
Qed.

Lemma NoDup_bind_elem {A B} (f : A → list B) (l : list A) x :
  NoDup (l ≫= f) → x ∈ l → NoDup (f x).
Proof.
  induction l as [|y l IH]; intros Hnd Hx; [by apply elem_of_nil in Hx|].
  cbn in Hnd. apply NoDup_app in Hnd as (Hy & _ & Hl).
  apply elem_of_cons in Hx as [->|Hx]; auto.
Qed.

Section visit_ok.
Variables (file : string) (maps : SkinMaps) (fuel : nat).

(** A call of the callback that returns was made on a node whose mesh
    skin is not [undefined] and whose skin, if any, has a joints array. *)
Lemma visit_Ok_fields c g g' :
  visit file maps fuel c g = Ok g' →
  ∃ node,
    Node.get (g_store g) (Node.Idx c) = Some node
    ∧ Node.meshSkin node ≠ Node.MsUndefined
    ∧ ∀ sk, Node.skin node = Some sk → is_Some (skinsJoints maps !! sk).
Proof.
  unfold visit. intros H.
  pose proof (sameSkeleton_upd (g_store g) (Node.Idx c)
                (Node.set_id (Some (g_id g))) (skeleton_set_id _)) as Hskel0.
  set (s := Node.upd (Node.Idx c) (Node.set_id (Some (g_id g))) (g_store g))
    in *.
  destruct (Node.get s (Node.Idx c)) as [this|] eqn:Hthis; [|done].
  assert (∃ node, Node.get (g_store g) (Node.Idx c) = Some node
                  ∧ skeleton this = skeleton node) as (node & Hnode & Hsk).
  { pose proof (Hskel0 (Node.Idx c)) as Hc. rewrite Hthis in Hc.
    destruct (Node.get (g_store g) (Node.Idx c)) as [node|]; [|done].
    exists node. split; [done|]. simpl in Hc. congruence. }
  destruct (skeleton_fields _ _ Hsk) as (_ & _ & _ & Hmesh & Hskin).
  exists node. rewrite <- Hmesh, <- Hskin. split; [done|].
  match type of H with
  | mbind _ ?m = _ => destruct m as [project|] eqn:Hproject
  end; [rewrite bind_Ok in H|done].
  destruct (toJson fuel c file s) as [[obj s2]|] eqn:Hjson; [|done].
  split.
  - unfold toJson in Hjson.
    destruct (Node.path fuel (Node.Idx c) s) as [[p s1]|] eqn:Hp; [|done].
    rewrite bind_Ok in Hjson.
    destruct (sameSkeleton_get s s1 _ this (path_sameSkeleton _ _ _ _ _ Hp)
                Hthis) as (this1 & Hthis1 & Hsk1).
    rewrite Hthis1 in Hjson.
    destruct (skeleton_fields _ _ Hsk1) as (_ & _ & _ & Hmesh1 & _).
    rewrite <- Hmesh1. intros Hm.
    destruct (Node.parent this1 ≫= Node.get s1); [|done].
    by rewrite Hm in Hjson.
  - intros sk Hsk'. rewrite Hsk' in Hproject.
    destruct (skinsJoints maps !! sk); [by eexists|done].
Qed.

Lemma forEach_visit_Ok_fields l g g' :
  forEach (visit file maps fuel) l g = Ok g' →
  ∀ x, x ∈ l →
    ∃ node,
      Node.get (g_store g) (Node.Idx x) = Some node
      ∧ Node.meshSkin node ≠ Node.MsUndefined
      ∧ ∀ sk, Node.skin node = Some sk → is_Some (skinsJoints maps !! sk).
Proof.
  revert g. induction l as [|c l IH]; intros g H x Hx;
    [by apply elem_of_nil in Hx|].
  rewrite forEach_cons in H.
  destruct (visit file maps fuel c g) as [g1|] eqn:Hvisit; [|done].
  rewrite bind_Ok in H.
  apply elem_of_cons in Hx as [->|Hx]; [by eapply visit_Ok_fields|].
  destruct (IH g1 H x Hx) as (node1 & Hnode1 & Hmesh1 & Hskin1).
  apply visit_inv in Hvisit as (_ & Hskel & _).
  assert (sameSkeleton (g_store g1) (g_store g)) as Hback
    by (intros r; symmetry; apply Hskel).
  destruct (sameSkeleton_get _ _ _ _ Hback Hnode1) as (node & Hnode & Hsk).
  destruct (skeleton_fields _ _ Hsk) as (_ & _ & _ & Hmesh & Hskin).
  exists node. rewrite Hmesh, Hskin. done.
Qed.
End visit_ok.

Section tree_paths.
Variables (file : string) (maps : SkinMaps) (fuel : nat).
Variables (ns : list NodeIn) (json : Gltf) (project : Project) (id0 : nat).
Hypothesis Hnodes : nodes json = Some ns.
Hypothesis Hnd : NoDup (listed ns).

(** A traversal that returns, on a node list that lists no index twice:
    the nodes under the root are visited once each, every one after its
    parent, with the ids, paths and objects that [visitedAt] describes. *)
Lemma genTree_paths g :
  genTree file fuel maps json (project, id0) = Ok g →
  ∃ F l G,
    linked (length ns) F (sort (orphansOf ns))
    ∧ order (Node.children_of (g_store g)) fuel Node.Root = Some l
    ∧ NoDup l
    ∧ (∀ x, x ∈ l → x < length ns)
    ∧ describes (length ns) G (sort (orphansOf ns)) (g_store g)
    ∧ (∀ y, skeleton (G y) = skeleton (F y))
    ∧ ∀ i x, l !! i = Some x →
        visitedAt file F G (sort (orphansOf ns)) id0
                  (p_objects (g_project g)) i x.
Proof.
  set (N := length ns). set (rk := sort (orphansOf ns)).
  unfold genTree. rewrite Hnodes.
  destruct (buildTree maps ns) as [s0|] eqn:Hbuild; [|done].
  rewrite bind_Ok. cbn [fst snd]. intros Hdfs.
  pose proof (buildTree_in_range maps ns s0 Hbuild) as Hlt.
  destruct (buildTree_linked ns Hlt Hnd maps)
    as (s0' & F0 & Hbuild' & HF0 & Hlinked0 & Hfields0).
  rewrite Hbuild in Hbuild'. injection Hbuild' as <-.
  destruct (reverse_spec N F0 rk s0 HF0 (orphans_NoDup ns) (orphans_lt ns))
    as (F & HF & Hu & _ & _ & Hlinked & _).
  specialize (Hlinked Hlinked0).
  set (s1 := Node.reverse Node.Root s0) in *.
  set (K := Node.children_of s1).
  set (g0 := {| g_store := s1; g_project := project; g_id := id0 |}) in *.
  assert (HKroot : K Node.Root = rk) by (by eapply describes_root).
  assert (HKidx : ∀ p, K (Node.Idx p)
                       = if decide (p < N) then Node.children (F p) else [])
    by (intros p; by eapply describes_kids).
  destruct (dfs_order (λ g, Node.children_of (g_store g))
              (visit file maps fuel) (visit_kids file maps fuel)
              K fuel Node.Root g0 g) as [l Hl]; [done|done|].
  rewrite (dfs_forEach (λ g, Node.children_of (g_store g))
             (visit file maps fuel) (visit_kids file maps fuel)
             K fuel Node.Root l g0) in Hdfs by done.
  set (P := λ x, Node.parent (F x)).
  pose proof Hlinked as (Hperm & Hroot & Hchild).
  assert (HP : ∀ r c, c ∈ K r → P c = Some r).
  { intros [|p] c.
    - rewrite HKroot. apply Hroot.
    - rewrite HKidx. case_decide; [by apply Hchild|by intros ?%elem_of_nil]. }
  assert (HK : ∀ r, NoDup (K r)).
  { intros [|p].
    - rewrite HKroot. by eapply linked_root_NoDup.
    - rewrite HKidx. case_decide as Hp; [|apply NoDup_nil_2].
      pose proof (linked_NoDup N F rk Hlinked) as (_ & _ & Hb)%NoDup_app.
      apply (NoDup_bind_elem _ _ p Hb), elem_of_seq. lia. }
  destruct (order_NoDup K P HP HK fuel Node.Root 0 l eq_refl Hl)
    as [Hndl Hanc].
  assert (Hltl : ∀ x, x ∈ l → x < N).
  { intros x Hx. apply list_elem_of_lookup in Hx as [i Hi].
    destruct (order_parent_first K fuel _ l Hl i x Hi) as (r & Hxr & _).
    destruct r as [|p].
    - rewrite HKroot in Hxr. by eapply (linked_root_lt N F rk).
    - rewrite HKidx in Hxr. case_decide; [|by apply elem_of_nil in Hxr].
      by eapply (linked_child_lt N F rk). }
  assert (Hinit : ∀ x, x < N → Node._path (F x) = None).
  { intros x Hx.
    destruct (lookup_lt_is_Some_2 ns x) as [n Hn]; [done|].
    destruct (Hfields0 x n Hn) as [Hx0 _]. rewrite <- Hu in Hx0.
    by apply unlinked_fields in Hx0 as (_ & -> & _). }
  destruct (visit_loop_on file maps fuel N F rk s1 project id0 HF Hinit l)
    as (g' & G & Hloop & HG & _ & Hskel & _ & Hvis).
  { intros Hne. destruct fuel; [|lia]. by apply order_0 in Hl. }
  { intros x Hx.
    destruct (forEach_visit_Ok_fields _ _ _ _ _ _ Hdfs x Hx)
      as (node & Hnode & Hm & _).
    rewrite (describes_get _ _ _ _ _ HF), decide_True in Hnode
      by by apply Hltl.
    by simplify_eq. }
  { intros x sk Hx.
    destruct (forEach_visit_Ok_fields _ _ _ _ _ _ Hdfs x Hx)
      as (node & Hnode & _ & Hs).
    rewrite (describes_get _ _ _ _ _ HF), decide_True in Hnode
      by by apply Hltl.
    simplify_eq. apply Hs. }
  { done. }
  { done. }
  { intros i x Hi.
    destruct (order_parent_first K fuel _ l Hl i x Hi) as (r & Hxr & Hr).
    exists r. split_and!.
    - by apply HP.
    - destruct r as [|p]; [by rewrite <- HKroot|].
      simpl. rewrite HKidx in Hxr. by case_decide; [|apply elem_of_nil in Hxr].
    - intros ->. pose proof (HP _ _ Hxr) as Hself.
      destruct (Hanc x) as [n Hn]; [by eapply list_elem_of_lookup_2|].
      destruct n as [|n]; simpl in Hn; rewrite Hself in Hn; [done|].
      assert (S n = n); [|lia].
      eapply (ancestor_root_unique P); [|done]. simpl. by rewrite Hself.
    - intros p ->. split.
      + rewrite HKidx in Hxr. by case_decide; [|apply elem_of_nil in Hxr].
      + destruct Hr as [|(j & p' & Hj & Hp' & [= <-])]; [done|]. eauto. }
  subst g0. assert (g' = g) as -> by congruence.
  exists F, l, G. split_and!; try done.
  rewrite <- Hl. apply order_ext. intros r.
  exact (forEach_kids (λ g, Node.children_of (g_store g))
           (visit file maps fuel) (visit_kids file maps fuel) l _ g Hloop r).
Qed.
End tree_paths.

(** C9, as stated, fails.  In [nodesSharedChild] the nodes [0] and [1]
    both list node [3].  [tree.reverse()] hands the child array of node
    [0] to node [2] and makes node [2] the parent of node [3], which node
    [1] still lists.  The traversal reaches node [3] under node [1],
    before node [2] has an id, so its path is computed without the path
    of its parent: the run returns with node [3] under the parent [2],
    whose path is [object_2], and with the path [object_0], not
    [object_0<object_2]. *)
Lemma path_without_parent_path :
  ∃ g node,
    legacyGenerateTree "m.glb" 1 3 29 noTemplate [] false
      (gltfNodes nodesSharedChild) = Ok g
    ∧ order (Node.children_of (g_store g)) 3 Node.Root = Some [0; 1; 3; 2; 3]
    ∧ Node.get (g_store g) (Node.Idx 3) = Some node
    ∧ Node.parent node = Some (Node.Idx 2)
    ∧ localName (g_store g) 3 = Some "object_0"
    ∧ pathOf (g_store g) (Node.Idx 2) = Some "object_2"
    ∧ Node._path node = Some "object_0"
    ∧ ¬ pathEquation "m.glb" g 3.
Proof.
  eexists _, _. split_and!; try (vm_compute; reflexivity).
  intros (node & r & lname & pth & k & Hget & Hpar & Hname & Hpath & Heq & _).
  vm_compute in Hget. injection Hget as <-.
  vm_compute in Hpar. injection Hpar as <-.
  vm_compute in Hname. injection Hname as <-.
  vm_compute in Hpath. injection Hpath as <-.
  destruct Heq as (pp & Hpp & Heq).
  vm_compute in Hpp. injection Hpp as <-. discriminate Heq.
Qed.

(** C9.  Take a node list that lists no index twice as a child.  After a
    run that returns, every node [x] of the tree (the pre-order sequence
    under the root) holds a memoized path; it is the local name of [x]
    when the parent of [x] is the root, and the local name, ["<"] and the
    path of the parent otherwise, where the local name is the explicit
    name if set and [object_<k>] for the position [k] of [x] in the child
    list of its parent otherwise; the object emitted for [x] carries this
    path as the name of its link.  When, moreover, the child indices are
    in range, there is no cycle, every [skin] names a skin and the call
    depth covers the nodes, the run returns and this holds of every node
    of the list.  The store of a run that returns has every node in the
    child list of its parent, and on every store with this property the
    getter [path] does not throw 'Node not present in parent', whatever
    the call depth. *)
Theorem path_is_localName_and_parent_path (file : string) (ratio : Qc)
    (fuel curID : nat) (tp : TemplateProject) (version : list nat)
    (keep : bool) (json : Gltf) (ns : list NodeIn) :
  nodes json = Some ns →
  NoDup (listed ns) →
  (∀ g,
     legacyGenerateTree file ratio fuel curID tp version keep json = Ok g →
     childOfParent (g_store g)
     ∧ ∃ l, order (Node.children_of (g_store g)) fuel Node.Root = Some l
            ∧ ∀ x, x ∈ l → pathEquation file g x)
  ∧ (Forall (λ c, c < length ns) (listed ns) → acyclic ns →
     skinsInRange (count (skins json)) ns →
     length ns ≤ fuel →
     ∃ g,
       legacyGenerateTree file ratio fuel curID tp version keep json = Ok g
       ∧ ∀ x, x < length ns → pathEquation file g x)
  ∧ ∀ s fuel' r,
      childOfParent s → Node.path fuel' r s ≠ Throw NodeNotPresent.
Proof.
  intros Hnodes Hnd.
  assert (Heq : ∀ N F G rk id0 (g : TreeState) i x,
    describes N G rk (g_store g) → linked N F rk →
    (∀ y, skeleton (G y) = skeleton (F y)) → x < N →
    visitedAt file F G rk id0 (p_objects (g_project g)) i x →
    pathEquation file g x).
  { intros N F G rk id0 g i x HG Hlinked Hskel Hx
      (Hid & r & lname & suffix & Hpar & Hname & Hsuffix & Hpath & Hentry).
    pose proof (linked_skeleton _ F G _ Hskel Hlinked) as HlinkedG.
    destruct (skeleton_fields _ _ (Hskel x)) as (_ & HparG & _).
    rewrite <- HparG in Hpar.
    assert (∀ p, r = Node.Idx p → p < N) as Hr.
    { intros p ->. by eapply linked_parent_lt. }
    exists (G x), r, lname, (lname +:+ suffix), (id0 + i).
    split_and!; [| | | | |done|by rewrite Hentry].
    + by rewrite (describes_get _ _ _ _ _ HG), decide_True.
    + done.
    + eapply nameOf_localName; [done..|].
      rewrite <- Hname. apply nameOf_skeleton; [done|].
      by apply skeleton_nodeAt.
    + done.
    + destruct r as [|p].
      * subst suffix. apply append_empty_r.
      * destruct Hsuffix as (pp & Hpp & ->). exists pp. split; [|done].
        unfold pathOf.
        rewrite (describes_get _ _ _ _ _ HG), decide_True by by apply Hr.
        done. }
  split_and!.
  - intros g. rewrite legacyGenerateTree_unfold.
    destruct (genResources file ratio curID tp version keep json)
      as [[project id0] maps]. cbn [fst snd]. intros Hrun.
    destruct (genTree_paths file maps fuel ns json project id0 Hnodes Hnd g
                Hrun)
      as (F & l & G & Hlinked & Hl & _ & Hlt & HG & Hskel & Hvis).
    pose proof (linked_skeleton _ F G _ Hskel Hlinked) as HlinkedG.
    split; [exact (linked_childOfParent _ G _ _ HG HlinkedG)|].
    exists l. split; [done|]. intros x Hx.
    pose proof Hx as [i Hi]%list_elem_of_lookup_1.
    exact (Heq _ F G _ id0 g i x HG Hlinked Hskel (Hlt x Hx) (Hvis i x Hi)).
  - intros Hlt Hacyc Hskins Hfuel.
    destruct (legacyGenerateTree_wf file ratio fuel curID tp version keep json
                ns Hnodes (conj Hlt (conj Hnd Hacyc)) Hskins Hfuel)
      as (project & maps & s0 & F & l & g & G & _ & _ & _ & [Hlinked _] & _
          & Hperm & Htree & HG & _ & Hskel & Hvis & _).
    exists g. split; [done|]. intros x Hx.
    assert (x ∈ l) as [i Hi]%list_elem_of_lookup_1.
    { rewrite Hperm. apply elem_of_seq. lia. }
    exact (Heq _ F G _ _ g i x HG Hlinked Hskel Hx (Hvis i x Hi)).
  - intros s fuel' r Hs. by apply path_present.
Qed.

Lemma path_is_localName_and_parent_path_witness :
  ∃ g,
    legacyGenerateTree "m.glb" 1 3 29 noTemplate [] false
      (gltfNodes nodesABC) = Ok g
    ∧ pathOf (g_store g) (Node.Idx 1) = Some "B<C"
    ∧ pathEquation "m.glb" g 1.
Proof.
  assert (∃ g, legacyGenerateTree "m.glb" 1 3 29 noTemplate [] false
                 (gltfNodes nodesABC) = Ok g
               ∧ pathOf (g_store g) (Node.Idx 1) = Some "B<C"
               ∧ ∃ l, order (Node.children_of (g_store g)) 3 Node.Root
                      = Some l ∧ 1 ∈ l)
    as (g & Hrun & Hpath & l & Hl & Hin).
  { eexists. split_and!; [vm_compute; reflexivity..|].
    eexists. split; [vm_compute; reflexivity|].
    apply (bool_decide_unpack _). vm_compute. exact I. }
  exists g. split_and!; [exact Hrun|exact Hpath|].
  assert (NoDup (listed nodesABC)) as Hnd
    by (apply (bool_decide_unpack _); vm_compute; exact I).
  destruct (path_is_localName_and_parent_path "m.glb" 1 3 29 noTemplate []
              false (gltfNodes nodesABC) nodesABC eq_refl Hnd)
    as (Hany & _ & _).
  destruct (Hany g Hrun) as (_ & l' & Hl' & Hall).
  rewrite Hl in Hl'. injection Hl' as <-. by apply Hall.
Defined.

(** ** Joints *)

Section joints.
Variables (maps : SkinMaps) (s1 : Node.store) (lo hi : nat).
Hypothesis HskinsJoints :
  ∀ sk, skinsJoints maps !! sk
        = if decide (lo ≤ sk < hi) then Some (Js.toString sk) else None.
Hypothesis HjointIdxs : ∀ j sk, jointIdxs maps !! j = Some sk → lo ≤ sk < hi.

(** The joints array of the skin [sid] after the callback has run on the
    pairs (node, id): the ids of the nodes that the joint-index map sends
    to [sid] are appended, in the order of the pairs. *)
Lemma foldl_jointPush pairs skins sid :
  Forall (λ xi, nodeSkin s1 xi.1 = jointIdxs maps !! xi.1) pairs →
  s_joints <$> foldl (jointPush maps s1) skins pairs !! Js.toString sid
  = (λ e, s_joints e
          ++ ((λ xi, Js.toString xi.2) <$>
                filter (λ xi, jointIdxs maps !! xi.1 = Some sid) pairs))
    <$> skins !! Js.toString sid.
Proof.
  revert skins. induction pairs as [|[x i] pairs IH]; intros skins Hall.
  - simpl. destruct (skins !! _); simpl; [|done]. by rewrite app_nil_r.
  - apply Forall_cons in Hall as [Hx Hall]. simpl in Hx.
    cbn [foldl]. rewrite IH by done. unfold jointPush at 1. simpl.
    rewrite Hx, filter_cons.
    destruct (decide (jointIdxs maps !! (x, i).1 = Some sid)) as [Hsid|Hsid];
      simpl in Hsid.
    + rewrite Hsid. simpl.
      rewrite HskinsJoints, decide_True by by eapply HjointIdxs.
      rewrite lookup_alter_eq.
      destruct (skins !! _); simpl; [|done]. by rewrite <- app_assoc.
    + destruct (jointIdxs maps !! x) as [sk|] eqn:Hj; simpl; [|done].
      rewrite HskinsJoints, decide_True by by eapply HjointIdxs.
      rewrite lookup_alter_ne; [done|].
      intros ?%(inj Js.toString). congruence.
Qed.
End joints.

Section treeStore.
Variables (maps : SkinMaps) (json : Gltf) (s1 : Node.store).
Hypothesis Hstore : treeStore maps json = Some s1.

(** The child arrays of the store that is traversed hold node indices,
    and the [skin] field of a node is what the joint-index map has for
    it. *)
Lemma treeStore_spec :
  (∀ r c, c ∈ Node.children_of s1 r → c < count (nodes json))
  ∧ (∀ x, x < count (nodes json) → nodeSkin s1 x = jointIdxs maps !! x).
Proof.
  unfold treeStore, count in *. destruct (nodes json) as [ns|]; simpl.
  - destruct (buildTree maps ns) as [s0|] eqn:Hbuild; [|done].
    simplify_eq.
    pose proof (buildTree_in_range maps ns s0 Hbuild) as Hrange.
    rewrite Forall_forall in Hrange.
    pose proof (orphans_lt ns) as Hlt. rewrite Forall_forall in Hlt.
    destruct (buildTree_reverse maps ns s0 Hbuild)
      as (F0 & F1 & HF0 & HF1 & Hprops & Hu & Hmirror & Hother).
    assert (∀ y c, y < length ns → c ∈ Node.children (F0 y) → c < length ns)
      as Hkids0.
    { intros y c Hy Hc.
      destruct (lookup_lt_is_Some_2 ns y Hy) as [n Hn].
      destruct (Hprops y n Hn) as [_ Hk]. rewrite Hk in Hc.
      by eapply Hrange, kidsIn_listed. }
    split.
    + intros [|y] c Hc.
      * rewrite (describes_root _ _ _ _ HF1) in Hc. by apply Hlt.
      * rewrite (describes_kids _ _ _ _ y HF1) in Hc.
        case_decide as Hy; [|by apply elem_of_nil in Hc].
        destruct (decide (y ∈ sort (orphansOf ns))) as [Hin|Hnot].
        -- apply list_elem_of_lookup_1 in Hin as [p Hp].
           pose proof (lookup_lt_Some _ _ _ Hp) as Hplt.
           destruct (lookup_lt_is_Some_2 (sort (orphansOf ns))
                       (length (sort (orphansOf ns)) - 1 - p)) as [c' Hc'];
             [lia|].
           rewrite (Hmirror p y c' Hp Hc') in Hc.
           eapply (Hkids0 c'); [|done].
           by eapply Hlt, list_elem_of_lookup_2.
        -- rewrite (Hother y Hnot) in Hc. by eapply Hkids0.
    + intros x Hx. unfold nodeSkin.
      rewrite (describes_get _ _ _ _ _ HF1), decide_True by done. simpl.
      destruct (lookup_lt_is_Some_2 ns x Hx) as [n Hn].
      destruct (Hprops x n Hn) as [Hd _].
      destruct (unlinked_fields _ _ (Hu x)) as (_ & _ & _ & _ & ->).
      destruct (unlinked_fields _ _ Hd) as (_ & _ & _ & _ & ->).
      simpl. by destruct (jointIdxs maps !! x).
  - simplify_eq. split; [|intros x Hx; lia].
    intros [|y] c Hc; cbv in Hc; by apply elem_of_nil in Hc.
Qed.

Lemma traversalOrder_lt fuel l x :
  traversalOrder fuel maps json = Some l → x ∈ l → x < count (nodes json).
Proof.
  unfold traversalOrder. rewrite Hstore. simpl. intros Hl Hx.
  destruct treeStore_spec as [Hkids _].
  rewrite (order_Permutation _ _ _ _ Hl) in Hx.
  apply elem_of_app in Hx as [Hx|Hx]; [by eapply Hkids|].
  apply list_elem_of_bind in Hx as (y & Hx & _). by eapply Hkids.
Qed.
End treeStore.

(** C7.  When the run returns, the entry of the [k]-th skin, under the id
    [skinsFrom curID json + k], has as joints the stringified ids of
    exactly the nodes that the joint-index map sends to this skin id, in
    the order in which the traversal visits them: the [i]-th node visited
    has the id [objectsFrom curID json + i]. *)
Theorem joints_in_traversal_order (file : string) (ratio : Qc)
    (fuel curID : nat) (tp : TemplateProject) (version : list nat)
    (keep : bool) (json : Gltf) (project' : Project) (id' : nat) :
  legacyGenerateProject file ratio fuel curID tp version keep json
  = Ok (project', id') →
  ∃ l,
    traversalOrder fuel
      (genResources file ratio curID tp version keep json).2 json = Some l
    ∧ ∀ k, k < count (skins json) →
        s_joints <$> p_skins project' !! Js.toString (skinsFrom curID json + k)
        = Some ((λ xi, Js.toString xi.2) <$>
                  filter (λ xi,
                            jointIdxs
                              (genResources file ratio curID tp version keep
                                 json).2 !! xi.1
                            = Some (skinsFrom curID json + k))
                         (zip l (seq (objectsFrom curID json) (length l)))).
Proof.
  intros Hrun. unfold legacyGenerateProject in Hrun.
  destruct (legacyGenerateTree _ _ _ _ _ _ _ _) as [g|] eqn:Htree;
    simpl in Hrun; [|done].
  rewrite legacyGenerateTree_unfold in Htree.
  destruct (genResources_spec file ratio curID tp version keep json)
    as (project & maps & Hres & _ & _ & _ & _ & [Hnew _] & _ & _ & _ & _
        & M2 & M3).
  rewrite Hres in *. simpl in *.
  destruct (genTree_inv file maps fuel json project _ g Htree)
    as (s1 & l & Hstore & Hl & _ & _ & _ & _ & Hskins).
  exists l. split; [done|]. intros k Hk.
  destruct (genAnimations_spec file json (g_project g) (g_id g))
    as (project'' & Hanim & Hframe & _).
  rewrite Hanim in Hrun. simplify_eq.
  assert (p_skins project' = p_skins (g_project g)) as -> by by rewrite Hframe.
  rewrite Hskins.
  rewrite (foldl_jointPush maps s1 _ _ M2 M3).
  - destruct (Hnew (skinsFrom curID json + k)) as (e0 & -> & Hj); [lia|].
    simpl. by rewrite Hj.
  - apply Forall_forall. intros [x i] Hin. simpl.
    destruct (treeStore_spec maps json s1 Hstore) as [_ Hskin]. apply Hskin.
    eapply (traversalOrder_lt maps json s1 Hstore); [done|].
    apply elem_of_zip_l in Hin. done.
Qed.

Lemma joints_in_traversal_order_witness :
  ∃ project' id',
    legacyGenerateProject "m.glb" 1 2 29 noTemplate [] false gltfJointsXY
    = Ok (project', id')
    ∧ traversalOrder 2
        (genResources "m.glb" 1 29 noTemplate [] false gltfJointsXY).2
        gltfJointsXY = Some [0; 1]
    ∧ s_joints <$> p_skins project' !! "29" = Some ["30"; "31"].
Proof.
  eexists _, _.
  split; [vm_compute; reflexivity|].
  edestruct (joints_in_traversal_order "m.glb" 1 2 29 noTemplate [] false
               gltfJointsXY) as (l & Hl & Hjoints).
  { vm_compute. reflexivity. }
  vm_compute in Hl. injection Hl as <-.
  split; [vm_compute; reflexivity|].
  assert (0 < count (skins gltfJointsXY)) as Hk by (unfold count; simpl; lia).
  etrans; [exact (Hjoints 0 Hk)|]. vm_compute. reflexivity.
Defined.

(** ** Allocation order *)

(** On a well-formed node list, a traversal order, when there is one,
    holds every node index once. *)
Lemma traversalOrder_wf fuel maps json ns l :
  nodes json = Some ns → wellFormed ns →
  traversalOrder fuel maps json = Some l → l ≡ₚ seq 0 (length ns).
Proof.
  intros Hnodes (Hwf1 & Hwf2 & Hwf3) Hl.
  set (N := length ns). set (rk := sort (orphansOf ns)).
  destruct (buildTree_treeInv ns Hwf1 Hwf2 maps Hwf3)
    as (s0 & F0 & Hbuild & HF0 & Hinv0 & _).
  destruct (reverse_spec N F0 rk s0 HF0 (orphans_NoDup ns) (orphans_lt ns))
    as (F & HF & _ & _ & _ & _ & Hinv).
  specialize (Hinv _ Hinv0).
  unfold traversalOrder, treeStore in Hl.
  rewrite Hnodes, Hbuild in Hl. simpl in Hl.
  set (K := Node.children_of (Node.reverse Node.Root s0)) in *.
  assert (HKroot : K Node.Root = rk) by (by eapply describes_root).
  assert (HKidx : ∀ p, K (Node.Idx p)
                       = if decide (p < N) then Node.children (F p) else [])
    by (intros p; by eapply describes_kids).
  pose proof Hinv as (Hlinked & Hroot & Hchild).
  assert (Hlt : ∀ x, x ∈ l → x < N).
  { intros x Hx. apply list_elem_of_lookup in Hx as [i Hi].
    destruct (order_parent_first K fuel _ l Hl i x Hi) as (r & Hxr & _).
    destruct r as [|p].
    - rewrite HKroot in Hxr. by eapply (linked_root_lt N F rk).
    - rewrite HKidx in Hxr. case_decide; [|by apply elem_of_nil in Hxr].
      by eapply (linked_child_lt N F rk). }
  apply (closed_Permutation (λ x, K (Node.Idx x)) rk (depthOf ns))
    with (D := N).
  - intros p c. rewrite HKidx. case_decide as Hp; [|by intros ?%elem_of_nil].
    by apply Hchild.
  - rewrite <- HKroot. by eapply order_Permutation.
  - pose proof Hlinked as (Hp & _). rewrite <- Hp at 1. f_equiv.
    apply eq_Permutation_helper. apply Forall_bind_ext, Forall_forall.
    intros p Hp'%elem_of_seq. rewrite HKidx, decide_True by lia. done.
  - intros x Hx. apply depthOf_lt; [done|]. by apply Hlt.
  - intros x Hx%elem_of_seq. apply depthOf_lt; [done|]. lia.
Qed.

Lemma added_alter {V} lo n (m' : gmap string V) f key :
  added (λ _, True) lo n ∅ m' → added (λ _, True) lo n ∅ (alter f key m').
Proof.
  intros [Hnew Hold]. split.
  - intros k Hk. destruct (Hnew k Hk) as (v & Hv & _).
    destruct (decide (key = Js.toString k)) as [->|Hne].
    + rewrite lookup_alter_eq, Hv. by eexists.
    + rewrite lookup_alter_ne, Hv by done. by eexists.
  - intros key' Hkey'. destruct (decide (key = key')) as [->|Hne].
    + by rewrite lookup_alter_eq, (Hold key' Hkey').
    + rewrite lookup_alter_ne by done. by apply Hold.
Qed.

Lemma added_jointPush maps s1 lo n pairs (skins : gmap string SkinEntry) :
  added (λ _, True) lo n ∅ skins →
  added (λ _, True) lo n ∅ (foldl (jointPush maps s1) skins pairs).
Proof.
  revert skins. induction pairs as [|e pairs IH]; intros skins H; [done|].
  simpl. apply IH. unfold jointPush.
  destruct (nodeSkin s1 e.1 ≫= _); [by apply added_alter|done].
Qed.

(** What a run that returns has written, category by category. *)
Lemma legacyGenerateProject_spec (file : string) (ratio : Qc)
    (fuel curID : nat) (tp : TemplateProject) (version : list nat)
    (keep : bool) (json : Gltf) (project' : Project) (id' : nat) :
  legacyGenerateProject file ratio fuel curID tp version keep json
  = Ok (project', id') →
  ∃ l,
    traversalOrder fuel
      (genResources file ratio curID tp version keep json).2 json = Some l
    ∧ added isGen curID (count (images json))
        (p_images (generateBaseProject tp version keep)) (p_images project')
    ∧ added isGen (texturesFrom curID json)
        (distinctSources (default [] (textures json)))
        (p_textures (generateBaseProject tp version keep))
        (p_textures project')
    ∧ added isGen (materialsFrom curID json) (count (materials json))
        (p_materials (generateBaseProject tp version keep))
        (p_materials project')
    ∧ added isGen (meshesFrom curID json) (count (meshes json))
        (p_meshes (generateBaseProject tp version keep)) (p_meshes project')
    ∧ added (λ _, True) (skinsFrom curID json) (count (skins json))
        ∅ (p_skins project')
    ∧ added (λ _, True) (objectsFrom curID json) (length l)
        ∅ (p_objects project')
    ∧ added (λ _, True) (objectsFrom curID json + length l)
        (count (animations json)) ∅ (p_animations project')
    ∧ id' = objectsFrom curID json + length l + count (animations json).
Proof.
  intros Hrun. unfold legacyGenerateProject in Hrun.
  destruct (legacyGenerateTree _ _ _ _ _ _ _ _) as [g|] eqn:Htree;
    simpl in Hrun; [|done].
  rewrite legacyGenerateTree_unfold in Htree.
  destruct (genResources_spec file ratio curID tp version keep json)
    as (project & maps & Hres & A1 & A2 & A3 & A4 & A5 & Hobj & Hanim0 & _).
  rewrite Hres in *. simpl in *.
  destruct (genTree_inv file maps fuel json project _ g Htree)
    as (s1 & l & Hstore & Hl & Hid & _ & Hsame & Hobjs & Hskins).
  destruct (genAnimations_spec file json (g_project g) (g_id g))
    as (project'' & Hanim & Hframe & A7).
  rewrite Hanim in Hrun. simplify_eq.
  unfold sameResources in Hsame.
  assert (p_images project' = p_images project
          ∧ p_textures project' = p_textures project
          ∧ p_materials project' = p_materials project
          ∧ p_meshes project' = p_meshes project
          ∧ p_skins project' = p_skins (g_project g)
          ∧ p_objects project' = p_objects (g_project g)
          ∧ p_animations (g_project g) = p_animations project)
    as (-> & -> & -> & -> & -> & -> & Hanim1).
  { rewrite Hframe, Hsame. done. }
  rewrite Hanim1, Hanim0, Hid in A7. rewrite Hobj in Hobjs.
  exists l. split_and!; try done.
  - rewrite Hskins. apply added_jointPush.
    by eapply added_weaken; [|exact A5].
  - by rewrite Hid.
Qed.

(** C6.  When the run returns, the keys written by each loop are
    consecutive ids, and each category starts where the one before it
    ends: the images from [curID], then the textures (one id per distinct
    source image), the materials, the meshes, the skins, the scene objects
    (one id per node visited by the traversal, which on a well-formed node
    list is one per node), and last the animations; the id returned is the
    one after the last animation.  Outside its range of ids, a mapping is
    as the base project seeds it.  The document is read by the names of
    its lists, so the order of its keys plays no part. *)
Theorem allocation_order (file : string) (ratio : Qc) (fuel curID : nat)
    (tp : TemplateProject) (version : list nat) (keep : bool) (json : Gltf)
    (project' : Project) (id' : nat) :
  legacyGenerateProject file ratio fuel curID tp version keep json
  = Ok (project', id') →
  ∃ l,
    traversalOrder fuel
      (genResources file ratio curID tp version keep json).2 json = Some l
    ∧ (∀ ns, nodes json = Some ns → wellFormed ns → length l = length ns)
    ∧ added isGen curID (count (images json))
        (p_images (generateBaseProject tp version keep)) (p_images project')
    ∧ added isGen (texturesFrom curID json)
        (distinctSources (default [] (textures json)))
        (p_textures (generateBaseProject tp version keep))
        (p_textures project')
    ∧ added isGen (materialsFrom curID json) (count (materials json))
        (p_materials (generateBaseProject tp version keep))
        (p_materials project')
    ∧ added isGen (meshesFrom curID json) (count (meshes json))
        (p_meshes (generateBaseProject tp version keep)) (p_meshes project')
    ∧ added (λ _, True) (skinsFrom curID json) (count (skins json))
        ∅ (p_skins project')
    ∧ added (λ _, True) (objectsFrom curID json) (length l)
        ∅ (p_objects project')
    ∧ added (λ _, True) (objectsFrom curID json + length l)
        (count (animations json)) ∅ (p_animations project')
    ∧ id' = objectsFrom curID json + length l + count (animations json).
Proof.
  intros Hrun.
  destruct (legacyGenerateProject_spec _ _ _ _ _ _ _ _ _ _ Hrun)
    as (l & Hl & Hrest).
  exists l. split; [done|]. split; [|done].
  intros ns Hnodes Hwf.
  rewrite (Permutation_length (traversalOrder_wf _ _ _ _ _ Hnodes Hwf Hl)).
  apply length_seq.
Qed.

Lemma allocation_order_witness :
  ∃ project',
    legacyGenerateProject "m.glb" 1 1 29 noTemplate [] false gltfOneOfEach
    = Ok (project', 36)
    ∧ is_Some (p_images project' !! "29")
    ∧ is_Some (p_textures project' !! "30")
    ∧ is_Some (p_materials project' !! "31")
    ∧ is_Some (p_meshes project' !! "32")
    ∧ is_Some (p_skins project' !! "33")
    ∧ is_Some (p_objects project' !! "34")
    ∧ is_Some (p_animations project' !! "35").
Proof.
  assert (∃ project',
            legacyGenerateProject "m.glb" 1 1 29 noTemplate [] false
              gltfOneOfEach = Ok (project', 36)) as [project' Hrun].
  { eexists. vm_compute. reflexivity. }
  exists project'. split; [exact Hrun|].
  destruct (allocation_order "m.glb" 1 1 29 noTemplate [] false
              gltfOneOfEach project' 36 Hrun)
    as (l & Hl & _ & [A1 _] & [A2 _] & [A3 _] & [A4 _] & [A5 _] & [A6 _]
        & [A7 _] & _).
  vm_compute in Hl. injection Hl as <-.
  split_and!.
  - destruct (A1 29) as (v & Hv & _); [vm_compute; lia|]. exists v. exact Hv.
  - destruct (A2 30) as (v & Hv & _); [vm_compute; lia|]. exists v. exact Hv.
  - destruct (A3 31) as (v & Hv & _); [vm_compute; lia|]. exists v. exact Hv.
  - destruct (A4 32) as (v & Hv & _); [vm_compute; lia|]. exists v. exact Hv.
  - destruct (A5 33) as (v & Hv & _); [vm_compute; lia|]. exists v. exact Hv.
  - destruct (A6 34) as (v & Hv & _); [vm_compute; lia|]. exists v. exact Hv.
  - destruct (A7 35) as (v & Hv & _); [vm_compute; lia|]. exists v. exact Hv.
Defined.

(** ** Absent lists *)

Section absent.
Variables (file : string) (ratio : Qc).

Lemma genImages_sameLists json json' st :
  default [] (images json) = default [] (images json') →
  genImages file json st = genImages file json' st.
Proof.
  unfold genImages. destruct (images json), (images json'); simpl;
    intros; by simplify_eq.
Qed.

Lemma genTextures_sameLists json json' st :
  default [] (textures json) = default [] (textures json') →
  genTextures file json st = genTextures file json' st.
Proof.
  unfold genTextures. destruct (textures json), (textures json'); simpl;
    intros; by simplify_eq.
Qed.

Lemma genMaterials_sameLists json json' st :
  default [] (materials json) = default [] (materials json') →
  genMaterials file json st = genMaterials file json' st.
Proof.
  unfold genMaterials. destruct (materials json), (materials json'); simpl;
    intros; by simplify_eq.
Qed.

Lemma genMeshes_sameLists json json' st :
  default [] (meshes json) = default [] (meshes json') →
  genMeshes file ratio json st = genMeshes file ratio json' st.
Proof.
  unfold genMeshes. destruct (meshes json), (meshes json'); simpl;
    intros; by simplify_eq.
Qed.

Lemma genSkins_sameLists json json' st :
  default [] (skins json) = default [] (skins json') →
  genSkins file json st = genSkins file json' st.
Proof.
  unfold genSkins. destruct (skins json), (skins json'); simpl;
    intros; by simplify_eq.
Qed.

Lemma genAnimations_sameLists json json' st :
  default [] (animations json) = default [] (animations json') →
  genAnimations file json st = genAnimations file json' st.
Proof.
  unfold genAnimations. destruct (animations json), (animations json'); simpl;
    intros; by simplify_eq.
Qed.

(** The scene objects block on an empty [nodes] list: no node is built,
    [reverse] has no pair to exchange and the traversal visits nothing. *)
Lemma genTree_empty fuel maps json st :
  default [] (nodes json) = [] →
  genTree file fuel maps json st
  = Ok {| g_store := {| Node.tree := Node.new true; Node.nodesFlat := [] |};
          g_project := st.1; g_id := st.2 |}.
Proof.
  unfold genTree. destruct (nodes json) as [ns|]; [|done].
  intros Hns. simpl in Hns. subst ns.
  assert (buildTree maps []
          = Ok {| Node.tree := Node.new true; Node.nodesFlat := [] |}) as ->
    by reflexivity.
  rewrite bind_Ok. cbn zeta. by rewrite dfs_unfold.
Qed.

Lemma genTree_sameLists fuel maps json json' st :
  default [] (nodes json) = default [] (nodes json') →
  genTree file fuel maps json st = genTree file fuel maps json' st.
Proof.
  intros Heq.
  destruct (nodes json) as [ns|] eqn:Hns, (nodes json') as [ns'|] eqn:Hns';
    simpl in Heq.
  - unfold genTree. by rewrite Hns, Hns', Heq.
  - rewrite !genTree_empty; [done|by rewrite Hns'|by rewrite Hns].
  - rewrite !genTree_empty; [done|by rewrite Hns'|by rewrite Hns].
  - unfold genTree. by rewrite Hns, Hns'.
Qed.

Lemma genResources_sameLists curID tp version keep json json' :
  sameLists json json' →
  genResources file ratio curID tp version keep json
  = genResources file ratio curID tp version keep json'.
Proof.
  intros (H1 & H2 & H3 & H4 & H5 & _). unfold genResources.
  rewrite (genImages_sameLists json json') by done.
  rewrite (genTextures_sameLists json json') by done.
  rewrite (genMaterials_sameLists json json') by done.
  rewrite (genMeshes_sameLists json json') by done.
  by rewrite (genSkins_sameLists json json').
Qed.

Lemma legacyGenerateProject_sameLists fuel curID tp version keep json json' :
  sameLists json json' →
  legacyGenerateProject file ratio fuel curID tp version keep json
  = legacyGenerateProject file ratio fuel curID tp version keep json'.
Proof.
  intros Hsame. unfold legacyGenerateProject.
  rewrite !legacyGenerateTree_unfold.
  rewrite (genResources_sameLists _ _ _ _ json json') by done.
  destruct Hsame as (_ & _ & _ & _ & _ & H6 & H7).
  rewrite (genTree_sameLists _ _ json json') by done.
  destruct (genTree _ _ _ _ _); simpl; [|done].
  by rewrite (genAnimations_sameLists json json').
Qed.
End absent.

(** C10, as stated, fails for the meshes, textures, images and materials:
    with [--keep-other-resources] and a template that holds an
    engine-builtin mesh, a document without a [meshes] list leaves the
    [meshes] mapping with the template's entry, not empty. *)
Lemma absent_meshes_mapping_not_empty :
  meshes emptyGltf = None
  ∧ (r ← legacyGenerateProject "m.glb" 1 0 29
           (parseTemplateProject templateMesh7).1 [] true emptyGltf;
     Ok (p_meshes r.1 !! "7"))
    = Ok (Some (Kept (tobj "PrimitiveCube" "default")))
  ∧ ∀ project' id',
      legacyGenerateProject "m.glb" 1 0 29
        (parseTemplateProject templateMesh7).1 [] true emptyGltf
      = Ok (project', id') →
      p_meshes project' ≠ ∅.
Proof.
  split_and!; [reflexivity|vm_compute; reflexivity|].
  intros project' id' Hrun Hempty.
  apply (f_equal (λ r, r ← r; Ok (p_meshes r.1 !! "7"))) in Hrun.
  simpl in Hrun. rewrite Hempty, lookup_empty in Hrun.
  vm_compute in Hrun. discriminate Hrun.
Qed.

Lemma count_None {A} (l : option (list A)) : l = None → count l = 0.
Proof. by intros ->. Qed.

(** C10 (amended).  A document in which a top-level list is absent gives
    the same result, project and next id, as the document in which that
    list is empty: the run reads a list only through its entries.  When the
    [nodes] list is absent the run returns, whatever the call depth, and
    with every list absent it returns the base project and the id it
    started from.  In a run that returns, the mapping of an absent list is
    as the base project seeds it: empty for the skins, the objects and the
    animations, and for the images, textures, materials and meshes the
    template's engine-builtin entries under [--keep-other-resources] and
    empty without it. *)
Theorem absent_list_like_empty (file : string) (ratio : Qc)
    (fuel curID : nat) (tp : TemplateProject) (version : list nat)
    (keep : bool) (json : Gltf) :
  (∀ json', sameLists json json' →
     legacyGenerateProject file ratio fuel curID tp version keep json'
     = legacyGenerateProject file ratio fuel curID tp version keep json)
  ∧ (nodes json = None →
     ∃ project',
       legacyGenerateProject file ratio fuel curID tp version keep json
       = Ok (project', objectsFrom curID json + count (animations json)))
  ∧ legacyGenerateProject file ratio fuel curID tp version keep emptyGltf
    = Ok (set_files (λ files, files ++ [file])
            (generateBaseProject tp version keep), curID)
  ∧ (∀ project' id',
       legacyGenerateProject file ratio fuel curID tp version keep json
       = Ok (project', id') →
       (images json = None →
        p_images project' = p_images (generateBaseProject tp version keep))
       ∧ (textures json = None →
          p_textures project'
          = p_textures (generateBaseProject tp version keep))
       ∧ (materials json = None →
          p_materials project'
          = p_materials (generateBaseProject tp version keep))
       ∧ (meshes json = None →
          p_meshes project' = p_meshes (generateBaseProject tp version keep))
       ∧ (skins json = None → p_skins project' = ∅)
       ∧ (nodes json = None → p_objects project' = ∅)
       ∧ (animations json = None → p_animations project' = ∅))
  ∧ (keep = false →
     p_images (generateBaseProject tp version keep) = ∅
     ∧ p_textures (generateBaseProject tp version keep) = ∅
     ∧ p_materials (generateBaseProject tp version keep) = ∅
     ∧ p_meshes (generateBaseProject tp version keep) = ∅).
Proof.
  split_and!.
  - intros json' Hsame. symmetry. by apply legacyGenerateProject_sameLists.
  - intros Hnodes. unfold legacyGenerateProject.
    rewrite legacyGenerateTree_unfold.
    destruct (genResources_spec file ratio curID tp version keep json)
      as (project & maps & -> & _).
    rewrite genTree_empty by by rewrite Hnodes. simpl.
    destruct (genAnimations_spec file json project (objectsFrom curID json))
      as (project' & -> & _).
    by exists project'.
  - reflexivity.
  - intros project' id' Hrun.
    destruct (legacyGenerateProject_spec _ _ _ _ _ _ _ _ _ _ Hrun)
      as (l & Hl & A1 & A2 & A3 & A4 & A5 & A6 & A7 & _).
    split_and!.
    + intros H. rewrite (count_None _ H) in A1. by eapply added_nothing.
    + intros H. rewrite H in A2.
      assert (distinctSources [] = 0) as Hz by (vm_compute; reflexivity).
      simpl in A2. rewrite Hz in A2. by eapply added_nothing.
    + intros H. rewrite (count_None _ H) in A3. by eapply added_nothing.
    + intros H. rewrite (count_None _ H) in A4. by eapply added_nothing.
    + intros H. rewrite (count_None _ H) in A5. by eapply added_nothing.
    + intros H.
      assert (l = []) as ->.
      { unfold traversalOrder, treeStore in Hl. rewrite H in Hl.
        simpl in Hl. rewrite order_unfold in Hl. simpl in Hl.
        by simplify_eq. }
      by eapply added_nothing.
    + intros H. rewrite (count_None _ H) in A7. by eapply added_nothing.
  - intros ->. done.
Qed.

(** * Further properties of the code *)

(** ** Ids and keys *)

Lemma is_nat_pretty_N_char (x : N) :
  (x < 10)%N → Ascii.is_nat (pretty_N_char x) = Some (N.to_nat x).
Proof.
  intros Hx.
  assert (x = 0 ∨ x = 1 ∨ x = 2 ∨ x = 3 ∨ x = 4 ∨ x = 5 ∨ x = 6 ∨ x = 7
          ∨ x = 8 ∨ x = 9)%N as Hcases by lia.
  repeat (destruct Hcases as [->|Hcases]; [reflexivity|]). by subst.
Qed.

Lemma digits_pretty_N_go (x : N) (s : string) :
  Js.digits (pretty_N_go x s) 0 = Js.digits s (N.to_nat x).
Proof.
  revert s. induction (N.lt_wf_0 x) as [x _ IH]; intros s.
  assert (x = 0 ∨ 0 < x)%N as [->|Hpos] by lia.
  { by rewrite pretty_N_go_0. }
  rewrite pretty_N_go_step by done.
  rewrite IH by by apply N.div_lt.
  simpl. rewrite is_nat_pretty_N_char by by apply N.mod_lt.
  simpl. f_equal.
  pose proof (N.div_mod x 10). lia.
Qed.

(** [Number(n.toString())] is [n]. *)
Lemma Number_toString (n : nat) : Js.Number (Js.toString n) = Some n.
Proof.
  unfold Js.Number, Js.toString, pretty, pretty_nat, pretty, pretty_N.
  case_decide as Hz.
  - assert (n = 0) as -> by lia. reflexivity.
  - rewrite digits_pretty_N_go. simpl. f_equal. lia.
Qed.

Lemma foldr_max_spec (l : list nat) :
  (∀ k, k ∈ l → k ≤ foldr max 0 l)
  ∧ (foldr max 0 l = 0 ∨ foldr max 0 l ∈ l).
Proof.
  induction l as [|x l [IH1 IH2]]; simpl.
  - split; [by intros k ?%elem_of_nil|by left].
  - split.
    + intros k [->|Hk]%elem_of_cons; [lia|]. specialize (IH1 k Hk). lia.
    + destruct (decide (foldr max 0 l ≤ x)).
      * right. rewrite Nat.max_l by done. by left.
      * rewrite Nat.max_r by lia. destruct IH2 as [->|?]; [by left|].
        right. by right.
Qed.

Lemma parseTemplateProject_max_bound (json : TemplateJson) :
  tj_animations json = None → tj_skins json = None →
  ∃ m,
    (parseTemplateProject json).2 = Js.Num m
    ∧ (∀ key k, key ∈ templateKeys json → Js.Number key = Some k → k ≤ m)
    ∧ (m = 0 ∨ ∃ key, key ∈ templateKeys json ∧ Js.Number key = Some m).
Proof.
  intros Ha Hs. eexists. split.
  { by apply parseTemplateProject_max_other_categories. }
  fold (templateKeys json). unfold maxNumericKey.
  destruct (foldr_max_spec (omap Js.Number (templateKeys json)))
    as [Hle Hmax].
  split.
  - intros key k Hkey Hk. apply Hle. apply list_elem_of_omap. eauto.
  - destruct Hmax as [?|Hin]; [by left|]. right.
    apply list_elem_of_omap in Hin as (key & ? & ?). eauto.
Qed.

(** X1.  For a template that has no [animations] and no [skins] category
    and whose keys are plain (runs of at most 15 decimal digits, or names
    that begin with a letter other than [I]: the keys on which [Js.Number]
    is the [Number] of the code), the second component of
    [parseTemplateProject] is a number [m] that no numeric key of the
    scanned categories exceeds, and that is [0] or one of these keys;
    symbolic keys do not count. *)
Theorem parseTemplateProject_maxId (json : TemplateJson) :
  tj_animations json = None → tj_skins json = None →
  Forall plainKey (templateKeys json) →
  ∃ m,
    (parseTemplateProject json).2 = Js.Num m
    ∧ (∀ key k, key ∈ templateKeys json → Js.Number key = Some k → k ≤ m)
    ∧ (m = 0 ∨ ∃ key, key ∈ templateKeys json ∧ Js.Number key = Some m).
Proof.
  intros Ha Hs _.
  destruct (parseTemplateProject_max_bound json Ha Hs) as (m & Hm & Hle & Hmax).
  exists m. split_and!; [done|done|].
  destruct Hmax as [->|(key & ? & ?)]; [by left|right; by exists key].
Qed.

Lemma parseTemplateProject_maxId_witness :
  ∃ m, (parseTemplateProject templateShader28).2 = Js.Num m ∧ m = 28.
Proof.
  destruct (parseTemplateProject_maxId templateShader28)
    as (m & Hm & _ & _);
    [reflexivity|reflexivity
    |apply (bool_decide_unpack _); vm_compute; exact I|].
  exists m. split; [done|]. vm_compute in Hm. by injection Hm as <-.
Defined.

(** ** Builtin entries of a template *)




(** ** The phases of a run *)

(** A run that returns, cut at the end of each loop. *)
Lemma legacyGenerateProject_phases (file : string) (ratio : Qc)
    (fuel curID : nat) (tp : TemplateProject) (version : list nat)
    (keep : bool) (json : Gltf) (project' : Project) (id' : nat) :
  legacyGenerateProject file ratio fuel curID tp version keep json
  = Ok (project', id') →
  ∃ p1 p2 p3 p4 p5 maps g,
    genImages file json
      (set_files (λ files, files ++ [file])
         (generateBaseProject tp version keep), curID)
    = (p1, texturesFrom curID json)
    ∧ genTextures file json (p1, texturesFrom curID json)
      = (p2, materialsFrom curID json)
    ∧ genMaterials file json (p2, materialsFrom curID json)
      = (p3, meshesFrom curID json)
    ∧ genMeshes file ratio json (p3, meshesFrom curID json)
      = (p4, skinsFrom curID json)
    ∧ genSkins file json (p4, skinsFrom curID json)
      = (p5, objectsFrom curID json, maps)
    ∧ (genResources file ratio curID tp version keep json).2 = maps
    ∧ genTree file fuel maps json (p5, objectsFrom curID json) = Ok g
    ∧ genAnimations file json (g_project g, g_id g) = (project', id')
    ∧ (p_images project' = p_images p1
       ∧ p_textures project' = p_textures p2
       ∧ p_materials project' = p_materials p3
       ∧ p_meshes project' = p_meshes p4
       ∧ p_skins project' = p_skins (g_project g)
       ∧ p_objects project' = p_objects (g_project g))
    ∧ (p_shaders project' = tp_shaders tp
       ∧ p_pipelines project' = tp_pipelines tp
       ∧ p_version project' = version
       ∧ p_files project' = [file]).
Proof.
  intros Hrun. unfold legacyGenerateProject in Hrun.
  destruct (legacyGenerateTree _ _ _ _ _ _ _ _) as [g|] eqn:Htree;
    simpl in Hrun; [|done].
  rewrite legacyGenerateTree_unfold in Htree.
  unfold genResources, objectsFrom, skinsFrom, meshesFrom, materialsFrom,
    texturesFrom in *.
  set (p0 := set_files _ (generateBaseProject tp version keep)) in *.
  destruct (genImages_spec file json p0 curID) as (p1 & E1 & F1 & _).
  rewrite E1 in *.
  destruct (genTextures_spec file json p1 (curID + count (images json)))
    as (p2 & E2 & F2 & _).
  rewrite E2 in *.
  destruct (genMaterials_spec file json p2
              (curID + count (images json)
               + distinctSources (default [] (textures json))))
    as (p3 & E3 & F3 & _).
  rewrite E3 in *.
  destruct (genMeshes_spec file ratio json p3
              (curID + count (images json)
               + distinctSources (default [] (textures json))
               + count (materials json)))
    as (p4 & E4 & F4 & _).
  rewrite E4 in *.
  destruct (genSkins_spec file json p4
              (curID + count (images json)
               + distinctSources (default [] (textures json))
               + count (materials json) + count (meshes json)))
    as (p5 & maps & E5 & F5 & _).
  rewrite E5 in *. simpl in Htree.
  destruct (genTree_inv file maps fuel json p5 _ g Htree)
    as (s1 & l & _ & _ & _ & _ & Hsame & _).
  destruct (genAnimations_spec file json (g_project g) (g_id g))
    as (project'' & Hanim & F7 & _).
  rewrite Hanim in Hrun. simplify_eq.
  unfold sameResources in Hsame.
  exists p1, p2, p3, p4, p5, maps, g.
  split_and!; try done.
  all: rewrite F7, Hsame, F5, F4, F3, F2; try done.
  all: rewrite F1; done.
Qed.

(** X3.  A run that returns hands the template's shaders and pipelines on
    as they are, records the version it was given, and lists the model file
    as the project's only file. *)
Theorem legacyGenerateProject_passes_on (file : string) (ratio : Qc)
    (fuel curID : nat) (tp : TemplateProject) (version : list nat)
    (keep : bool) (json : Gltf) (project' : Project) (id' : nat) :
  legacyGenerateProject file ratio fuel curID tp version keep json
  = Ok (project', id') →
  p_shaders project' = tp_shaders tp
  ∧ p_pipelines project' = tp_pipelines tp
  ∧ p_version project' = version
  ∧ p_files project' = [file].
Proof.
  intros Hrun.
  by destruct (legacyGenerateProject_phases _ _ _ _ _ _ _ _ _ _ Hrun)
    as (p1 & p2 & p3 & p4 & p5 & maps & g & _ & _ & _ & _ & _ & _ & _ & _
        & _ & ?).
Qed.

(** ** Template entries kept across a run *)

Lemma scanDefaults_keys (cat : option Entries) key obj :
  scanDefaults cat !! key = Some obj → key ∈ keysOf cat.
Proof.
  destruct cat as [entries|]; simpl; [|by rewrite lookup_empty].
  induction entries as [|[k o] entries IH] using rev_ind; simpl.
  { by rewrite lookup_empty. }
  rewrite foldl_app, fmap_app, elem_of_app. simpl.
  unfold maybeAddDefaultObj at 1.
  destruct (t_link o) as [l|]; [case_bool_decide|];
    [|intros; left; auto..].
  destruct (decide (key = k)) as [->|Hne].
  - intros _. right. by left.
  - rewrite lookup_insert_ne by done. intros; left; auto.
Qed.

Lemma added_kept {A} lo n (m : gmap string TemplateObj)
    (m' : gmap string (seeded A)) key obj :
  added isGen lo n (Kept <$> m) m' →
  (∀ k, lo ≤ k → key ≠ Js.toString k) →
  m !! key = Some obj → m' !! key = Some (Kept obj).
Proof.
  intros [_ Hold] Hkey Hobj. rewrite Hold, lookup_fmap, Hobj; [done|].
  intros k [? _]. by apply Hkey.
Qed.

(** X4.  Under [--keep-other-resources], with a template that has no
    [animations] and no [skins] category and whose keys are plain (the
    keys on which [Js.Number] is the [Number] of the code), and with the
    starting id that [main] computes from it, a run that returns still
    holds every builtin mesh, texture, image and material of the
    template under its key: no generated id takes the key of a kept
    entry. *)
Theorem kept_entries_survive (file : string) (ratio : Qc) (fuel : nat)
    (reserveIds : option nat) (template : TemplateJson)
    (version : list nat) (json : Gltf) (cur : nat) (project' : Project)
    (id' : nat) :
  tj_animations template = None → tj_skins template = None →
  Forall plainKey (templateKeys template) →
  curID reserveIds (Some template) = Js.Num cur →
  legacyGenerateProject file ratio fuel cur (parseTemplateProject template).1
    version true json = Ok (project', id') →
  ∀ key obj,
    (tp_images (parseTemplateProject template).1 !! key = Some obj →
     p_images project' !! key = Some (Kept obj))
    ∧ (tp_textures (parseTemplateProject template).1 !! key = Some obj →
       p_textures project' !! key = Some (Kept obj))
    ∧ (tp_materials (parseTemplateProject template).1 !! key = Some obj →
       p_materials project' !! key = Some (Kept obj))
    ∧ (tp_meshes (parseTemplateProject template).1 !! key = Some obj →
       p_meshes project' !! key = Some (Kept obj)).
Proof.
  intros Ha Hs _ Hcur Hrun key obj.
  destruct (parseTemplateProject_max_bound template Ha Hs)
    as (m & Hm & Hle & _).
  assert (m < cur) as Hlt.
  { unfold curID, templateMinID in Hcur. rewrite Hm in Hcur. simpl in Hcur.
    injection Hcur as <-. lia. }
  destruct (legacyGenerateProject_spec _ _ _ _ _ _ _ _ _ _ Hrun)
    as (l & _ & A1 & A2 & A3 & A4 & _).
  assert (∀ cat, keysOf cat ⊆ templateKeys template →
            scanDefaults cat !! key = Some obj →
            ∀ k, cur ≤ k → key ≠ Js.toString k) as Hfresh.
  { intros cat Hsub Hobj k Hk ->.
    apply scanDefaults_keys, Hsub in Hobj.
    specialize (Hle _ k Hobj (Number_toString k)). lia. }
  unfold meshesFrom, materialsFrom, texturesFrom in *.
  split_and!; intros Hobj.
  - eapply added_kept; [exact A1| |exact Hobj].
    apply (Hfresh (tj_images template)); [|done].
    unfold templateKeys. set_solver.
  - eapply added_kept; [exact A2| |exact Hobj].
    intros k Hk. apply (Hfresh (tj_textures template)); [|done|lia].
    unfold templateKeys. set_solver.
  - eapply added_kept; [exact A3| |exact Hobj].
    intros k Hk. apply (Hfresh (tj_materials template)); [|done|lia].
    unfold templateKeys. set_solver.
  - eapply added_kept; [exact A4| |exact Hobj].
    intros k Hk. apply (Hfresh (tj_meshes template)); [|done|lia].
    unfold templateKeys. set_solver.
Qed.

(** ** Default names *)

Lemma unnamedBefore_app names names' i :
  i ≤ length names →
  unnamedBefore (names ++ names') i = unnamedBefore names i.
Proof. intros Hi. unfold unnamedBefore. by rewrite take_app_le. Qed.

Lemma nameAt_app prefix names names' i :
  i < length names → nameAt prefix (names ++ names') i = nameAt prefix names i.
Proof.
  intros Hi. unfold nameAt.
  by rewrite lookup_app_l, unnamedBefore_app by lia.
Qed.

Lemma unnamedBefore_snoc names name :
  unnamedBefore (names ++ [name]) (S (length names))
  = unnamedBefore names (length names) + (if Js.falsy name then 1 else 0).
Proof.
  unfold unnamedBefore.
  rewrite (take_ge (names ++ [name])) by (rewrite length_app; simpl; lia).
  rewrite (take_ge names) by lia.
  rewrite filter_app, length_app, filter_cons, filter_nil.
  by destruct (Js.falsy name).
Qed.

Lemma defaultName_nameAt prefix names name :
  defaultName prefix name (unnamedBefore names (length names))
  = (nameAt prefix (names ++ [name]) (length names),
     unnamedBefore (names ++ [name]) (S (length names))).
Proof.
  rewrite unnamedBefore_snoc.
  unfold nameAt. rewrite lookup_app_r, Nat.sub_diag by lia. simpl.
  rewrite unnamedBefore_app by lia.
  unfold defaultName.
  destruct name as [nm|]; simpl.
  - case_bool_decide; simpl; f_equal; lia.
  - f_equal. lia.
Qed.

Section named_loop.
Context {X V : Type}.
Variables (nameOf : X → option string) (prefix : string) (mk : string → V).
Variables (get : Project → gmap string V).
Variables (set : (gmap string V → gmap string V) → Project → Project).
Variable body : Project * nat * nat → X → Project * nat * nat.
Hypothesis get_set : ∀ f p, get (set f p) = f (get p).
Hypothesis body_eq : ∀ project id num x,
  body (project, id, num) x
  = (set <[Js.toString id := mk (defaultName prefix (nameOf x) num).1]> project,
     S id, (defaultName prefix (nameOf x) num).2).

(** A loop that emits one entry per element under consecutive ids: the
    [i]-th element is found under [id + i], named by [nameAt]. *)
Lemma named_loop l project id :
  ∃ project',
    foldl body (project, id, 0) l
    = (project', id + length l, unnamedBefore (nameOf <$> l) (length l))
    ∧ ∀ i, i < length l →
        get project' !! Js.toString (id + i)
        = Some (mk (nameAt prefix (nameOf <$> l) i)).
Proof.
  induction l as [|x l IH] using rev_ind.
  { exists project. rewrite Nat.add_0_r. split; [done|]. simpl. lia. }
  destruct IH as (project' & Hloop & Hnames).
  rewrite foldl_app, Hloop. simpl. rewrite body_eq.
  rewrite fmap_app. simpl.
  pose proof (defaultName_nameAt prefix (nameOf <$> l) (nameOf x)) as Hd.
  rewrite length_fmap in Hd. rewrite Hd. simpl.
  rewrite length_app. simpl. rewrite Nat.add_1_r.
  eexists. split.
  { f_equal. f_equal. lia. }
  intros i Hi. rewrite get_set.
  destruct (decide (i = length l)) as [->|Hne].
  - by rewrite lookup_insert_eq.
  - rewrite lookup_insert_ne by (intros ?%(inj Js.toString); lia).
    rewrite nameAt_app by (rewrite length_fmap; lia).
    apply Hnames. lia.
Qed.
End named_loop.

Section names.
Variables (file : string) (ratio : Qc).

Lemma genImages_names json project id :
  ∃ project',
    genImages file json (project, id) = (project', id + count (images json))
    ∧ ∀ i, i < count (images json) →
        p_images project' !! Js.toString (id + i)
        = Some (Gen (mkLink (nameAt "image"
                               (nm_name <$> default [] (images json)) i)
                            file)).
Proof.
  unfold genImages, count. destruct (images json) as [l|]; simpl.
  - destruct (named_loop nm_name "image" (λ n, Gen (mkLink n file))
                p_images set_images (imagesBody file)) with (l := l)
        (project := project) (id := id) as (project' & -> & Hnames).
    + done.
    + intros p k num x. unfold imagesBody.
      by destruct (defaultName _ _ _).
    + by exists project'.
  - exists project. rewrite Nat.add_0_r. split; [done|]. intros i Hi. lia.
Qed.

Lemma genMaterials_names json project id :
  ∃ project',
    genMaterials file json (project, id)
    = (project', id + count (materials json))
    ∧ ∀ i, i < count (materials json) →
        p_materials project' !! Js.toString (id + i)
        = Some (Gen (mkLink (nameAt "material"
                               (nm_name <$> default [] (materials json)) i)
                            file)).
Proof.
  unfold genMaterials, count. destruct (materials json) as [l|]; simpl.
  - destruct (named_loop nm_name "material" (λ n, Gen (mkLink n file))
                p_materials set_materials (materialsBody file)) with (l := l)
        (project := project) (id := id) as (project' & -> & Hnames).
    + done.
    + intros p k num x. unfold materialsBody.
      by destruct (defaultName _ _ _).
    + by exists project'.
  - exists project. rewrite Nat.add_0_r. split; [done|]. intros i Hi. lia.
Qed.

Lemma genMeshes_names json project id :
  ∃ project',
    genMeshes file ratio json (project, id)
    = (project', id + count (meshes json))
    ∧ ∀ i, i < count (meshes json) →
        p_meshes project' !! Js.toString (id + i)
        = Some (Gen {| m_link :=
                         mkLink (nameAt "mesh"
                                   (nm_name <$> default [] (meshes json)) i)
                                file;
                       m_simplifyTarget :=
                         if decide (ratio = 1%Qc) then None else Some ratio |}).
Proof.
  unfold genMeshes, count. destruct (meshes json) as [l|]; simpl.
  - destruct (named_loop nm_name "mesh"
                (λ n, Gen {| m_link := mkLink n file;
                             m_simplifyTarget :=
                               if decide (ratio = 1%Qc) then None
                               else Some ratio |})
                p_meshes set_meshes (meshesBody file ratio)) with (l := l)
        (project := project) (id := id) as (project' & -> & Hnames).
    + done.
    + intros p k num x. unfold meshesBody.
      by destruct (defaultName _ _ _).
    + by exists project'.
  - exists project. rewrite Nat.add_0_r. split; [done|]. intros i Hi. lia.
Qed.

Lemma genAnimations_names json project id :
  ∃ project',
    genAnimations file json (project, id)
    = (project', id + count (animations json))
    ∧ ∀ i, i < count (animations json) →
        p_animations project' !! Js.toString (id + i)
        = Some (mkLink (nameAt "animation"
                          (nm_name <$> default [] (animations json)) i)
                       file).
Proof.
  unfold genAnimations, count. destruct (animations json) as [l|]; simpl.
  - destruct (named_loop nm_name "animation" (λ n, mkLink n file)
                p_animations set_animations (animationsBody file))
      with (l := l) (project := project) (id := id)
      as (project' & -> & Hnames).
    + done.
    + intros p k num x. unfold animationsBody.
      by destruct (defaultName _ _ _).
    + by exists project'.
  - exists project. rewrite Nat.add_0_r. split; [done|]. intros i Hi. lia.
Qed.
End names.

(** X5.  In a run that returns, the [i]-th image is found under the id
    [curID + i], the [i]-th material under [materialsFrom curID json + i]
    and the [i]-th animation under the id at which the traversal ended,
    plus [i].  Each entry links to the model file and carries the entry's
    own name, or [image_<k>], [material_<k>], [animation_<k>] when the
    name is missing or empty, where [k] counts the unnamed entries of that
    list before it. *)
Theorem names_and_ids (file : string) (ratio : Qc) (fuel curID : nat)
    (tp : TemplateProject) (version : list nat) (keep : bool) (json : Gltf)
    (project' : Project) (id' : nat) :
  legacyGenerateProject file ratio fuel curID tp version keep json
  = Ok (project', id') →
  (∀ i, i < count (images json) →
     p_images project' !! Js.toString (curID + i)
     = Some (Gen (mkLink (nameAt "image"
                            (nm_name <$> default [] (images json)) i) file)))
  ∧ (∀ i, i < count (materials json) →
       p_materials project' !! Js.toString (materialsFrom curID json + i)
       = Some (Gen (mkLink (nameAt "material"
                              (nm_name <$> default [] (materials json)) i)
                           file)))
  ∧ ∃ g,
      legacyGenerateTree file ratio fuel curID tp version keep json = Ok g
      ∧ id' = g_id g + count (animations json)
      ∧ ∀ i, i < count (animations json) →
          p_animations project' !! Js.toString (g_id g + i)
          = Some (mkLink (nameAt "animation"
                            (nm_name <$> default [] (animations json)) i)
                         file).
Proof.
  intros Hrun.
  destruct (legacyGenerateProject_phases _ _ _ _ _ _ _ _ _ _ Hrun)
    as (p1 & p2 & p3 & p4 & p5 & maps & g & E1 & E2 & E3 & E4 & E5 & Hmaps
        & Htree & E7 & (-> & _ & -> & _) & _).
  split_and!.
  - destruct (genImages_names file json
                (set_files (λ files, files ++ [file])
                   (generateBaseProject tp version keep)) curID)
      as (q & Hq & Hnames).
    rewrite E1 in Hq. by simplify_eq.
  - destruct (genMaterials_names file json p2 (materialsFrom curID json))
      as (q & Hq & Hnames).
    rewrite E3 in Hq. by simplify_eq.
  - exists g.
    destruct (genAnimations_names file json (g_project g) (g_id g))
      as (q & Hq & Hnames).
    rewrite E7 in Hq. simplify_eq. split_and!; [|done|done].
    rewrite legacyGenerateTree_unfold.
    unfold genResources. by rewrite E1, E2, E3, E4, E5.
Qed.

(** X6.  In a run that returns, the [i]-th mesh is found under the id
    [meshesFrom curID json + i], named by its own name or [mesh_<k>]; its
    entry asks for simplification, with the ratio as target, exactly when
    the ratio is not [1]. *)
Theorem meshes_names_and_simplification (file : string) (ratio : Qc)
    (fuel curID : nat) (tp : TemplateProject) (version : list nat)
    (keep : bool) (json : Gltf) (project' : Project) (id' : nat) :
  legacyGenerateProject file ratio fuel curID tp version keep json
  = Ok (project', id') →
  ∀ i, i < count (meshes json) →
    ∃ e,
      p_meshes project' !! Js.toString (meshesFrom curID json + i)
      = Some (Gen e)
      ∧ m_link e
        = mkLink (nameAt "mesh" (nm_name <$> default [] (meshes json)) i) file
      ∧ (ratio = 1%Qc → m_simplifyTarget e = None)
      ∧ (ratio ≠ 1%Qc → m_simplifyTarget e = Some ratio).
Proof.
  intros Hrun i Hi.
  destruct (legacyGenerateProject_phases _ _ _ _ _ _ _ _ _ _ Hrun)
    as (p1 & p2 & p3 & p4 & p5 & maps & g & E1 & E2 & E3 & E4 & E5 & Hmaps
        & Htree & E7 & (_ & _ & _ & -> & _) & _).
  destruct (genMeshes_names file ratio json p3 (meshesFrom curID json))
    as (q & Hq & Hnames).
  rewrite E4 in Hq. simplify_eq.
  eexists. split; [by apply Hnames|]. simpl.
  split_and!; [done|intros ->; by rewrite decide_True|].
  intros Hne. by rewrite decide_False.
Qed.

(** ** Skins *)

Lemma filter_ext_Forall {A} (P Q : A → Prop) `{!∀ x, Decision (P x)}
    `{!∀ x, Decision (Q x)} (l : list A) :
  Forall (λ x, P x ↔ Q x) l → filter P l = filter Q l.
Proof.
  induction 1 as [|x l HPQ _ IH]; [done|].
  rewrite !filter_cons, IH.
  destruct (decide (P x)), (decide (Q x)); naive_solver.
Qed.

Lemma listingSkins_snoc l sk j :
  listingSkins (l ++ [sk]) j
  = listingSkins l j ++ (if decide (j ∈ sk_joints sk) then [length l] else []).
Proof.
  unfold listingSkins. rewrite length_app. simpl.
  rewrite Nat.add_1_r, seq_S, filter_app. simpl. f_equal.
  - apply filter_ext_Forall, Forall_forall. intros k Hk%elem_of_seq.
    by rewrite lookup_app_l by lia.
  - rewrite filter_cons, filter_nil.
    rewrite lookup_app_r, Nat.sub_diag by lia. simpl.
    by destruct (decide (j ∈ sk_joints sk)).
Qed.

Lemma skinsBody_names file project id l :
  ∃ project' num' maps,
    foldl (skinsBody file) (project, id, 0, noSkinMaps, 0) l
    = (project', id + length l, num', maps, length l)
    ∧ num' = unnamedBefore (sk_name <$> l) (length l)
    ∧ (∀ i, i < length l →
         p_skins project' !! Js.toString (id + i)
         = Some {| s_link := mkLink (nameAt "skin" (sk_name <$> l) i) file;
                   s_joints := [] |})
    ∧ ∀ j, jointIdxs maps !! j
           = (λ k, id + k) <$> last (listingSkins l j).
Proof.
  induction l as [|x l IH] using rev_ind.
  - exists project, 0, noSkinMaps. cbn [foldl length]. rewrite Nat.add_0_r.
    split_and!; [done|done|intros i Hi; lia|].
    intros j. cbn. by rewrite lookup_empty.
  - destruct IH as (p1 & n1 & maps & Hfold & -> & Hnames & Hidx).
    rewrite foldl_app, Hfold, length_app. simpl.
    pose proof (defaultName_nameAt "skin" (sk_name <$> l) (sk_name x)) as Hd.
    rewrite length_fmap in Hd. rewrite Hd. rewrite fmap_app. simpl.
    eexists _, _, _. split_and!.
    + rewrite Nat.add_assoc, !Nat.add_1_r. reflexivity.
    + by rewrite Nat.add_1_r.
    + intros i Hi. simpl. destruct (decide (i = length l)) as [->|Hne].
      * by rewrite lookup_insert_eq.
      * rewrite lookup_insert_ne by (intros ?%(inj Js.toString); lia).
        rewrite nameAt_app by (rewrite length_fmap; lia).
        apply Hnames. lia.
    + intros j. simpl. rewrite jointIdxs_fold, listingSkins_snoc.
      case_decide.
      * by rewrite last_snoc.
      * by rewrite app_nil_r.
Qed.

Lemma genSkins_names file json project id :
  ∃ project' maps,
    genSkins file json (project, id)
    = (project', id + count (skins json), maps)
    ∧ (∀ i, i < count (skins json) →
         p_skins project' !! Js.toString (id + i)
         = Some {| s_link :=
                     mkLink (nameAt "skin"
                               (sk_name <$> default [] (skins json)) i) file;
                   s_joints := [] |})
    ∧ ∀ j, jointIdxs maps !! j
           = (λ k, id + k) <$> last (listingSkins (default [] (skins json)) j).
Proof.
  unfold genSkins, count. destruct (skins json) as [l|]; simpl.
  - destruct (skinsBody_names file project id l)
      as (project' & num' & maps & -> & _ & ? & ?).
    by exists project', maps.
  - exists project, noSkinMaps. rewrite Nat.add_0_r.
    split_and!; [done|intros i Hi; lia|].
    intros j. cbn. by rewrite lookup_empty.
Qed.

Lemma link_jointPush maps s1 pairs (skins : gmap string SkinEntry) key :
  s_link <$> foldl (jointPush maps s1) skins pairs !! key
  = s_link <$> skins !! key.
Proof.
  revert skins. induction pairs as [|e pairs IH]; intros skins; [done|].
  simpl. rewrite IH. unfold jointPush.
  destruct (nodeSkin s1 e.1 ≫= _) as [k|]; [|done].
  destruct (decide (k = key)) as [->|Hne].
  - rewrite lookup_alter_eq. by destruct (skins !! key).
  - by rewrite lookup_alter_ne.
Qed.

(** X7.  In a run that returns, the [k]-th skin is found under the id
    [skinsFrom curID json + k], linked to the model file under its own
    name or [skin_<n>].  The joint-index map sends a node to the id of the
    last skin that lists it as a joint, and has no entry for a node that no
    skin lists: of several skins that share a joint, only the last one
    records it. *)
Theorem skins_names_and_joint_owner (file : string) (ratio : Qc)
    (fuel curID : nat) (tp : TemplateProject) (version : list nat)
    (keep : bool) (json : Gltf) (project' : Project) (id' : nat) :
  legacyGenerateProject file ratio fuel curID tp version keep json
  = Ok (project', id') →
  (∀ k, k < count (skins json) →
     s_link <$> p_skins project' !! Js.toString (skinsFrom curID json + k)
     = Some (mkLink (nameAt "skin" (sk_name <$> default [] (skins json)) k)
                    file))
  ∧ ∀ j,
      jointIdxs (genResources file ratio curID tp version keep json).2 !! j
      = (λ k, skinsFrom curID json + k)
        <$> last (listingSkins (default [] (skins json)) j).
Proof.
  intros Hrun.
  destruct (legacyGenerateProject_phases _ _ _ _ _ _ _ _ _ _ Hrun)
    as (p1 & p2 & p3 & p4 & p5 & maps & g & E1 & E2 & E3 & E4 & E5 & Hmaps
        & Htree & E7 & (_ & _ & _ & _ & -> & _) & _).
  destruct (genSkins_names file json p4 (skinsFrom curID json))
    as (q & maps' & Hq & Hnames & Hidx).
  rewrite Hmaps. rewrite E5 in Hq. injection Hq as <- <-.
  split; [|done]. intros k Hk.
  destruct (genTree_inv file maps fuel json p5 _ g Htree)
    as (s1 & l & _ & _ & _ & _ & _ & _ & ->).
  by rewrite link_jointPush, (Hnames k Hk).
Qed.

(** ** Node lists that the tree block rejects or ignores *)

(** X8.  When some node lists a child index that is not an index of the
    node list, the run ends in a [TypeError], whatever the other lists
    hold. *)
Theorem child_index_out_of_range (file : string) (ratio : Qc)
    (fuel curID : nat) (tp : TemplateProject) (version : list nat)
    (keep : bool) (json : Gltf) (ns : list NodeIn) :
  nodes json = Some ns →
  ¬ Forall (λ c, c < length ns) (listed ns) →
  legacyGenerateProject file ratio fuel curID tp version keep json
  = Throw TypeError.
Proof.
  intros Hnodes Hrange. unfold legacyGenerateProject.
  rewrite legacyGenerateTree_unfold. unfold genTree. rewrite Hnodes.
  by rewrite (buildTree_throw _ ns Hrange).
Qed.

Lemma child_index_out_of_range_witness :
  legacyGenerateProject "m.glb" 1 1 29 noTemplate [] false
    (gltfNodes nodesDanglingChild) = Throw TypeError.
Proof.
  apply (child_index_out_of_range _ _ _ _ _ _ _ _ nodesDanglingChild).
  - reflexivity.
  - apply (bool_decide_unpack _). vm_compute. exact I.
Defined.

(** X9.  When every node of the list is listed as a child of some node
    (as the nodes of a cycle are) and the child indices are in range, the
    root receives no child: the run returns, emits no object and hands out
    no id for the nodes. *)
Theorem no_orphans_no_objects (file : string) (ratio : Qc)
    (fuel curID : nat) (tp : TemplateProject) (version : list nat)
    (keep : bool) (json : Gltf) (ns : list NodeIn) :
  nodes json = Some ns →
  Forall (λ c, c < length ns) (listed ns) →
  orphansOf ns = [] →
  ∃ project',
    legacyGenerateProject file ratio fuel curID tp version keep json
    = Ok (project', objectsFrom curID json + count (animations json))
    ∧ p_objects project' = ∅.
Proof.
  intros Hnodes Hrange Horphans.
  destruct (genResources_spec file ratio curID tp version keep json)
    as (project & maps & Hres & _ & _ & _ & _ & _ & Hobj & _).
  destruct (buildTree_spec maps ns Hrange) as (s0 & F & Hbuild & HF & _).
  assert (Node.children_of s0 Node.Root = []) as Hroot.
  { rewrite (describes_root _ _ _ _ HF), Horphans. reflexivity. }
  assert (genTree file fuel maps json (project, objectsFrom curID json)
          = Ok {| g_store := s0; g_project := project;
                  g_id := objectsFrom curID json |}) as Htree.
  { unfold genTree. rewrite Hnodes, Hbuild, bind_Ok. cbn zeta.
    unfold Node.reverse. rewrite Hroot. simpl.
    rewrite dfs_unfold. simpl. by rewrite Hroot. }
  unfold legacyGenerateProject.
  rewrite legacyGenerateTree_unfold, Hres. simpl. rewrite Htree. simpl.
  destruct (genAnimations_spec file json project (objectsFrom curID json))
    as (project' & -> & Hframe & _).
  exists project'. split; [done|]. by rewrite Hframe.
Qed.

Lemma no_orphans_no_objects_witness :
  ∃ project',
    legacyGenerateProject "m.glb" 1 0 29 noTemplate [] false
      (gltfNodes nodesCycle) = Ok (project', 29)
    ∧ p_objects project' = ∅.
Proof.
  destruct (no_orphans_no_objects "m.glb" 1 0 29 noTemplate [] false
              (gltfNodes nodesCycle) nodesCycle) as (project' & Hrun & Hobj).
  - reflexivity.
  - apply (bool_decide_unpack _). vm_compute. exact I.
  - vm_compute. reflexivity.
  - exists project'. split; [exact Hrun|exact Hobj].
Defined.

(** ** The order of [Array.prototype.sort] without a comparator *)

#[local] Instance sortCompare_trans : Transitive sortCompare.
Proof. intros a b c. unfold sortCompare. apply transitivity. Qed.

#[local] Instance sortCompare_total : Total sortCompare.
Proof. intros a b. unfold sortCompare. apply total, _. Qed.

#[local] Instance sortCompare_antisymm : AntiSymm (=) sortCompare.
Proof.
  intros a b Hab Hba. unfold sortCompare in *.
  apply (inj Js.toString). by apply (anti_symm String.le).
Qed.

Lemma sort_StronglySorted l : StronglySorted sortCompare (sort l).
Proof. unfold sort. apply (StronglySorted_merge_sort sortCompare). Qed.

Lemma sort_sorted_id l : StronglySorted sortCompare l → sort l = l.
Proof.
  intros Hl. apply (StronglySorted_unique sortCompare); [|done|].
  - apply sort_StronglySorted.
  - unfold sort. apply merge_sort_Permutation.
Qed.

Lemma sortCompare_digit a b : a ≤ b → b < 10 → sortCompare a b.
Proof.
  intros Hab Hb.
  assert (Forall (λ b, Forall (λ a, a ≤ b → sortCompare a b) (seq 0 10))
            (seq 0 10)) as Hall.
  { apply (bool_decide_unpack _). vm_compute. exact I. }
  rewrite Forall_forall in Hall.
  specialize (Hall b). rewrite Forall_forall in Hall.
  apply Hall; [apply elem_of_seq; lia|apply elem_of_seq; lia|done].
Qed.

Lemma filter_seq_StronglySorted (P : nat → Prop) `{!∀ x, Decision (P x)}
    lo n :
  lo + n ≤ 10 → StronglySorted sortCompare (filter P (seq lo n)).
Proof.
  revert lo. induction n as [|n IH]; intros lo Hn; simpl.
  { constructor. }
  rewrite filter_cons. case_decide.
  - constructor; [apply IH; lia|].
    apply Forall_forall. intros x [_ Hx%elem_of_seq]%list_elem_of_filter.
    apply sortCompare_digit; lia.
  - apply IH. lia.
Qed.

(** X10.  The root receives its children from [orphansOrdered.sort()]:
    they are the orphans, each once, in the order of the decimal strings
    of their indices.  For a list of at most ten nodes this is the
    ascending order of the indices. *)
Theorem root_children_sorted (maps : SkinMaps) (ns : list NodeIn)
    (s : Node.store) :
  buildTree maps ns = Ok s →
  Node.children_of s Node.Root ≡ₚ orphansOf ns
  ∧ StronglySorted sortCompare (Node.children_of s Node.Root)
  ∧ (length ns ≤ 10 → Node.children_of s Node.Root = orphansOf ns).
Proof.
  intros Hbuild. rewrite (buildTree_root_children maps ns s Hbuild).
  split_and!.
  - unfold sort. apply merge_sort_Permutation.
  - apply sort_StronglySorted.
  - intros Hlen. apply sort_sorted_id. unfold orphansOf.
    apply filter_seq_StronglySorted. lia.
Qed.

Lemma root_children_sorted_witness :
  ∃ s, buildTree noSkinMaps nodesABC = Ok s
       ∧ Node.children_of s Node.Root = [0; 2].
Proof.
  eexists. split; [vm_compute; reflexivity|].
  refine (proj2 (proj2 (root_children_sorted noSkinMaps nodesABC _ _)) _).
  - vm_compute. reflexivity.
  - simpl. lia.
Defined.

(** ** [reverse] twice *)

Lemma node_eq (a b : Node.t) :
  unlinked a = unlinked b → Node.children a = Node.children b →
  Node.parent a = Node.parent b → a = b.
Proof.
  destruct a, b. intros Hu Hc Hp. cbv in Hu. simpl in *.
  inversion Hu. by subst.
Qed.

Lemma describes_eq N F rk s s' :
  describes N F rk s → describes N F rk s' → s = s'.
Proof.
  intros (Ht & Hlen & HF) (Ht' & Hlen' & HF').
  destruct s as [t l], s' as [t' l']. simpl in *. f_equal; [congruence|].
  apply list_eq. intros i. destruct (decide (i < N)).
  - by rewrite HF, HF'.
  - by rewrite !lookup_ge_None_2 by lia.
Qed.

Lemma linked_parent_unique N F G rk x :
  linked N F rk → linked N G rk →
  (∀ y, y < N → Node.children (G y) = Node.children (F y)) →
  x < N → Node.parent (G x) = Node.parent (F x).
Proof.
  intros HF HG Hkids Hx.
  pose proof HF as (Hperm & HrootF & HchildF).
  pose proof HG as (_ & HrootG & HchildG).
  assert (x ∈ rk ++ (seq 0 N ≫= λ p, Node.children (F p))) as Hin.
  { rewrite Hperm. apply elem_of_seq. lia. }
  apply elem_of_app in Hin as [Hin|Hin].
  - by rewrite HrootF, HrootG.
  - apply list_elem_of_bind in Hin as (p & Hin & Hp%elem_of_seq).
    rewrite (HchildF p x), (HchildG p x); [done|lia| |lia|done].
    rewrite Hkids by lia. done.
Qed.

(** X11.  On the tree built from a node list in which no index is listed
    twice as a child, [reverse] applied twice gives the tree back: child
    arrays and parents are as before. *)
Theorem reverse_twice (maps : SkinMaps) (ns : list NodeIn) (s : Node.store) :
  buildTree maps ns = Ok s → NoDup (listed ns) →
  Node.reverse Node.Root (Node.reverse Node.Root s) = s.
Proof.
  intros Hbuild Hnd.
  set (N := length ns). set (rk := sort (orphansOf ns)).
  destruct (buildTree_linked ns (buildTree_in_range maps ns s Hbuild) Hnd maps)
    as (s0 & F & Hbuild' & HF & Hlinked & _).
  rewrite Hbuild in Hbuild'. simplify_eq.
  pose proof (orphans_lt ns) as Hlt. pose proof (orphans_NoDup ns) as Hrk.
  destruct (reverse_spec N F rk s0 HF Hrk Hlt)
    as (F1 & HF1 & Hu1 & Hmirror1 & Hother1 & Hlinked1 & _).
  destruct (reverse_spec N F1 rk _ HF1 Hrk Hlt)
    as (F2 & HF2 & Hu2 & Hmirror2 & Hother2 & Hlinked2 & _).
  specialize (Hlinked1 Hlinked). specialize (Hlinked2 Hlinked1).
  assert (∀ y, y < N → Node.children (F2 y) = Node.children (F y)) as Hkids.
  { intros y Hy. destruct (decide (y ∈ rk)) as [Hin|Hnot].
    - apply list_elem_of_lookup_1 in Hin as [p Hp].
      pose proof (lookup_lt_Some _ _ _ Hp) as Hplt.
      destruct (lookup_lt_is_Some_2 rk (length rk - 1 - p)) as [c' Hc'];
        [lia|].
      rewrite (Hmirror2 p y c' Hp Hc').
      apply (Hmirror1 (length rk - 1 - p) c' y Hc').
      by replace (length rk - 1 - (length rk - 1 - p)) with p by lia.
    - by rewrite Hother2, Hother1. }
  eapply describes_eq; [exact HF2|].
  destruct HF as (Ht & Hlen & HFi). split_and!; [done|done|].
  intros i Hi. rewrite (HFi i Hi). f_equal. symmetry. apply node_eq.
  - by rewrite Hu2, Hu1.
  - by apply Hkids.
  - by eapply linked_parent_unique.
Qed.

Lemma reverse_twice_witness :
  ∃ s, buildTree noSkinMaps nodesABCD = Ok s
       ∧ Node.reverse Node.Root (Node.reverse Node.Root s) = s.
Proof.
  eexists. split; [vm_compute; reflexivity|].
  apply (reverse_twice noSkinMaps nodesABCD).
  - vm_compute. reflexivity.
  - apply (bool_decide_unpack _). vm_compute. exact I.
Defined.

(** ** The memo of the getter [path] *)

Lemma path_result fuel r s p s' :
  Node.path fuel r s = Ok (p, s') →
  pathOf s' r = Some p
  ∧ ∀ r' q, pathOf s r' = Some q → pathOf s' r' = Some q.
Proof.
  revert r s p s'. induction fuel as [|fuel IH]; intros r s p s' H;
    pose proof (path_sameSkeleton _ _ _ _ _ H) as Hsame;
    rewrite path_unfold in H; unfold pathOf in *;
    destruct (Node.get s r) as [node|] eqn:Hget; try done;
    (destruct (Node._path node) as [memo|] eqn:Hmemo;
     [simplify_eq; by rewrite Hget|]);
    destruct (Node.parent node) as [par|]; try done;
    destruct (Node.get s par) as [parentNode|]; try done;
    destruct (Node.nameOf node parentNode r) as [nm|]; try done; simpl in H;
    destruct (Node.id parentNode); simpl in H.
  - done.
  - simplify_eq. rewrite get_upd, decide_True, Hget by done. simpl.
    split; [done|]. intros r' q. rewrite get_upd.
    case_decide as Hr; [|done]. subst r'. by rewrite Hget; simpl; rewrite Hmemo.
  - destruct (Node.path fuel par s) as [[pp s1]|] eqn:Hrec; simpl in H;
      [|done].
    simplify_eq.
    destruct (IH _ _ _ _ Hrec) as [_ Hkeep].
    destruct (sameSkeleton_get s s1 r node (path_sameSkeleton _ _ _ _ _ Hrec)
                Hget) as (node1 & Hget1 & _).
    rewrite get_upd, decide_True, Hget1 by done. simpl.
    split; [done|]. intros r' q Hq. rewrite get_upd.
    case_decide as Hr; [|by apply Hkeep]. subst r'.
    rewrite Hget in Hq. simpl in Hq. congruence.
  - simplify_eq. rewrite get_upd, decide_True, Hget by done. simpl.
    split; [done|]. intros r' q. rewrite get_upd.
    case_decide as Hr; [|done]. subst r'. by rewrite Hget; simpl; rewrite Hmemo.
Qed.

(** The getter leaves every field but [_path] as it is. *)
Lemma path_writes_memo_only fuel r s p s' :
  Node.path fuel r s = Ok (p, s') →
  ∀ r', Node.set_path None <$> Node.get s' r'
        = Node.set_path None <$> Node.get s r'.
Proof.
  assert (Hupd : ∀ (s0 : Node.store) r0 q r',
    Node.set_path None <$> Node.get (Node.upd r0 (Node.set_path q) s0) r'
    = Node.set_path None <$> Node.get s0 r').
  { intros s0 r0 q r'. rewrite get_upd. case_decide; [|done].
    by destruct (Node.get s0 r') as [[]|]. }
  revert r s p s'. induction fuel as [|fuel IH]; intros r s p s' H r';
    rewrite path_unfold in H;
    destruct (Node.get s r) as [node|]; try done;
    destruct (Node._path node); simplify_eq; try done;
    destruct (Node.parent node) as [par|]; try done;
    destruct (Node.get s par) as [parentNode|]; try done;
    destruct (Node.nameOf node parentNode r) as [nm|]; try done; simpl in H;
    destruct (Node.id parentNode); simpl in H; simplify_eq;
    try (by apply Hupd).
  destruct (Node.path fuel par s) as [[pp s1]|] eqn:Hrec; simpl in H; [|done].
  simplify_eq. rewrite Hupd. by eapply IH.
Qed.

(** X12.  When the getter [path] returns, the node holds the returned
    string as its memo, every memo that was set before is unchanged, every
    node is as before in all its fields but [_path] (no node appears or
    disappears, and [id], the tree links, the name and the skins are not
    written), and reading the path again returns the same string without
    writing anything, at any call depth. *)
Theorem path_memoized (fuel : nat) (r : Node.ref) (s s' : Node.store)
    (p : string) :
  Node.path fuel r s = Ok (p, s') →
  pathOf s' r = Some p
  ∧ (∀ r' q, pathOf s r' = Some q → pathOf s' r' = Some q)
  ∧ (∀ r', Node.set_path None <$> Node.get s' r'
           = Node.set_path None <$> Node.get s r')
  ∧ ∀ fuel', Node.path fuel' r s' = Ok (p, s').
Proof.
  intros H. destruct (path_result _ _ _ _ _ H) as [Hp Hkeep].
  split_and!; [done|done|by eapply path_writes_memo_only|].
  intros fuel'. rewrite path_unfold. unfold pathOf in Hp.
  destruct (Node.get s' r) as [node|]; [|done]. simpl in Hp.
  by rewrite Hp.
Qed.

(** ** The emitted objects *)

Section objects.
Variables (file : string) (ratio : Qc) (fuel curID : nat).
Variables (tp : TemplateProject) (version : list nat) (keep : bool).
Variables (json : Gltf) (ns : list NodeIn).
Hypothesis Hnodes : nodes json = Some ns.
Hypothesis Hwf : wellFormed ns.
Hypothesis Hskins : skinsInRange (count (skins json)) ns.
Hypothesis Hfuel : length ns ≤ fuel.

(** The traversal of a well-formed node list, with the fields that the
    loop over [json.nodes] has written on the nodes. *)
Lemma legacyGenerateTree_fields :
  ∃ maps s0 F l g G,
    (genResources file ratio curID tp version keep json).2 = maps
    ∧ buildTree maps ns = Ok s0
    ∧ describes (length ns) F (sort (orphansOf ns))
        (Node.reverse Node.Root s0)
    ∧ (∀ k, skinsMap maps !! k
            = if decide (k < count (skins json))
              then Some (skinsFrom curID json + k) else None)
    ∧ linked (length ns) F (sort (orphansOf ns))
    ∧ (∀ i n, ns !! i = Some n →
         unlinked (F i) = unlinked (decorate maps i n (Node.new false)))
    ∧ traversalOrder fuel maps json = Some l
    ∧ l ≡ₚ seq 0 (length ns)
    ∧ legacyGenerateTree file ratio fuel curID tp version keep json = Ok g
    ∧ describes (length ns) G (sort (orphansOf ns)) (g_store g)
    ∧ (∀ y, skeleton (G y) = skeleton (F y))
    ∧ (∀ i x, l !! i = Some x →
         visitedAt file F G (sort (orphansOf ns)) (objectsFrom curID json)
           (p_objects (g_project g)) i x).
Proof.
  destruct (genResources_spec file ratio curID tp version keep json)
    as (project & maps & Hres & _ & _ & _ & _ & _ & Hobj & _ & _
        & M1 & M2 & M3).
  assert (∀ i n, ns !! i = Some n → meshSkinOf maps n ≠ Node.MsUndefined)
    as Hmesh.
  { intros i n Hn. unfold meshSkinOf.
    unfold skinsInRange in Hskins. rewrite Forall_forall in Hskins.
    specialize (Hskins n (list_elem_of_lookup_2 _ _ _ Hn)).
    destruct (nd_skin n) as [k|]; simpl in *; [|done].
    by rewrite M1, decide_True. }
  assert (∀ j sk, jointIdxs maps !! j = Some sk →
                  is_Some (skinsJoints maps !! sk)) as Hjoints.
  { intros j sk Hj. rewrite M2, decide_True by by eapply M3. by eexists. }
  destruct (genTree_wf file maps fuel ns json project
              (objectsFrom curID json) Hnodes Hwf Hfuel Hmesh Hjoints)
    as (s0 & F & l & g & G & Hbuild & HF & Hinv & Hfields & Horder & Hperm
        & Hgen & HG & Hid & Hskel & Hvis).
  exists maps, s0, F, l, g, G. split_and!; try done.
  - by rewrite Hres.
  - apply Hinv.
  - unfold traversalOrder, treeStore. by rewrite Hnodes, Hbuild.
  - by rewrite legacyGenerateTree_unfold, Hres.
Qed.
End objects.

(** X13.  After a run on a well-formed node list, the object of the
    [i]-th node visited links to the model file; its [skin] is the id that
    the joint-index map has for the node; it has one mesh component,
    naming the id of the [k]-th skin, exactly when the node has the
    property [skin: k]; and its [parent] is absent when the node is a
    child of the root and otherwise the id of the object of the node's
    parent, which was visited earlier and so has a smaller id. *)
Theorem object_entries (file : string) (ratio : Qc) (fuel curID : nat)
    (tp : TemplateProject) (version : list nat) (keep : bool) (json : Gltf)
    (ns : list NodeIn) :
  nodes json = Some ns →
  wellFormed ns →
  skinsInRange (count (skins json)) ns →
  length ns ≤ fuel →
  ∃ project' id' g l,
    legacyGenerateProject file ratio fuel curID tp version keep json
    = Ok (project', id')
    ∧ legacyGenerateTree file ratio fuel curID tp version keep json = Ok g
    ∧ traversalOrder fuel
        (genResources file ratio curID tp version keep json).2 json = Some l
    ∧ ∀ i x n, l !! i = Some x → ns !! x = Some n →
        ∃ e node,
          p_objects project' !! Js.toString (objectsFrom curID json + i)
          = Some e
          ∧ Node.get (g_store g) (Node.Idx x) = Some node
          ∧ link_file (o_link e) = file
          ∧ o_skin e
            = Js.toString
              <$> jointIdxs
                    (genResources file ratio curID tp version keep json).2
                  !! x
          ∧ o_components e
            = (λ k, [Js.toString (skinsFrom curID json + k)]) <$> nd_skin n
          ∧ match Node.parent node with
            | Some (Node.Idx p) =>
              ∃ j, j < i ∧ l !! j = Some p
                   ∧ o_parent e = Some (Js.toString (objectsFrom curID json + j))
            | _ => o_parent e = None
            end.
Proof.
  intros Hnodes Hwf Hskins Hfuel.
  destruct (legacyGenerateTree_fields file ratio fuel curID tp version keep
              json ns Hnodes Hwf Hskins Hfuel)
    as (maps & s0 & F & l & g & G & Hmaps & Hbuild & HF & M1 & Hlinked
        & Hfields & Hl & Hperm & Htree & HG & Hskel & Hvis).
  destruct (genAnimations_spec file json (g_project g) (g_id g))
    as (project' & Hanim & Hframe & _).
  exists project', (g_id g + count (animations json)), g, l.
  rewrite Hmaps. split_and!; [|done|done|].
  { unfold legacyGenerateProject. rewrite Htree. simpl. by rewrite Hanim. }
  intros i x n Hi Hn.
  assert (p_objects project' = p_objects (g_project g)) as ->
    by by rewrite Hframe.
  pose proof (lookup_lt_Some _ _ _ Hn) as Hx.
  destruct (Hvis i x Hi)
    as (Hid & r & lname & suffix & Hpar & _ & _ & _ & Hentry).
  destruct (unlinked_fields _ _ (Hfields x n Hn)) as (_ & _ & _ & Hms & Hsk).
  destruct (skeleton_fields _ _ (Hskel x)) as (_ & HparG & _).
  eexists _, (G x). split_and!; [exact Hentry| |done|..].
  - by rewrite (describes_get _ _ _ _ _ HG), decide_True.
  - simpl. rewrite Hsk. unfold decorate. simpl.
    by destruct (jointIdxs maps !! x).
  - simpl. rewrite Hms. unfold decorate, meshSkinOf. simpl.
    unfold skinsInRange in Hskins. rewrite Forall_forall in Hskins.
    specialize (Hskins n (list_elem_of_lookup_2 _ _ _ Hn)).
    destruct (nd_skin n) as [k|]; simpl in *; [|done].
    by rewrite M1, decide_True.
  - rewrite HparG, Hpar. destruct r as [|p]; [done|].
    destruct (linked_parent_lt _ F _ x p Hlinked Hx Hpar) as [Hp Hin].
    unfold traversalOrder, treeStore in Hl.
    rewrite Hnodes, Hbuild in Hl. simpl in Hl.
    assert (p ∈ l) as [j Hj]%list_elem_of_lookup_1.
    { rewrite Hperm. apply elem_of_seq. lia. }
    destruct (Hvis j p Hj) as (Hidp & _).
    exists j. simpl. rewrite Hidp. split_and!; [|done|done].
    destruct (order_parent_first _ _ _ _ Hl i x Hi) as (r' & Hxr & Hr').
    assert (NoDup l) as Hndl by (rewrite Hperm; apply NoDup_seq).
    pose proof Hlinked as (_ & Hroot & Hchild).
    destruct Hr' as [->|(j' & p' & Hj' & Hp' & ->)].
    + rewrite (describes_root _ _ _ _ HF) in Hxr.
      rewrite (Hroot x Hxr) in Hpar. discriminate Hpar.
    + rewrite (describes_kids _ _ _ _ p' HF) in Hxr.
      case_decide as Hp'lt; [|by apply elem_of_nil in Hxr].
      rewrite (Hchild p' x Hp'lt Hxr) in Hpar. simplify_eq.
      by rewrite (NoDup_lookup l j j' p Hndl Hj Hp').
Qed.

(** ** Examples of the properties above *)

Lemma legacyGenerateProject_passes_on_witness :
  ∃ project',
    legacyGenerateProject "m.glb" 1 1 29
      (parseTemplateProject templateShader28).1 [1; 2; 3] false gltfOneOfEach
    = Ok (project', 36)
    ∧ p_shaders project' !! "28" = Some (tobj "Sky.frag" "default")
    ∧ p_version project' = [1; 2; 3]
    ∧ p_files project' = ["m.glb"].
Proof.
  assert (∃ project',
            legacyGenerateProject "m.glb" 1 1 29
              (parseTemplateProject templateShader28).1 [1; 2; 3] false
              gltfOneOfEach = Ok (project', 36)) as [project' Hrun].
  { eexists. vm_compute. reflexivity. }
  exists project'. split; [exact Hrun|].
  destruct (legacyGenerateProject_passes_on _ _ _ _ _ _ _ _ _ _ Hrun)
    as (-> & _ & -> & ->).
  split_and!; [vm_compute; reflexivity|done|done].
Defined.

Lemma kept_entries_survive_witness :
  ∃ project',
    legacyGenerateProject "m.glb" 1 1 8 (parseTemplateProject templateMesh7).1
      [] true gltfOneOfEach = Ok (project', 15)
    ∧ p_meshes project' !! "7" = Some (Kept (tobj "PrimitiveCube" "default")).
Proof.
  assert (∃ project',
            legacyGenerateProject "m.glb" 1 1 8
              (parseTemplateProject templateMesh7).1 [] true gltfOneOfEach
            = Ok (project', 15)) as [project' Hrun].
  { eexists. vm_compute. reflexivity. }
  exists project'. split; [exact Hrun|].
  refine (proj2 (proj2 (proj2
            (kept_entries_survive "m.glb" 1 1 None templateMesh7 []
               gltfOneOfEach 8 project' 15 _ _ _ _ Hrun "7" _))) _);
    [reflexivity|reflexivity|apply (bool_decide_unpack _); vm_compute; exact I
    |vm_compute; reflexivity|vm_compute; reflexivity].
Defined.

Lemma names_and_ids_witness :
  ∃ project',
    legacyGenerateProject "m.glb" 1 0 29 noTemplate [] false gltfNames
    = Ok (project', 36)
    ∧ p_images project' !! "29" = Some (Gen (mkLink "image_0" "m.glb"))
    ∧ p_images project' !! "30" = Some (Gen (mkLink "wood" "m.glb"))
    ∧ p_images project' !! "31" = Some (Gen (mkLink "image_1" "m.glb")).
Proof.
  assert (∃ project',
            legacyGenerateProject "m.glb" 1 0 29 noTemplate [] false gltfNames
            = Ok (project', 36)) as [project' Hrun].
  { eexists. vm_compute. reflexivity. }
  exists project'. split; [exact Hrun|].
  destruct (names_and_ids _ _ _ _ _ _ _ _ _ _ Hrun) as (Himg & _).
  assert (∀ i, i < 3 → i < count (images gltfNames)) as Hlt
    by (intros i Hi; exact Hi).
  split_and!.
  - etrans; [exact (Himg 0 (Hlt 0 ltac:(lia)))|]. vm_compute. reflexivity.
  - etrans; [exact (Himg 1 (Hlt 1 ltac:(lia)))|]. vm_compute. reflexivity.
  - etrans; [exact (Himg 2 (Hlt 2 ltac:(lia)))|]. vm_compute. reflexivity.
Defined.

Lemma meshes_names_and_simplification_witness :
  ∃ project' e,
    legacyGenerateProject "m.glb" (1 / 2) 0 29 noTemplate [] false gltfNames
    = Ok (project', 36)
    ∧ p_meshes project' !! "33" = Some (Gen e)
    ∧ m_link e = mkLink "mesh_0" "m.glb"
    ∧ m_simplifyTarget e = Some (1 / 2)%Qc.
Proof.
  assert (∃ project',
            legacyGenerateProject "m.glb" (1 / 2) 0 29 noTemplate [] false
              gltfNames = Ok (project', 36)) as [project' Hrun].
  { eexists. vm_compute. reflexivity. }
  destruct (meshes_names_and_simplification _ _ _ _ _ _ _ _ _ _ Hrun 0)
    as (e & He & Hlink & _ & Htarget).
  { unfold count. simpl. lia. }
  exists project', e. split_and!; [exact Hrun|exact He| |].
  - rewrite Hlink. vm_compute. reflexivity.
  - apply Htarget. intros H. apply (f_equal Qcanon.this) in H.
    vm_compute in H. discriminate H.
Defined.

Lemma skins_names_and_joint_owner_witness :
  ∃ project',
    legacyGenerateProject "m.glb" 1 1 29 noTemplate [] false gltfSharedJoint
    = Ok (project', 33)
    ∧ jointIdxs
        (genResources "m.glb" 1 29 noTemplate [] false gltfSharedJoint).2 !! 0
      = Some 30
    ∧ s_link <$> p_skins project' !! "30" = Some (mkLink "skin_0" "m.glb").
Proof.
  assert (∃ project',
            legacyGenerateProject "m.glb" 1 1 29 noTemplate [] false
              gltfSharedJoint = Ok (project', 33)) as [project' Hrun].
  { eexists. vm_compute. reflexivity. }
  exists project'. split; [exact Hrun|].
  destruct (skins_names_and_joint_owner _ _ _ _ _ _ _ _ _ _ Hrun)
    as (Hnames & Hidx).
  split.
  - rewrite Hidx. vm_compute. reflexivity.
  - etrans; [apply (Hnames 1); unfold count; simpl; lia|].
    vm_compute. reflexivity.
Defined.

Lemma path_memoized_witness :
  ∃ s s',
    buildTree noSkinMaps nodesABC = Ok s
    ∧ Node.path 1 (Node.Idx 1) s = Ok ("B", s')
    ∧ Node.path 0 (Node.Idx 1) s' = Ok ("B", s').
Proof.
  assert (∃ s, buildTree noSkinMaps nodesABC = Ok s) as [s Hs].
  { eexists. vm_compute. reflexivity. }
  assert (∃ s', Node.path 1 (Node.Idx 1) s = Ok ("B", s')) as [s' Hs'].
  { vm_compute in Hs. injection Hs as <-. eexists. vm_compute. reflexivity. }
  exists s, s'. split_and!; [exact Hs|exact Hs'|].
  exact (proj2 (proj2 (proj2 (path_memoized 1 (Node.Idx 1) s s' "B" Hs'))) 0).
Defined.

Lemma object_entries_witness :
  ∃ project' id',
    legacyGenerateProject "m.glb" 1 3 29 noTemplate [] false
      (gltfNodes nodesABC) = Ok (project', id')
    ∧ is_Some (p_objects project' !! "30").
Proof.
  destruct (object_entries "m.glb" 1 3 29 noTemplate [] false
              (gltfNodes nodesABC) nodesABC)
    as (project' & id' & g & l & Hrun & _ & Hl & Hobjs).
  - reflexivity.
  - apply (bool_decide_unpack _). vm_compute. exact I.
  - apply (bool_decide_unpack _). vm_compute. exact I.
  - simpl. lia.
  - exists project', id'. split; [exact Hrun|].
    vm_compute in Hl. injection Hl as <-.
    destruct (Hobjs 1 2 {| nd_name := Some "C"; nd_children := None;
                           nd_skin := None |})
      as (e & node & He & _); [reflexivity|reflexivity|].
    exists e. exact He.
Defined.

(** ** [Node.dfs] *)

(** X14.  When the callback leaves the child arrays alone, [dfs] is the
    loop of the callback over the pre-order sequence of the nodes below
    the receiver: every node comes after the node that holds it, and the
    sequence consists of the receiver's children and the children of its
    own elements. *)
Theorem dfs_preorder {St : Type} (kids : St → Node.ref → list nat)
    (callback : nat → St → result St) (K : Node.ref → list nat)
    (fuel : nat) (this : Node.ref) (l : list nat) (s : St) :
  (∀ c s s', callback c s = Ok s' → ∀ r, kids s' r = kids s r) →
  (∀ r, kids s r = K r) →
  order K fuel this = Some l →
  Node.dfs kids callback fuel this s = forEach callback l s
  ∧ l ≡ₚ K this ++ (l ≫= λ x, K (Node.Idx x))
  ∧ ∀ i x, l !! i = Some x →
      ∃ r', x ∈ K r'
            ∧ (r' = this ∨ ∃ j p, j < i ∧ l !! j = Some p ∧ r' = Node.Idx p).
Proof.
  intros Hcb Hk Hl. split_and!.
  - by apply (dfs_forEach kids callback Hcb K).
  - by eapply order_Permutation.
  - by eapply order_parent_first.
Qed.

Lemma dfs_preorder_witness :
  Node.dfs (λ (_ : list nat) r,
              match r with
              | Node.Root => [0; 1]
              | Node.Idx 0 => [2]
              | _ => []
              end)
           (λ c visited, Ok (visited ++ [c])) 2 Node.Root []
  = Ok [0; 2; 1].
Proof.
  refine (eq_trans
            (proj1 (dfs_preorder _ _
                      (λ r, match r with
                            | Node.Root => [0; 1]
                            | Node.Idx 0 => [2]
                            | _ => []
                            end) 2 Node.Root [0; 2; 1] [] _ _ _)) _);
    [done|done|reflexivity|reflexivity].
Defined.

(** ** Input models *)

Lemma length_append (a b : string) :
  String.length (a +:+ b) = String.length a + String.length b.
Proof. induction a as [|c a IH]; simpl; [done|by rewrite IH]. Qed.

Lemma substring_prefix (a b : string) :
  String.substring 0 (String.length a) (a +:+ b) = a.
Proof.
  induction a as [|c a IH]; simpl; [by destruct b|by rewrite IH].
Qed.

Lemma substring_suffix (a b : string) :
  String.substring (String.length a) (String.length b) (a +:+ b) = b.
Proof.
  induction a as [|c a IH]; simpl; [|done].
  induction b as [|c b IH]; simpl; [done|]. f_equal. exact IH.
Qed.

Lemma endsWith_append (a b : string) : endsWith (a +:+ b) b = true.
Proof.
  unfold endsWith. apply bool_decide_eq_true. rewrite length_append.
  split; [lia|].
  replace (String.length a + String.length b - String.length b)
    with (String.length a) by lia.
  apply substring_suffix.
Qed.

Lemma substring_strip (a b : string) :
  String.substring 0 (String.length (a +:+ b) - String.length b) (a +:+ b) = a.
Proof.
  rewrite length_append.
  replace (String.length a + String.length b - String.length b)
    with (String.length a) by lia.
  apply substring_prefix.
Qed.

Lemma append_assoc (a b c : string) : a +:+ b +:+ c = (a +:+ b) +:+ c.
Proof.
  induction a as [|x a IH]; [done|].
  change (String x (a +:+ b +:+ c) = String x ((a +:+ b) +:+ c)).
  by rewrite IH.
Qed.

(** A file name that carries the [.legacy] mark before its extension
    loses both. *)
Lemma legacyStem_legacy (stem ext : string) :
  legacyStem (stem +:+ ".legacy" +:+ ext) ext = (true, stem).
Proof.
  unfold legacyStem. rewrite append_assoc, substring_strip.
  rewrite endsWith_append. f_equal.
  change 7 with (String.length ".legacy"). apply substring_strip.
Qed.

Lemma legacyStem_plain (stem ext : string) :
  endsWith stem ".legacy" = false → legacyStem (stem +:+ ext) ext = (false, stem).
Proof.
  intros Hplain. unfold legacyStem. by rewrite substring_strip, Hplain.
Qed.

Section addInputModel.
Variables basename extname : string → string.

(** X15.  A call of [addInputModel] that returns has appended one model
    to the list and left the earlier ones as they were; the model's file
    has the extension [.gltf] or [.glb], and its output name ends in
    [.bin] and differs from the output names already in the list, so
    output names that are pairwise distinct stay so. *)
Theorem addInputModel_appends (models models' : list Model) (path : string)
    (ratio : option Qc) :
  addInputModel basename extname models path ratio = inr models' →
  ∃ m,
    models' = models ++ [m]
    ∧ modelPath m = path
    ∧ modelFileName m = basename path
    ∧ mo_ratio m = ratio
    ∧ (extname (basename path) = ".gltf" ∨ extname (basename path) = ".glb")
    ∧ (legacyImport m, outputName m)
      = ((legacyStem (basename path) (extname (basename path))).1,
         (legacyStem (basename path) (extname (basename path))).2 +:+ ".bin")
    ∧ (outputName m ∉ outputName <$> models)
    ∧ (NoDup (outputName <$> models) → NoDup (outputName <$> models')).
Proof.
  unfold addInputModel.
  destruct (bool_decide (String.length _ = 0) || _) eqn:Hext; [done|].
  apply orb_false_iff in Hext as [_ Hext].
  apply andb_false_iff in Hext.
  destruct (legacyStem _ _) as [legacy baseFileName].
  destruct (bool_decide (_ ∈ _)) eqn:Hname; [done|].
  apply bool_decide_eq_false in Hname. intros [= <-].
  eexists. split_and!; try done.
  - destruct Hext as [Hext|Hext]; apply bool_decide_eq_false in Hext.
    + left. by destruct (decide (extname (basename path) = ".gltf")).
    + right. by destruct (decide (extname (basename path) = ".glb")).
  - intros Hnd. rewrite fmap_app. simpl.
    apply NoDup_app. split_and!; [done| |apply NoDup_singleton].
    intros x Hx ->%list_elem_of_singleton. done.
Qed.

(** X16.  [addInputModel] throws a [UserError] when the extension of the
    file name is neither [.gltf] nor [.glb], and a [UsageError] when the
    extension is one of the two and a model of the list already has the
    output name; it changes nothing then.  So, after a file
    [<stem>.legacy<ext>] has been added, a file [<stem><ext'>] whose
    [<stem>] does not itself end in [.legacy] is refused: the [.legacy]
    mark does not keep the two apart. *)
Theorem addInputModel_throws (models : list Model) (path : string)
    (ratio : option Qc) :
  (extname (basename path) ≠ ".gltf" → extname (basename path) ≠ ".glb" →
   addInputModel basename extname models path ratio = inl UserError)
  ∧ ((extname (basename path) = ".gltf" ∨ extname (basename path) = ".glb") →
     (legacyStem (basename path) (extname (basename path))).2 +:+ ".bin"
     ∈ outputName <$> models →
     addInputModel basename extname models path ratio = inl UsageError)
  ∧ ∀ stem path' ratio' models',
      (extname (basename path) = ".gltf" ∨ extname (basename path) = ".glb") →
      basename path = stem +:+ ".legacy" +:+ extname (basename path) →
      addInputModel basename extname models path ratio = inr models' →
      (extname (basename path') = ".gltf"
       ∨ extname (basename path') = ".glb") →
      basename path' = stem +:+ extname (basename path') →
      endsWith stem ".legacy" = false →
      addInputModel basename extname models' path' ratio' = inl UsageError.
Proof.
  assert (∀ models path ratio,
            (extname (basename path) = ".gltf"
             ∨ extname (basename path) = ".glb") →
            (legacyStem (basename path) (extname (basename path))).2
              +:+ ".bin" ∈ outputName <$> models →
            addInputModel basename extname models path ratio = inl UsageError)
    as Hdup.
  { clear. intros models path ratio Hext Hin. unfold addInputModel.
    assert (bool_decide (String.length (extname (basename path)) = 0)
            || bool_decide (extname (basename path) ≠ ".gltf")
               && bool_decide (extname (basename path) ≠ ".glb") = false)
      as ->.
    { destruct Hext as [-> | ->]; reflexivity. }
    destruct (legacyStem _ _) as [legacy baseFileName]. simpl in Hin.
    by rewrite bool_decide_eq_true_2. }
  split_and!.
  - intros H1 H2. unfold addInputModel.
    rewrite (bool_decide_eq_true_2 (extname (basename path) ≠ ".gltf")),
      (bool_decide_eq_true_2 (extname (basename path) ≠ ".glb")) by done.
    by rewrite orb_true_r.
  - apply Hdup.
  - intros stem path' ratio' models' Hext Hname Hadd Hext' Hname' Hplain.
    apply Hdup; [done|].
    rewrite Hname' at 1. rewrite legacyStem_plain by done. simpl.
    unfold addInputModel in Hadd.
    destruct (bool_decide _ || _); [done|].
    rewrite Hname in Hadd at 1. rewrite legacyStem_legacy in Hadd.
    case_bool_decide; [done|]. injection Hadd as <-.
    rewrite fmap_app. apply elem_of_app. right. simpl. by left.
Qed.
End addInputModel.

Lemma addInputModel_appends_witness :
  addInputModel id extnameOf [] "ship.legacy.gltf" None
  = inr [ {| modelPath := "ship.legacy.gltf";
             modelFileName := "ship.legacy.gltf"; mo_ratio := None;
             outputName := "ship.bin"; legacyImport := true |} ].
Proof.
  destruct (addInputModel_appends id extnameOf [] _ "ship.legacy.gltf" None
              eq_refl) as (m & -> & _).
  reflexivity.
Defined.

Lemma addInputModel_throws_witness :
  ∃ models',
    addInputModel id extnameOf [] "ship.legacy.gltf" None = inr models'
    ∧ addInputModel id extnameOf models' "ship.glb" None = inl UsageError.
Proof.
  eexists. split; [reflexivity|].
  refine (proj2 (proj2 (addInputModel_throws id extnameOf []
                          "ship.legacy.gltf" None))
            "ship" "ship.glb" None _ _ _ _ _ _ _);
    first [reflexivity | by left | by right].
Defined.

(** ** The import mode *)

Lemma olderThan094_versionLt (v : nat * nat * nat) :
  olderThan094 v = true ↔ versionLt v (0, 9, 4).
Proof.
  destruct v as [[major minor] patch]. unfold olderThan094, versionLt. simpl.
  rewrite andb_true_iff, orb_true_iff, andb_true_iff, !bool_decide_eq_true.
  lia.
Qed.

(** X17.  A model is imported the legacy way exactly when its file name
    carries the [.legacy] mark, or [--legacy-import] is passed, or no
    [--version] is passed and the detected version precedes 0.9.4, or ids
    are reserved, or its simplification ratio (its own, else the default
    one) is not [1].  A version passed by [--version] plays no part,
    however old it is. *)
Theorem usesLegacyImport_iff (cliLegacy : bool)
    (cliVersion : option (nat * nat * nat)) (detected : nat * nat * nat)
    (reservedIDs : nat) (defaultRatio : Qc) (model : Model) :
  usesLegacyImport
    (wantLegacyImport cliLegacy cliVersion detected reservedIDs)
    defaultRatio model = true
  ↔ legacyImport model = true
    ∨ cliLegacy = true
    ∨ (cliVersion = None ∧ versionLt detected (0, 9, 4))
    ∨ reservedIDs ≠ 0
    ∨ default defaultRatio (mo_ratio model) ≠ 1%Qc.
Proof.
  rewrite <- olderThan094_versionLt.
  unfold usesLegacyImport, wantLegacyImport.
  destruct (olderThan094 detected), (legacyImport model), cliLegacy,
    cliVersion as [v|];
    repeat case_bool_decide; simpl; naive_solver.
Qed.

(** ** The first version of the generator *)

Section entriesAt.
Context {V : Type}.
Implicit Types (vs : list V) (m : gmap string V).

Lemma entriesAt_nil lo : entriesAt lo (@nil V) = ∅.
Proof. done. Qed.

Lemma entriesAt_cons lo v vs :
  entriesAt lo (v :: vs) = <[Js.toString lo := v]> (entriesAt (S lo) vs).
Proof. done. Qed.

Lemma lookup_entriesAt_None lo vs key :
  (∀ i, i < length vs → key ≠ Js.toString (lo + i)) →
  entriesAt lo vs !! key = None.
Proof.
  revert lo. induction vs as [|v vs IH]; intros lo H; [done|].
  rewrite entriesAt_cons, lookup_insert_ne.
  - apply IH. intros i Hi. replace (S lo + i) with (lo + S i) by lia.
    apply H. simpl. lia.
  - intros <-. apply (H 0); [simpl; lia|]. by rewrite Nat.add_0_r.
Qed.

Lemma lookup_entriesAt lo vs i :
  entriesAt lo vs !! Js.toString (lo + i) = vs !! i.
Proof.
  revert lo i. induction vs as [|v vs IH]; intros lo i; [done|].
  rewrite entriesAt_cons. destruct i as [|i].
  - by rewrite Nat.add_0_r, lookup_insert_eq.
  - rewrite lookup_insert_ne by (intros ?%(inj Js.toString); lia).
    replace (lo + S i) with (S lo + i) by lia. apply IH.
Qed.

Lemma lookup_entriesAt_Some lo vs key v :
  entriesAt lo vs !! key = Some v →
  ∃ i, key = Js.toString (lo + i) ∧ vs !! i = Some v.
Proof.
  revert lo. induction vs as [|v' vs IH]; intros lo; [done|].
  rewrite entriesAt_cons. destruct (decide (key = Js.toString lo)) as [->|Hne].
  - rewrite lookup_insert_eq. intros [= ->]. exists 0.
    by rewrite Nat.add_0_r.
  - rewrite lookup_insert_ne by done. intros (i & -> & Hi)%IH.
    exists (S i). split; [f_equal; lia|done].
Qed.

Lemma entriesAt_snoc lo vs v m :
  entriesAt (S lo) vs ∪ <[Js.toString lo := v]> m
  = entriesAt lo (v :: vs) ∪ m.
Proof.
  rewrite entriesAt_cons, <- insert_union_l, insert_union_r; [done|].
  apply lookup_entriesAt_None. intros i _ ?%(inj Js.toString). lia.
Qed.

Lemma entriesAt_fmap {W} (f : V → W) lo vs :
  f <$> entriesAt lo vs = entriesAt lo (f <$> vs).
Proof.
  revert lo. induction vs as [|v vs IH]; intros lo.
  - apply fmap_empty.
  - simpl. rewrite !entriesAt_cons, fmap_insert. by rewrite IH.
Qed.

Lemma size_entriesAt lo vs : size (entriesAt lo vs) = length vs.
Proof.
  revert lo. induction vs as [|v vs IH]; intros lo; [done|].
  rewrite entriesAt_cons, map_size_insert_None; [by rewrite IH|].
  apply lookup_entriesAt_None. intros i _ ?%(inj Js.toString). lia.
Qed.

Lemma elem_of_keysOf m key : key ∈ Old.keys m ↔ is_Some (m !! key).
Proof.
  unfold Old.keys. rewrite list_elem_of_fmap. split.
  - intros ([k v] & -> & H%elem_of_map_to_list). by eexists.
  - intros [v Hv]. exists (key, v). by rewrite elem_of_map_to_list.
Qed.

Lemma NoDup_keysOf m : NoDup (Old.keys m).
Proof. apply NoDup_fst_map_to_list. Qed.

Lemma keysOf_entriesAt lo vs key :
  key ∈ Old.keys (entriesAt lo vs) →
  ∃ k, key = Js.toString k ∧ lo ≤ k < lo + length vs.
Proof.
  intros [v (i & -> & Hi)%lookup_entriesAt_Some]%elem_of_keysOf.
  apply lookup_lt_Some in Hi. exists (lo + i). split; [done|lia].
Qed.
End entriesAt.

Section old_loops.
Variables (file : string) (ratio : Qc).

(** A loop that stores one entry per element under the running id. *)
Lemma old_loop {X V} (mk : X → V)
    (set : (gmap string V → gmap string V) → Old.Project → Old.Project)
    (body : Old.Project * nat → X → Old.Project * nat) :
  (∀ p id x, body (p, id) x = (set <[Js.toString id := mk x]> p, S id)) →
  (∀ f g p, set f (set g p) = set (λ m, f (g m)) p) →
  (∀ f g p, (∀ m, f m = g m) → set f p = set g p) →
  (∀ p, set (λ m, m) p = p) →
  ∀ cat p id,
    Old.loop body cat (p, id)
    = (set (λ m, entriesAt id (mk <$> default [] cat) ∪ m) p,
       id + count cat).
Proof.
  intros Hbody Hset Hext Hid cat p id. unfold Old.loop, count.
  destruct cat as [l|]; simpl.
  2: { rewrite Nat.add_0_r. f_equal. rewrite <- (Hid p) at 1.
       apply Hext. intros m. by rewrite entriesAt_nil, (left_id ∅ _). }
  revert p id. induction l as [|x l IH]; intros p id; simpl.
  - rewrite Nat.add_0_r. f_equal. rewrite <- (Hid p) at 1.
    apply Hext. intros m. by rewrite entriesAt_nil, (left_id ∅ _).
  - rewrite Hbody, IH, Hset. f_equal; [|lia].
    apply Hext. intros m. apply entriesAt_snoc.
Qed.

(** The skins loop: one entry per skin, each with an empty joints
    array, and [skinsJoints] maps an id to its own key. *)
Lemma old_skinsBody_loop l p id maps skinID :
  ∃ maps',
    foldl (Old.skinsBody file) (p, id, maps, skinID) l
    = (Old.set_skins (λ m, entriesAt id (Old.skinObj file <$> l) ∪ m) p,
       id + length l, maps', skinID + length l)
    ∧ ∀ sk key, skinsJoints maps' !! sk = Some key →
        skinsJoints maps !! sk = Some key
        ∨ (key = Js.toString sk ∧ id ≤ sk < id + length l).
Proof.
  revert p id maps skinID. induction l as [|skin l IH];
    intros p id maps skinID; simpl.
  - exists maps. split; [|by left].
    rewrite !Nat.add_0_r. repeat f_equal. destruct p. unfold Old.set_skins.
    simpl. by rewrite entriesAt_nil, (left_id ∅ _).
  - edestruct IH as (maps' & -> & Hmaps). exists maps'. split.
    + replace (S id + length l) with (id + S (length l)) by lia.
      replace (S skinID + length l) with (skinID + S (length l)) by lia.
      do 3 f_equal. destruct p. unfold Old.set_skins. simpl. f_equal.
      apply entriesAt_snoc.
    + intros sk key [H|[-> ?]]%Hmaps; [|right; split; [done|lia]].
      simpl in H. destruct (decide (sk = id)) as [->|Hne].
      * rewrite lookup_insert_eq in H. simplify_eq. right. split; [done|lia].
      * rewrite lookup_insert_ne in H by done. by left.
Qed.

Lemma old_genSkins_spec json p id :
  ∃ maps,
    Old.genSkins file json (p, id)
    = (Old.set_skins
         (λ m, entriesAt id (Old.skinObj file <$> default [] (skins json)) ∪ m)
         p,
       id + count (skins json), maps)
    ∧ ∀ sk key, skinsJoints maps !! sk = Some key →
        key = Js.toString sk ∧ id ≤ sk < id + count (skins json).
Proof.
  unfold Old.genSkins, count. destruct (skins json) as [l|]; simpl.
  - destruct (old_skinsBody_loop l p id noSkinMaps 0) as (maps & -> & H).
    exists maps. split; [done|]. intros sk key [H'|H']%H; [|done].
    simpl in H'. by rewrite lookup_empty in H'.
  - exists noSkinMaps. split.
    + rewrite Nat.add_0_r. repeat f_equal. destruct p. unfold Old.set_skins.
      simpl. by rewrite entriesAt_nil, (left_id ∅ _).
    + intros sk key H. simpl in H. by rewrite lookup_empty in H.
Qed.
End old_loops.

Section old_visit.
Variables (file : string) (maps : SkinMaps) (fuel : nat).
Hypothesis Hmaps :
  ∀ sk key, skinsJoints maps !! sk = Some key → key = Js.toString sk.

Lemma toJson_skin i s obj s' :
  toJson fuel i file s = Ok (obj, s') →
  o_skin obj = Js.toString <$> nodeSkin s i.
Proof.
  unfold toJson. intros H.
  destruct (Node.path fuel (Node.Idx i) s) as [[p s1]|] eqn:Hp;
    simpl in H; [|done].
  apply path_sameSkeleton in Hp.
  rewrite <- (nodeSkin_sameSkeleton s s1) by done. unfold nodeSkin. simpl.
  destruct (Node.nodesFlat s1 !! i) as [this|]; [|done].
  repeat (case_match; simplify_eq/=; try done).
Qed.

(** What one call of the callback does, when it returns. *)
Lemma old_visit_inv c g g' :
  Old.visit file maps fuel c g = Ok g' →
  Old.g_id g' = S (Old.g_id g)
  ∧ sameSkeleton (Old.g_store g) (Old.g_store g')
  ∧ ∃ obj skins',
      Old.g_project g'
      = Old.set_objects <[Js.toString (Old.g_id g) := obj]>
          (Old.set_skins (λ _, skins') (Old.g_project g))
      ∧ o_skin obj = Js.toString <$> nodeSkin (Old.g_store g) c
      ∧ skins'
        = match nodeSkin (Old.g_store g) c ≫= (skinsJoints maps !!.) with
          | Some key =>
            alter (Old.pushJoint (Old.g_id g)) key
                  (Old.op_skins (Old.g_project g))
          | None => Old.op_skins (Old.g_project g)
          end.
Proof.
  unfold Old.visit. intros H.
  rewrite get_upd, decide_True in H by done.
  destruct (Node.get (Old.g_store g) (Node.Idx c)) as [this|] eqn:Hthis;
    simpl in H; [|done].
  assert (Hsk : nodeSkin (Old.g_store g) c = Node.skin this).
  { unfold nodeSkin. by rewrite Hthis. }
  match type of H with
  | mbind _ ?m = _ => destruct m as [project|] eqn:Hproject
  end; simpl in H; [|done].
  destruct (toJson _ _ _ _) as [[obj s1]|] eqn:Hjson; simpl in H; [|done].
  pose proof (toJson_sameSkeleton _ _ _ _ _ _ Hjson) as Hskel.
  apply toJson_skin in Hjson.
  assert (Hskel0 : sameSkeleton (Old.g_store g)
            (Node.upd (Node.Idx c) (Node.set_id (Some (Old.g_id g)))
                      (Old.g_store g))).
  { apply (sameSkeleton_upd (Old.g_store g) (Node.Idx c)), skeleton_set_id. }
  assert (Hjs : o_skin obj = Js.toString <$> nodeSkin (Old.g_store g) c).
  { rewrite <- (nodeSkin_sameSkeleton _ _ c Hskel0). exact Hjson. }
  clear Hjson.
  simplify_eq. simpl.
  split_and!; [done|eapply sameSkeleton_trans; [exact Hskel0|exact Hskel]|].
  rewrite Hsk in Hjs |- *.
  destruct (Node.skin this) as [sk|]; simpl in *.
  - destruct (skinsJoints maps !! sk) as [key|]; [|done]. simplify_eq.
    eexists obj, _. split_and!; [|done|done]. by destruct (Old.g_project g).
  - simplify_eq. eexists obj, _. split_and!; [|done|done].
    by destruct (Old.g_project g).
Qed.

Lemma old_visit_kids c (g g' : Old.TreeState) :
  Old.visit file maps fuel c g = Ok g' →
  ∀ r, Node.children_of (Old.g_store g') r
       = Node.children_of (Old.g_store g) r.
Proof.
  intros (_ & Hskel & _)%old_visit_inv r. by apply sameSkeleton_children.
Qed.

(** The callback keeps the joints arrays in step with the objects. *)
Lemma old_visit_jointsOk c g g' :
  Old.visit file maps fuel c g = Ok g' →
  Old.jointsOk (Old.g_project g) (Old.g_id g) →
  Old.jointsOk (Old.g_project g') (Old.g_id g').
Proof.
  intros (Hid & _ & obj & skins' & Hproj & Hobj & Hskins)%old_visit_inv HJ.
  rewrite Hproj, Hid. intros key e j He Hj. simpl in He. simpl.
  assert (Hold : ∀ e0, Old.op_skins (Old.g_project g) !! key = Some e0 →
            j ∈ Old.se_joints e0 →
            j < S (Old.g_id g)
            ∧ ∃ obj0, <[Js.toString (Old.g_id g) := obj]>
                        (Old.op_objects (Old.g_project g))
                      !! Js.toString j = Some obj0
                      ∧ o_skin obj0 = Some key).
  { intros e0 He0 Hj0. destruct (HJ key e0 j He0 Hj0) as (Hlt & obj0 & ? & ?).
    split; [lia|]. exists obj0. split; [|done].
    rewrite lookup_insert_ne; [done|]. intros ?%(inj Js.toString). lia. }
  destruct (nodeSkin (Old.g_store g) c) as [sk|] eqn:Hsk; simpl in Hskins;
    [|subst skins'; by eapply Hold].
  destruct (skinsJoints maps !! sk) as [key0|] eqn:Hkey0;
    [|subst skins'; by eapply Hold].
  apply Hmaps in Hkey0 as ->. subst skins'.
  destruct (decide (key = Js.toString sk)) as [->|Hne].
  - rewrite lookup_alter_eq in He.
    destruct (Old.op_skins (Old.g_project g) !! Js.toString sk) as [e0|]
      eqn:He0; simpl in He; [|done].
    simplify_eq. simpl in Hj. apply elem_of_app in Hj as [Hj|Hj].
    + by eapply Hold.
    + apply list_elem_of_singleton in Hj as ->. split; [lia|].
      exists obj. by rewrite lookup_insert_eq.
  - rewrite lookup_alter_ne in He by done. by eapply Hold.
Qed.

Lemma old_visit_links c g g' :
  Old.visit file maps fuel c g = Ok g' →
  Old.se_link <$> Old.op_skins (Old.g_project g')
  = Old.se_link <$> Old.op_skins (Old.g_project g).
Proof.
  intros (_ & _ & obj & skins' & -> & _ & ->)%old_visit_inv. simpl.
  destruct (_ ≫= _) as [key|]; [|done].
  apply map_eq. intros k. rewrite !lookup_fmap.
  destruct (decide (k = key)) as [->|Hne].
  - rewrite lookup_alter_eq. by destruct (_ !! key).
  - by rewrite lookup_alter_ne.
Qed.

(** What the callback does over a sequence of nodes, when it returns:
    one id and one object per node, in sequence. *)
Lemma old_forEach_visit_inv l g g' :
  forEach (Old.visit file maps fuel) l g = Ok g' →
  Old.g_id g' = Old.g_id g + length l
  ∧ sameSkeleton (Old.g_store g) (Old.g_store g')
  ∧ (Old.jointsOk (Old.g_project g) (Old.g_id g) →
     Old.jointsOk (Old.g_project g') (Old.g_id g'))
  ∧ Old.se_link <$> Old.op_skins (Old.g_project g')
    = Old.se_link <$> Old.op_skins (Old.g_project g)
  ∧ ∃ objs skins',
      length objs = length l
      ∧ Old.g_project g'
        = Old.set_objects (λ m, entriesAt (Old.g_id g) objs ∪ m)
            (Old.set_skins (λ _, skins') (Old.g_project g)).
Proof.
  revert g. induction l as [|c l IH]; intros g H; simpl in H.
  - simplify_eq. rewrite Nat.add_0_r.
    split_and!; [done|apply sameSkeleton_refl|done|done|].
    exists [], (Old.op_skins (Old.g_project g')). split; [done|].
    destruct (Old.g_project g'). unfold Old.set_objects, Old.set_skins.
    simpl. by rewrite entriesAt_nil, (left_id ∅ _).
  - destruct (Old.visit file maps fuel c g) as [g1|] eqn:Hvisit; simpl in H;
      [|done].
    pose proof (old_visit_jointsOk _ _ _ Hvisit) as HJ.
    pose proof (old_visit_links _ _ _ Hvisit) as Hlinks.
    apply old_visit_inv in Hvisit
      as (Hid & Hskel & obj & skins1 & Hproj & _ & _).
    apply IH in H as (Hid' & Hskel' & HJ' & Hlinks' & objs & skins' & Hlen
                      & Hproj').
    split_and!.
    + simpl. lia.
    + by eapply sameSkeleton_trans.
    + auto.
    + by rewrite Hlinks'.
    + exists (obj :: objs), skins'. split; [simpl; lia|].
      rewrite Hproj', Hproj, Hid. destruct (Old.g_project g).
      unfold Old.set_objects, Old.set_skins. simpl. f_equal.
      apply entriesAt_snoc.
Qed.

(** A traversal that returns has visited the nodes of [traversalOrder],
    one id and one object each. *)
Lemma old_genTree_inv json project id0 g :
  Old.genTree file fuel maps json (project, id0) = Ok g →
  ∃ l objs skins',
    traversalOrder fuel maps json = Some l
    ∧ length objs = length l
    ∧ Old.g_id g = id0 + length l
    ∧ Old.g_project g
      = Old.set_objects (λ m, entriesAt id0 objs ∪ m)
          (Old.set_skins (λ _, skins') project)
    ∧ Old.se_link <$> skins' = Old.se_link <$> Old.op_skins project
    ∧ (Old.jointsOk project id0 → Old.jointsOk (Old.g_project g) (Old.g_id g)).
Proof.
  unfold Old.genTree, traversalOrder, treeStore.
  destruct (nodes json) as [ns|]; simpl.
  - destruct (buildTree maps ns) as [s0|e] eqn:Hbuild; simpl; [|done].
    intros Hdfs.
    set (s1 := Node.reverse Node.Root s0) in *.
    set (g0 := {| Old.g_store := s1; Old.g_project := project;
                  Old.g_id := id0 |}) in *.
    destruct (dfs_order (λ g, Node.children_of (Old.g_store g))
                (Old.visit file maps fuel) old_visit_kids
                (Node.children_of s1) fuel Node.Root g0 g) as [l Hl];
      [done|done|].
    rewrite (dfs_forEach (λ g, Node.children_of (Old.g_store g))
               (Old.visit file maps fuel) old_visit_kids
               (Node.children_of s1) fuel Node.Root l g0) in Hdfs
      by done.
    apply old_forEach_visit_inv in Hdfs
      as (Hid & _ & HJ & Hlinks & objs & skins' & Hlen & Hproj).
    exists l, objs, skins'. split_and!; try done.
    rewrite Hproj in Hlinks. exact Hlinks.
  - intros [= <-]. exists [], [], (Old.op_skins project).
    rewrite order_unfold. simpl. split_and!; try done; try lia.
    destruct project. unfold Old.set_objects, Old.set_skins. simpl.
    by rewrite entriesAt_nil, (left_id ∅ _).
Qed.
End old_visit.

Section old_generateProject.
Variables (file : string) (ratio : Qc) (fuel : nat) (json : Gltf).

(** The project of a run that returns, field by field. *)
Lemma old_generateProject_phases p :
  Old.generateProject file ratio fuel json = Ok p →
  ∃ maps l objs skins',
    traversalOrder fuel maps json = Some l
    ∧ length objs = length l
    ∧ Old.se_link <$> skins'
      = entriesAt 28 (Old.namedLink file ∘ sk_name
                        <$> default [] (skins json))
    ∧ Old.jointsOk p (28 + count (skins json) + length l)
    ∧ p = {| Old.op_objects := entriesAt (28 + count (skins json)) objs;
             Old.op_meshes :=
               entriesAt (28 + count (skins json) + length l)
                 (Old.meshObj file ratio <$> default [] (meshes json));
             Old.op_textures :=
               entriesAt (28 + count (skins json) + length l
                          + count (meshes json) + count (materials json)
                          + count (animations json) + count (images json))
                 (Old.textureLink file <$> default [] (textures json));
             Old.op_images :=
               entriesAt (28 + count (skins json) + length l
                          + count (meshes json) + count (materials json)
                          + count (animations json))
                 (Old.namedLink file ∘ nm_name
                    <$> default [] (images json));
             Old.op_materials :=
               entriesAt (28 + count (skins json) + length l
                          + count (meshes json))
                 (Old.namedLink file ∘ nm_name
                    <$> default [] (materials json));
             Old.op_shaders := Old.shaders;
             Old.op_animations :=
               entriesAt (28 + count (skins json) + length l
                          + count (meshes json) + count (materials json))
                 (Old.namedLink file ∘ nm_name
                    <$> default [] (animations json));
             Old.op_skins := skins';
             Old.op_pipelines := Old.pipelines;
             Old.op_version := [0; 8; 10];
             Old.op_files := [file] |}.
Proof.
  unfold Old.generateProject.
  match goal with
  | |- context [Old.genSkins file json (?p0, 28)] =>
    destruct (old_genSkins_spec file json p0 28) as (maps & -> & Hmaps)
  end.
  cbn iota beta zeta.
  destruct (Old.genTree _ _ _ _ _) as [g|] eqn:Hg; [|done].
  rewrite bind_Ok. cbn [fst snd].
  apply old_genTree_inv in Hg
    as (l & objs & skins' & Hl & Hlen & Hid & Hproj & Hlinks & HJ);
    [|intros sk key H; by apply Hmaps in H as [-> _]].
  simpl in Hlinks. rewrite (right_id ∅ _), entriesAt_fmap in Hlinks.
  rewrite <- list_fmap_compose in Hlinks.
  rewrite (old_loop (Old.meshObj file ratio) Old.set_meshes);
    [|done|done|by intros ? ? [] ?; unfold Old.set_meshes; simpl; f_equal
     |by intros []].
  rewrite (old_loop (Old.namedLink file ∘ nm_name) Old.set_materials);
    [|done|done|by intros ? ? [] ?; unfold Old.set_materials; simpl; f_equal
     |by intros []].
  rewrite (old_loop (Old.namedLink file ∘ nm_name) Old.set_animations);
    [|done|done|by intros ? ? [] ?; unfold Old.set_animations; simpl; f_equal
     |by intros []].
  rewrite (old_loop (Old.namedLink file ∘ nm_name) Old.set_images);
    [|done|done|by intros ? ? [] ?; unfold Old.set_images; simpl; f_equal
     |by intros []].
  rewrite (old_loop (Old.textureLink file) Old.set_textures);
    [|done|done|by intros ? ? [] ?; unfold Old.set_textures; simpl; f_equal
     |by intros []].
  assert (HJ' : Old.jointsOk (Old.g_project g) (Old.g_id g)).
  { apply HJ. intros key0 e0 j0 He0 Hj0. simpl in He0.
    rewrite (right_id ∅ _) in He0.
    apply lookup_entriesAt_Some in He0 as (i & _ & Hi).
    apply list_lookup_fmap_Some in Hi as (skin & -> & _).
    by apply elem_of_nil in Hj0. }
  clear HJ. rewrite Hid in HJ' |- *. rewrite Hproj in HJ' |- *.
  clear Hproj Hid.
  intros [= <-]. exists maps, l, objs, skins'.
  split_and!; [done|done|done| |].
  - intros key e j He Hj. exact (HJ' key e j He Hj).
  - cbv [Old.set_textures Old.set_images Old.set_animations
         Old.set_materials Old.set_meshes Old.set_objects Old.set_skins
         Old.op_objects Old.op_meshes Old.op_textures Old.op_images
         Old.op_materials Old.op_shaders Old.op_animations Old.op_skins
         Old.op_pipelines Old.op_version Old.op_files fst snd].
    by rewrite !(right_id ∅ _).
Qed.
End old_generateProject.

(** Lists of keys that are the decimal forms of pairwise distinct
    numbers have no key in common. *)
Lemma NoDup_keyed (parts : list (list nat * list string)) :
  Forall (λ part, NoDup part.2
                  ∧ Forall (λ key, ∃ k, key = Js.toString k ∧ k ∈ part.1)
                           part.2) parts →
  NoDup (concat parts.*1) → NoDup (concat parts.*2).
Proof.
  induction 1 as [|[ks L] parts [HL Hks] Hparts IH]; simpl;
    [intros; apply NoDup_nil_2|].
  rewrite !NoDup_app. intros (_ & Hdisj & Hrest). split_and!; [done| |auto].
  intros key Hkey Hkey'.
  rewrite Forall_forall in Hks. destruct (Hks key Hkey) as (k & -> & Hk).
  apply (Hdisj k Hk). clear -Hkey' Hparts.
  induction Hparts as [|[ks' L'] parts [_ Hks'] _ IH]; simpl in *;
    [by apply elem_of_nil in Hkey'|].
  apply elem_of_app in Hkey' as [Hkey'|Hkey']; apply elem_of_app; [left|auto].
  rewrite Forall_forall in Hks'.
  by destruct (Hks' _ Hkey') as (k' & ->%(inj Js.toString) & Hk').
Qed.

Lemma keys_entriesAt {V} lo (vs : list V) :
  Forall (λ key, ∃ k, key = Js.toString k ∧ k ∈ seq lo (length vs))
         (Old.keys (entriesAt lo vs)).
Proof.
  apply Forall_forall. intros key (k & -> & Hk)%keysOf_entriesAt.
  exists k. split; [done|]. apply elem_of_seq. lia.
Qed.

Lemma keys_entriesAt_fmap {X V} (f : X → V) lo (l : list X) :
  Forall (λ key, ∃ k, key = Js.toString k ∧ k ∈ seq lo (length l))
         (Old.keys (entriesAt lo (f <$> l))).
Proof.
  rewrite <- (length_fmap f l). apply keys_entriesAt.
Qed.

Lemma keys_shaders :
  Forall (λ key, ∃ k, key = Js.toString k
                      ∧ k ∈ [1; 3; 5; 6; 9; 11; 14; 17; 18; 19; 20; 22; 23; 24])
         (Old.keys Old.shaders).
Proof.
  eapply Forall_impl.
  - apply (bool_decide_unpack
             (Forall (λ key, key ∈ Js.toString
                               <$> [1; 3; 5; 6; 9; 11; 14; 17; 18; 19; 20;
                                    22; 23; 24]) (Old.keys Old.shaders))).
    vm_compute. exact I.
  - intros key (k & -> & Hk)%list_elem_of_fmap. by exists k.
Qed.

Lemma keys_pipelines :
  Forall (λ key, ∃ k, key = Js.toString k
                      ∧ k ∈ [2; 4; 7; 8; 10; 12; 13; 15; 16; 21; 25; 26; 27])
         (Old.keys Old.pipelines).
Proof.
  eapply Forall_impl.
  - apply (bool_decide_unpack
             (Forall (λ key, key ∈ Js.toString
                               <$> [2; 4; 7; 8; 10; 12; 13; 15; 16; 21; 25;
                                    26; 27]) (Old.keys Old.pipelines))).
    vm_compute. exact I.
  - intros key (k & -> & Hk)%list_elem_of_fmap. by exists k.
Qed.

Section old_properties.
Variables (file : string) (ratio : Qc) (fuel : nat) (json : Gltf).

(** X18.  The first version of the generator hands out the ids from 28
    on in the order skins, objects, meshes, materials, animations, images,
    textures.  The name of an entry is the [name] of the glTF entry as it
    is, absent when that is absent; a texture is named
    [texture_<source>], and every texture gets an entry of its own.  The
    shaders, the pipelines, the version and the files are the hard-coded
    ones. *)
Theorem old_ids_and_names p :
  Old.generateProject file ratio fuel json = Ok p →
  let n := size (Old.op_objects p) in
  let objectsAt := 28 + count (skins json) in
  let meshesAt := objectsAt + n in
  let materialsAt := meshesAt + count (meshes json) in
  let animationsAt := materialsAt + count (materials json) in
  let imagesAt := animationsAt + count (animations json) in
  let texturesAt := imagesAt + count (images json) in
  Old.se_link <$> Old.op_skins p
  = entriesAt 28 (Old.namedLink file ∘ sk_name <$> default [] (skins json))
  ∧ (∃ objs, Old.op_objects p = entriesAt objectsAt objs)
  ∧ Old.op_meshes p
    = entriesAt meshesAt (Old.meshObj file ratio <$> default [] (meshes json))
  ∧ Old.op_materials p
    = entriesAt materialsAt
        (Old.namedLink file ∘ nm_name <$> default [] (materials json))
  ∧ Old.op_animations p
    = entriesAt animationsAt
        (Old.namedLink file ∘ nm_name <$> default [] (animations json))
  ∧ Old.op_images p
    = entriesAt imagesAt
        (Old.namedLink file ∘ nm_name <$> default [] (images json))
  ∧ Old.op_textures p
    = entriesAt texturesAt
        (Old.textureLink file <$> default [] (textures json))
  ∧ size (Old.op_textures p) = count (textures json)
  ∧ Old.op_shaders p = Old.shaders
  ∧ Old.op_pipelines p = Old.pipelines
  ∧ Old.op_version p = [0; 8; 10]
  ∧ Old.op_files p = [file].
Proof.
  intros (maps & l & objs & skins' & _ & Hlen & Hlinks & _ & ->)
    %old_generateProject_phases.
  cbn [Old.op_objects Old.op_meshes Old.op_textures Old.op_images
       Old.op_materials Old.op_shaders Old.op_animations Old.op_skins
       Old.op_pipelines Old.op_version Old.op_files].
  rewrite !size_entriesAt, Hlen, length_fmap.
  split_and!; try done. by exists objs.
Qed.

(** X19.  No id is used twice in a project of the first version, across
    all its categories, the hard-coded shaders and pipelines included. *)
Theorem old_ids_unique p :
  Old.generateProject file ratio fuel json = Ok p → NoDup (Old.allKeys p).
Proof.
  intros (maps & l & objs & skins' & _ & Hlen & Hlinks & _ & ->)
    %old_generateProject_phases.
  unfold Old.allKeys.
  cbn [Old.op_objects Old.op_meshes Old.op_textures Old.op_images
       Old.op_materials Old.op_shaders Old.op_animations Old.op_skins
       Old.op_pipelines Old.op_version Old.op_files].
  assert (Hskins :
    Forall (λ key, ∃ k, key = Js.toString k
                        ∧ k ∈ seq 28 (count (skins json)))
           (Old.keys skins')).
  { apply Forall_forall. intros key [e He]%elem_of_keysOf.
    assert (is_Some ((Old.se_link <$> skins') !! key)) as Hin
      by (rewrite lookup_fmap, He; by eexists).
    rewrite Hlinks in Hin. apply elem_of_keysOf, keysOf_entriesAt in Hin
      as (k & -> & Hk).
    rewrite length_fmap in Hk. exists k. split; [done|].
    apply elem_of_seq. unfold count. lia. }
  set (a := 28 + count (skins json)) in *.
  set (b := a + length l) in *.
  match goal with
  | |- NoDup (?L1 ++ ?L2 ++ ?L3 ++ ?L4 ++ ?L5 ++ ?L6 ++ ?L7 ++ ?L8 ++ ?L9) =>
    rewrite <- (app_nil_r L9);
    change (NoDup (concat
      [ (seq a (length objs), L1);
        (seq b (count (meshes json)), L2);
        (seq (b + count (meshes json) + count (materials json)
              + count (animations json) + count (images json))
             (count (textures json)), L3);
        (seq (b + count (meshes json) + count (materials json)
              + count (animations json)) (count (images json)), L4);
        (seq (b + count (meshes json)) (count (materials json)), L5);
        ([1; 3; 5; 6; 9; 11; 14; 17; 18; 19; 20; 22; 23; 24], L6);
        (seq (b + count (meshes json) + count (materials json))
             (count (animations json)), L7);
        (seq 28 (count (skins json)), L8);
        ([2; 4; 7; 8; 10; 12; 13; 15; 16; 21; 25; 26; 27], L9) ].*2))
  end.
  apply NoDup_keyed.
  - unfold count.
    repeat apply Forall_cons_2; try apply Forall_nil_2;
      (split; [apply NoDup_keysOf|]); cbn [fst snd];
      [apply keys_entriesAt|apply keys_entriesAt_fmap..|apply keys_shaders
      |apply keys_entriesAt_fmap|exact Hskins|apply keys_pipelines].
  - cbn [fmap list_fmap fst concat].
    rewrite !NoDup_app. rewrite Hlen.
    split_and!; try apply NoDup_seq; try apply NoDup_nil_2;
      try (apply (bool_decide_unpack _); vm_compute; exact I);
      intros k; rewrite ?elem_of_app, ?elem_of_seq, ?elem_of_cons,
                  ?elem_of_nil; subst a b; lia.
Qed.

(** X20.  In a project of the first version, every entry of the joints
    array of a skin is the id of an object of the project, and that
    object names the skin as its [skin]. *)
Theorem old_joints_are_objects p key e j :
  Old.generateProject file ratio fuel json = Ok p →
  Old.op_skins p !! key = Some e → j ∈ Old.se_joints e →
  ∃ obj, Old.op_objects p !! Js.toString j = Some obj
         ∧ o_skin obj = Some key.
Proof.
  intros (maps & l & objs & skins' & _ & _ & _ & HJ & _)
    %old_generateProject_phases He Hj.
  by destruct (HJ key e j He Hj) as [_ ?].
Qed.

(** X21.  On a node list whose child indices are in range, that lists
    no index twice and has no cycle, a run of the first version that
    returns has stored one object per node, under the ids that follow
    those of the skins. *)
Theorem old_objects_complete ns p :
  nodes json = Some ns → wellFormed ns →
  Old.generateProject file ratio fuel json = Ok p →
  size (Old.op_objects p) = length ns
  ∧ ∀ i, i < length ns →
      is_Some (Old.op_objects p !! Js.toString (28 + count (skins json) + i)).
Proof.
  intros Hnodes Hwf
    (maps & l & objs & skins' & Hl & Hlen & _ & _ & ->)
    %old_generateProject_phases.
  apply (traversalOrder_wf _ _ _ _ _ Hnodes Hwf) in Hl.
  apply Permutation_length in Hl. rewrite length_seq in Hl.
  cbn [Old.op_objects]. rewrite size_entriesAt. split; [lia|].
  intros i Hi. rewrite lookup_entriesAt. apply lookup_lt_is_Some. lia.
Qed.
End old_properties.

Lemma old_ids_and_names_witness :
  ∃ p, Old.generateProject "m.glb" 1%Qc 1 gltfOneOfEach = Ok p
       ∧ Old.op_textures p
         = entriesAt 34 [Old.textureLink "m.glb" {| tex_source := Some 0 |}]
       ∧ size (Old.op_textures p) = 1.
Proof.
  assert (∃ p, Old.generateProject "m.glb" 1%Qc 1 gltfOneOfEach = Ok p)
    as [p Hrun] by (eexists; vm_compute; reflexivity).
  exists p. split; [exact Hrun|].
  destruct (old_ids_and_names "m.glb" 1%Qc 1 gltfOneOfEach p Hrun)
    as (_ & [objs Hobjs] & _ & _ & _ & _ & Htex & Hsize & _).
  assert (size (Old.op_objects p) = 1) as Hn.
  { assert ((p ← Old.generateProject "m.glb" 1%Qc 1 gltfOneOfEach;
             Ok (size (Old.op_objects p))) = Ok 1) as H
      by (vm_compute; reflexivity).
    rewrite Hrun, bind_Ok in H. by injection H. }
  rewrite Hn in Htex. split; [exact Htex|exact Hsize].
Defined.

Lemma old_ids_unique_witness :
  ∃ p, Old.generateProject "m.glb" 1%Qc 1 gltfOneOfEach = Ok p
       ∧ NoDup (Old.allKeys p).
Proof.
  assert (∃ p, Old.generateProject "m.glb" 1%Qc 1 gltfOneOfEach = Ok p)
    as [p Hrun] by (eexists; vm_compute; reflexivity).
  exists p. split; [exact Hrun|].
  exact (old_ids_unique "m.glb" 1%Qc 1 gltfOneOfEach p Hrun).
Defined.

Lemma old_joints_are_objects_witness :
  ∃ p e, Old.generateProject "m.glb" 1%Qc 1 gltfJointsXY = Ok p
         ∧ Old.op_skins p !! "28" = Some e
         ∧ Old.se_joints e = [29; 30]
         ∧ ∀ j, j ∈ [29; 30] →
             ∃ obj, Old.op_objects p !! Js.toString j = Some obj
                    ∧ o_skin obj = Some "28".
Proof.
  assert (∃ p e, Old.generateProject "m.glb" 1%Qc 1 gltfJointsXY = Ok p
                 ∧ Old.op_skins p !! "28" = Some e
                 ∧ Old.se_joints e = [29; 30])
    as (p & e & Hrun & He & Hj).
  { eexists _, _. split_and!; vm_compute; reflexivity. }
  exists p, e. split_and!; [exact Hrun|exact He|exact Hj|].
  intros j Hin. rewrite <- Hj in Hin.
  exact (old_joints_are_objects "m.glb" 1%Qc 1 gltfJointsXY p "28" e j
           Hrun He Hin).
Defined.

Lemma old_objects_complete_witness :
  ∃ p, Old.generateProject "m.glb" 1%Qc 2 (gltfNodes nodesABCD) = Ok p
       ∧ size (Old.op_objects p) = 7
       ∧ is_Some (Old.op_objects p !! "34").
Proof.
  assert (∃ p, Old.generateProject "m.glb" 1%Qc 2 (gltfNodes nodesABCD)
               = Ok p)
    as [p Hrun] by (eexists; vm_compute; reflexivity).
  exists p. split; [exact Hrun|].
  assert (wellFormed nodesABCD) as Hwf
    by (apply (bool_decide_unpack _); vm_compute; exact I).
  destruct (old_objects_complete "m.glb" 1%Qc 2 (gltfNodes nodesABCD)
              nodesABCD p eq_refl Hwf Hrun) as [Hsize Hids].
  split; [exact Hsize|]. apply (Hids 6). simpl. lia.
Defined.
